(** * Texas Hold'em rules engine: hand evaluator, chip ledger, pot manager
      and betting state machine, embedded from the JavaScript sources
      (server/game.js, server/evaluate.js, server/index.js). *)

From Stdlib Require Import ZArith Lia Bool Floats.
From Stdlib Require Import Permutation SetoidPermutation.
From stdpp Require Import gmap strings list sorting.

Open Scope Z_scope.
Set Warnings "-clear-no-such-hyp".

(** ** JavaScript array primitives used by the sources *)

Section JsArray.
Context {A : Type}.

(** [Array.prototype.sort(cmp)]: a stable sort; [cmp a b <= 0] keeps [a]
    in front of [b]. *)
Fixpoint js_insert (cmp : A -> A -> Z) (x : A) (l : list A) : list A :=
  match l with
  | [] => [x]
  | y :: l' => if cmp x y <=? 0 then x :: y :: l' else y :: js_insert cmp x l'
  end.

Definition js_sort (cmp : A -> A -> Z) (l : list A) : list A :=
  foldr (js_insert cmp) [] l.
End JsArray.

(** [[...new Set(xs)]]: the distinct values, each at its first occurrence. *)
Definition js_set_add (acc : list Z) (x : Z) : list Z :=
  if existsb (Z.eqb x) acc then acc else acc ++ [x].

Definition js_set (xs : list Z) : list Z := fold_left js_set_add xs [].

Definition includes (xs : list Z) (x : Z) : bool := existsb (Z.eqb x) xs.

(** ** Cards *)

Inductive Suit := S_ | H_ | D_ | C_.

Inductive Rank :=
| RA | R2 | R3 | R4 | R5 | R6 | R7 | R8 | R9 | R10 | RJ | RQ | RK.

Record Card := mkCard { rank : Rank; suit : Suit }.

#[global] Instance Suit_eq_dec : EqDecision Suit.
Proof. solve_decision. Defined.
#[global] Instance Rank_eq_dec : EqDecision Rank.
Proof. solve_decision. Defined.
#[global] Instance Card_eq_dec : EqDecision Card.
Proof. solve_decision. Defined.

(** The [rankOrder] table repeated throughout evaluate.js. *)
Definition rankOrder (r : Rank) : Z :=
  match r with
  | RA => 14 | RK => 13 | RQ => 12 | RJ => 11 | R10 => 10 | R9 => 9
  | R8 => 8 | R7 => 7 | R6 => 6 | R5 => 5 | R4 => 4 | R3 => 3 | R2 => 2
  end.

(** ** The [rankCounts] object

    A JavaScript object keyed by rank strings.  Its own keys are listed with
    the integer-like keys ('2' .. '10') first, in ascending numeric order,
    followed by the other keys ('A', 'K', 'Q', 'J') in insertion order. *)

Definition RankCounts := list (Rank * Z).

Fixpoint rc_get (o : RankCounts) (r : Rank) : option Z :=
  match o with
  | [] => None
  | (k, v) :: o' => if decide (k = r) then Some v else rc_get o' r
  end.

Fixpoint rc_set (o : RankCounts) (r : Rank) (v : Z) : RankCounts :=
  match o with
  | [] => [(r, v)]
  | (k, w) :: o' => if decide (k = r) then (k, v) :: o' else (k, w) :: rc_set o' r v
  end.

(** [rankCounts[rank] = (rankCounts[rank] || 0) + 1] *)
Definition rc_count (o : RankCounts) (r : Rank) : RankCounts :=
  rc_set o r (match rc_get o r with Some c => if c =? 0 then 0 else c | None => 0 end + 1).

Definition isIndexKey (r : Rank) : bool := rankOrder r <=? 10.

Definition Object_keys (o : RankCounts) : list Rank :=
  js_sort (fun a b => rankOrder a - rankOrder b) (List.filter isIndexKey (map fst o))
  ++ List.filter (fun r => negb (isIndexKey r)) (map fst o).

Definition Object_values (o : RankCounts) : list Z :=
  omap (rc_get o) (Object_keys o).

Definition hasCount (o : RankCounts) (c : Z) (r : Rank) : bool :=
  bool_decide (rc_get o r = Some c).

(** ** Hand evaluation (evaluate.js) *)

Inductive HandRank :=
| Invalid | HighCard | OnePair | TwoPair | ThreeOfAKind | Straight | Flush
| FullHouse | FourOfAKind | StraightFlush | RoyalFlush.

#[global] Instance HandRank_eq_dec : EqDecision HandRank.
Proof. solve_decision. Defined.

Record Evaluation := mkEval { hand_rank : HandRank; score : Z; cards : list Card }.

Definition byRankDesc (a b : Card) : Z := rankOrder (rank b) - rankOrder (rank a).
Definition byRankKeyDesc (a b : Rank) : Z := rankOrder b - rankOrder a.
Definition numDesc (a b : Z) : Z := b - a.

(** [uniqueValues[i + j] !== uniqueValues[i] - j] for j = 1 .. 4; a missing
    element is [undefined] and never equal to a number. *)
Definition consecutiveAt (uniqueValues : list Z) (i : nat) : bool :=
  forallb (fun j : nat =>
             match uniqueValues !! (i + j)%nat, uniqueValues !! i with
             | Some a, Some b => a =? b - Z.of_nat j
             | _, _ => false
             end) [1; 2; 3; 4]%nat.

(** The loop [for (i = 0; i <= uniqueValues.length - 5; i++)], stopping at
    the first consecutive window. *)
Definition regularStraight (uniqueValues : list Z) : option Z :=
  i ← List.find (consecutiveAt uniqueValues) (seq 0 (S (length uniqueValues) - 5));
  uniqueValues !! i.

(** [base + sum_{i<5} sortedValues[i] * Math.pow(100, 4 - i)] *)
Definition positional (base : Z) (sortedValues : list Z) : option Z :=
  fold_left (fun acc (i : nat) =>
               s ← acc; v ← sortedValues !! i; Some (s + v * 100 ^ (4 - Z.of_nat i)))
            [0; 1; 2; 3; 4]%nat (Some base).

(** [suits.every(suit => suit === suits[0])] *)
Definition every_first (suits : list Suit) : bool :=
  match suits with
  | [] => true
  | s0 :: _ => forallb (fun s => bool_decide (s = s0)) suits
  end.

(** [evaluateFiveCards].  The result is [None] when an array or table read
    that the score needs is [undefined] (the score would be NaN); this
    never happens on five cards, see [evaluateFiveCards_defined]. *)
Definition evaluateFiveCards (cards : list Card) : option Evaluation :=
  let sorted := js_sort byRankDesc cards in
  let ranks := map rank sorted in
  let suits := map suit sorted in
  let rankCounts := fold_left rc_count ranks [] in
  let counts := js_sort numDesc (Object_values rankCounts) in
  let isFlush := every_first suits in
  let rankValues := map rankOrder ranks in
  let sortedValues := js_sort numDesc rankValues in
  let uniqueValues := js_sort numDesc (js_set sortedValues) in
  let '(isStraight, straightHigh) :=
    match regularStraight uniqueValues with
    | Some h => (true, h)
    | None =>
        if includes uniqueValues 14 && includes uniqueValues 5
           && includes uniqueValues 4 && includes uniqueValues 3
           && includes uniqueValues 2
        then (true, 5) else (false, 0)
    end in
  let keys := Object_keys rankCounts in
  if isFlush && isStraight && (straightHigh =? 14) then
    Some (mkEval RoyalFlush (9000000 + straightHigh) sorted)
  else if isFlush && isStraight then
    Some (mkEval StraightFlush (8000000 + straightHigh) sorted)
  else if bool_decide (counts !! 0%nat = Some 4) then
    fourKind ← List.find (hasCount rankCounts 4) keys;
    kicker ← List.find (hasCount rankCounts 1) keys;
    Some (mkEval FourOfAKind (7000000 + rankOrder fourKind * 100 + rankOrder kicker) sorted)
  else if bool_decide (counts !! 0%nat = Some 3) && bool_decide (counts !! 1%nat = Some 2) then
    threeKind ← List.find (hasCount rankCounts 3) keys;
    pair ← List.find (hasCount rankCounts 2) keys;
    Some (mkEval FullHouse (6000000 + rankOrder threeKind * 100 + rankOrder pair) sorted)
  else if isFlush then
    flushScore ← positional 5000000 sortedValues;
    Some (mkEval Flush flushScore sorted)
  else if isStraight then
    Some (mkEval Straight (4000000 + straightHigh) sorted)
  else if bool_decide (counts !! 0%nat = Some 3) then
    threeKind ← List.find (hasCount rankCounts 3) keys;
    let kickers := js_sort byRankKeyDesc (List.filter (hasCount rankCounts 1) keys) in
    k0 ← kickers !! 0%nat;
    k1 ← kickers !! 1%nat;
    Some (mkEval ThreeOfAKind
            (3000000 + rankOrder threeKind * 10000 + rankOrder k0 * 100 + rankOrder k1) sorted)
  else if bool_decide (counts !! 0%nat = Some 2) && bool_decide (counts !! 1%nat = Some 2) then
    let pairs := js_sort byRankKeyDesc (List.filter (hasCount rankCounts 2) keys) in
    kicker ← List.find (hasCount rankCounts 1) keys;
    p0 ← pairs !! 0%nat;
    p1 ← pairs !! 1%nat;
    Some (mkEval TwoPair
            (2000000 + rankOrder p0 * 10000 + rankOrder p1 * 100 + rankOrder kicker) sorted)
  else if bool_decide (counts !! 0%nat = Some 2) then
    pair ← List.find (hasCount rankCounts 2) keys;
    let kickers := js_sort byRankKeyDesc (List.filter (hasCount rankCounts 1) keys) in
    k0 ← kickers !! 0%nat;
    k1 ← kickers !! 1%nat;
    k2 ← kickers !! 2%nat;
    Some (mkEval OnePair
            (1000000 + rankOrder pair * 10000 + rankOrder k0 * 100 + rankOrder k1 * 10
             + rankOrder k2) sorted)
  else
    highCardScore ← positional 0 sortedValues;
    Some (mkEval HighCard highCardScore sorted).

(** The loop [for (i = 0; i <= arr.length - k; i++)] of [getCombinations]:
    [iterations] turns, each taking the next element as [head] and the
    combinations [sub] of the elements after it. *)
Fixpoint combinationsLoop {A : Type} (sub : list A -> list (list A))
    (iterations : nat) (rest : list A) : list (list A) :=
  match iterations, rest with
  | S it, head :: tl => map (cons head) (sub tl) ++ combinationsLoop sub it tl
  | _, _ => []
  end.

(** [getCombinations(arr, k)] for [k = n + 1 >= 1] (the only arities the
    evaluator reaches: it asks for 5 and recurses down to the [k === 1]
    base case). *)
Fixpoint getCombinations {A : Type} (n : nat) (arr : list A) {struct n} : list (list A) :=
  match n with
  | O => map (fun x => [x]) arr
  | S n' =>
      if (S n =? length arr)%nat then [arr]
      else combinationsLoop (getCombinations n') (S (length arr) - S n)%nat arr
  end.

(** One turn of the [for (const combo of combinations)] loop of
    [evaluateHand]; the state is [(bestHand, bestScore)]. *)
Definition keepBest (st : option Evaluation * Z) (combo : list Card)
  : option Evaluation * Z :=
  match evaluateFiveCards combo with
  | Some evaluation =>
      if score evaluation >? snd st then (Some evaluation, score evaluation) else st
  | None => st
  end.

(** [evaluateHand]; [None] is the JavaScript [null] the function returns when
    no combination beat the initial [bestScore = 0]. *)
Definition evaluateHand (sevenCards : list Card) : option Evaluation :=
  if (length sevenCards <? 5)%nat then Some (mkEval Invalid 0 [])
  else fst (fold_left keepBest (getCombinations 4 sevenCards) (None, 0)).

Definition card (r : Rank) (s : Suit) : Card := mkCard r s.

Definition wheel : list Card :=
  [card RA C_; card R2 D_; card R3 H_; card R4 S_; card R5 C_].

Definition royal : list Card :=
  [card RA S_; card RK S_; card RQ S_; card RJ S_; card R10 S_].


(** The textbook enumeration of the [k]-element sub-sequences of a list,
    against which [getCombinations] is compared. *)
Fixpoint combos {A : Type} (k : nat) (l : list A) : list (list A) :=
  match k, l with
  | O, _ => [[]]
  | S _, [] => []
  | S k', x :: l' => map (cons x) (combos k' l') ++ combos k l'
  end.

(** The running maximum kept by [evaluateHand] in [bestScore]. *)
Definition bumpScore (best : Z) (combo : list Card) : Z :=
  match evaluateFiveCards combo with
  | Some evaluation => if score evaluation >? best then score evaluation else best
  | None => best
  end.


(** ** Player and chip ledger (game.js)

    Chips and bets are JavaScript numbers, modelled by [Z]: the model is the
    program on integers that doubles hold exactly (see the section on
    JavaScript numbers below, where [bet] is also given in double
    arithmetic). *)

Record Player := mkPlayer {
  id : string;
  name : string;
  chips : Z;
  hand : list (option Card);
  currentBet : Z;
  hasFolded : bool;
  isAllIn : bool;
  hasActed : bool;
  isBot : bool
}.

Definition setChips (v : Z) (p : Player) : Player :=
  mkPlayer (id p) (name p) v (hand p) (currentBet p) (hasFolded p) (isAllIn p)
    (hasActed p) (isBot p).
Definition setHand (v : list (option Card)) (p : Player) : Player :=
  mkPlayer (id p) (name p) (chips p) v (currentBet p) (hasFolded p) (isAllIn p)
    (hasActed p) (isBot p).
Definition setCurrentBet (v : Z) (p : Player) : Player :=
  mkPlayer (id p) (name p) (chips p) (hand p) v (hasFolded p) (isAllIn p)
    (hasActed p) (isBot p).
Definition setHasFolded (v : bool) (p : Player) : Player :=
  mkPlayer (id p) (name p) (chips p) (hand p) (currentBet p) v (isAllIn p)
    (hasActed p) (isBot p).
Definition setIsAllIn (v : bool) (p : Player) : Player :=
  mkPlayer (id p) (name p) (chips p) (hand p) (currentBet p) (hasFolded p) v
    (hasActed p) (isBot p).
Definition setHasActed (v : bool) (p : Player) : Player :=
  mkPlayer (id p) (name p) (chips p) (hand p) (currentBet p) (hasFolded p)
    (isAllIn p) v (isBot p).

(** [new Player(id, name, chips)] *)
Definition newPlayer (i n : string) (c : Z) : Player :=
  mkPlayer i n c [] 0 false false false false.

(** [Player.bet(amount)] on integers: the wagered amount and the player
    afterwards.  [bet_double] is the same method in double arithmetic. *)
Definition bet (amount : Z) (p : Player) : Z * Player :=
  let betAmount := Z.min amount (chips p) in
  let p1 := setChips (chips p - betAmount) p in
  let p2 := setCurrentBet (currentBet p1 + betAmount) p1 in
  let p3 := if chips p2 =? 0 then setIsAllIn true p2 else p2 in
  (betAmount, p3).

#[global] Arguments bet : simpl never.

Definition fold (p : Player) : Player := setHasFolded true p.

Definition resetForNewHand (p : Player) : Player :=
  setHasActed false (setIsAllIn false (setHasFolded false (setCurrentBet 0 (setHand [] p)))).

Definition resetForNewBettingRound (p : Player) : Player :=
  setHasActed false (setCurrentBet 0 p).

(** ** Deck *)

(** [deal()] pops the last card; an empty deck yields [undefined]. *)
Definition deal (deckCards : list Card) : option Card * list Card :=
  (last deckCards, removelast deckCards).

Fixpoint dealCards (count : nat) (deckCards : list Card) : list (option Card) * list Card :=
  match count with
  | O => ([], deckCards)
  | S n =>
      let '(c, d1) := deal deckCards in
      let '(cs, d2) := dealCards n d1 in
      (c :: cs, d2)
  end.

(** [Deck.initialize()] *)
Definition initialize : list Card :=
  flat_map (fun s => map (fun r => mkCard r s)
                       [RA; R2; R3; R4; R5; R6; R7; R8; R9; R10; RJ; RQ; RK])
           [S_; H_; D_; C_].

(** ** Pot manager (game.js) *)

Record Pot := mkPot { amount : Z; contributors : gset string }.

Definition emptyPot : Pot := mkPot 0 ∅.

(** [new PotManager()]: the main pot at index 0. *)
Definition newPots : list Pot := [emptyPot].

Definition hasBet (p : Player) : bool := 0 <? currentBet p.

(** [activeBets] holds references to the player objects that passed the
    filter on entry; the selection is kept as a mask over the player list
    and the current field values are read through it. *)
Fixpoint selected (mask : list bool) (players : list Player) : list Player :=
  match mask, players with
  | b :: mask', p :: players' =>
      if b then p :: selected mask' players' else selected mask' players'
  | _, _ => []
  end.

(** [Math.min(...xs)]; [None] is [Infinity], the result on no argument. *)
Definition Math_min (xs : list Z) : option Z :=
  match xs with
  | [] => None
  | x :: xs' => Some (fold_left Z.min xs' x)
  end.

(** [Math.min(p.currentBet, minBet)] *)
Definition contribution (minBet : option Z) (p : Player) : Z :=
  match minBet with
  | Some m => Z.min (currentBet p) m
  | None => currentBet p
  end.

(** The [players.forEach] of one pass: the players afterwards, the current
    pot afterwards and the local [contributors] array. *)
Fixpoint takeBets (minBet : option Z) (players : list Player) (currentPot : Pot)
  : list Player * Pot * list Player :=
  match players with
  | [] => ([], currentPot, [])
  | p :: rest =>
      if hasBet p then
        let c := contribution minBet p in
        let p' := setCurrentBet (currentBet p - c) p in
        let pot' := mkPot (amount currentPot + c) ({[ id p ]} ∪ contributors currentPot) in
        let '(rest', pot'', contribs) := takeBets minBet rest pot' in
        (p' :: rest', pot'', p' :: contribs)
      else
        let '(rest', pot'', contribs) := takeBets minBet rest currentPot in
        (p :: rest', pot'', contribs)
  end.

(** The pots before the current one and the current (last) pot; an empty
    pot list first receives a fresh pot. *)
Definition splitCurrent (pots : list Pot) : list Pot * Pot :=
  match last pots with
  | Some currentPot => (removelast pots, currentPot)
  | None => ([], emptyPot)
  end.

(** One turn of the [while] loop of [collectBets]. *)
Definition collectPass (mask : list bool) (players : list Player) (pots : list Pot)
  : list Player * list Pot :=
  let minBet := Math_min (map currentBet (List.filter hasBet (selected mask players))) in
  let '(closed, currentPot) := splitCurrent pots in
  let '(players', pot', contribs) := takeBets minBet players currentPot in
  let anyoneCapped := existsb (fun p => isAllIn p && (currentBet p =? 0)) contribs in
  if anyoneCapped && existsb hasBet (selected mask players')
  then (players', closed ++ [pot'; emptyPot])
  else (players', closed ++ [pot']).

(** The [while (activeBets.some(p => p.currentBet > 0))] loop; [None] when
    [fuel] turns do not reach the exit test. *)
Fixpoint collectLoop (fuel : nat) (mask : list bool) (players : list Player)
    (pots : list Pot) : option (list Player * list Pot) :=
  if existsb hasBet (selected mask players) then
    match fuel with
    | O => None
    | S fuel' =>
        let '(players', pots') := collectPass mask players pots in
        collectLoop fuel' mask players' pots'
    end
  else Some (players, pots).

(** [PotManager.collectBets(players)] on the pots [pots]. *)
Definition collectBets (players : list Player) (pots : list Pot)
  : option (list Player * list Pot) :=
  let mask := map hasBet players in
  if (length (selected mask players) =? 0)%nat then Some (players, pots)
  else collectLoop (length players) mask players pots.

Fixpoint sumZ (xs : list Z) : Z :=
  match xs with
  | [] => 0
  | x :: xs' => x + sumZ xs'
  end.

(** What one pass does to a single player, and its totals. *)
Definition payIn (minBet : option Z) (p : Player) : Player :=
  if hasBet p then setCurrentBet (currentBet p - contribution minBet p) p else p.

Definition paid (minBet : option Z) (players : list Player) : Z :=
  sumZ (map (contribution minBet) (List.filter hasBet players)).

Definition bettorIds (players : list Player) : gset string :=
  list_to_set (map id (List.filter hasBet players)).

Definition covers (mask : list bool) (players : list Player) : Prop :=
  Forall2 (fun (b : bool) p => hasBet p = true -> b = true) mask players.

Definition potsAmount (pots : list Pot) : Z := sumZ (map amount pots).
Definition betsTotal (players : list Player) : Z := sumZ (map currentBet players).
Definition chipsTotal (players : list Player) : Z := sumZ (map chips players).

(** Pots are only appended, and an existing pot only gains chips and
    contributors. *)
Definition potsGrow (pots pots' : list Pot) : Prop :=
  forall k pot, pots !! k = Some pot ->
    exists pot', pots' !! k = Some pot'
      /\ amount pot <= amount pot' /\ contributors pot ⊆ contributors pot'.

(** ** Hand state and room state (game.js, index.js)

    The action log, the turn timer and the broadcasts are presentation and
    scheduling concerns; the state below is the part of a room that the
    rules read and write.  [potManager] is created with the hand state and
    never cleared, so the branches of index.js guarded by its absence are
    not reachable and are left out. *)

Inductive Phase := preflop | flop | turn | river | showdown.

#[global] Instance Phase_eq_dec : EqDecision Phase.
Proof. solve_decision. Defined.

Record Winner := mkWinner {
  playerId : string;
  playerName : string;
  winningHand : option Evaluation;
  share : Z;
  potIndex : option nat
}.

Record HandState := mkHandState {
  phase : Phase;
  communityCards : list (option Card);
  pot : Z;
  hs_currentBet : Z;
  dealerIndex : Z;
  smallBlindIndex : Z;
  bigBlindIndex : Z;
  currentPlayerIndex : Z;
  blindsPosted : bool;
  winners : list Winner;
  potManager : list Pot
}.

Record GameState := mkGameState {
  players : list Player;
  gameStarted : bool;
  handState : option HandState;
  deck : list Card;
  gs_dealerIndex : Z
}.

Definition setPhase (v : Phase) (h : HandState) : HandState :=
  mkHandState v (communityCards h) (pot h) (hs_currentBet h) (dealerIndex h)
    (smallBlindIndex h) (bigBlindIndex h) (currentPlayerIndex h) (blindsPosted h)
    (winners h) (potManager h).
Definition setCommunityCards (v : list (option Card)) (h : HandState) : HandState :=
  mkHandState (phase h) v (pot h) (hs_currentBet h) (dealerIndex h)
    (smallBlindIndex h) (bigBlindIndex h) (currentPlayerIndex h) (blindsPosted h)
    (winners h) (potManager h).
Definition setPot (v : Z) (h : HandState) : HandState :=
  mkHandState (phase h) (communityCards h) v (hs_currentBet h) (dealerIndex h)
    (smallBlindIndex h) (bigBlindIndex h) (currentPlayerIndex h) (blindsPosted h)
    (winners h) (potManager h).
Definition setStreetBet (v : Z) (h : HandState) : HandState :=
  mkHandState (phase h) (communityCards h) (pot h) v (dealerIndex h)
    (smallBlindIndex h) (bigBlindIndex h) (currentPlayerIndex h) (blindsPosted h)
    (winners h) (potManager h).
Definition setCurrentPlayerIndex (v : Z) (h : HandState) : HandState :=
  mkHandState (phase h) (communityCards h) (pot h) (hs_currentBet h) (dealerIndex h)
    (smallBlindIndex h) (bigBlindIndex h) v (blindsPosted h)
    (winners h) (potManager h).
Definition setWinners (v : list Winner) (h : HandState) : HandState :=
  mkHandState (phase h) (communityCards h) (pot h) (hs_currentBet h) (dealerIndex h)
    (smallBlindIndex h) (bigBlindIndex h) (currentPlayerIndex h) (blindsPosted h)
    v (potManager h).
Definition setPotManager (v : list Pot) (h : HandState) : HandState :=
  mkHandState (phase h) (communityCards h) (pot h) (hs_currentBet h) (dealerIndex h)
    (smallBlindIndex h) (bigBlindIndex h) (currentPlayerIndex h) (blindsPosted h)
    (winners h) v.

Definition setPlayers (v : list Player) (g : GameState) : GameState :=
  mkGameState v (gameStarted g) (handState g) (deck g) (gs_dealerIndex g).
Definition setHandState (v : HandState) (g : GameState) : GameState :=
  mkGameState (players g) (gameStarted g) (Some v) (deck g) (gs_dealerIndex g).
Definition setDeck (v : list Card) (g : GameState) : GameState :=
  mkGameState (players g) (gameStarted g) (handState g) v (gs_dealerIndex g).
Definition setDealerIndex (v : Z) (g : GameState) : GameState :=
  mkGameState (players g) (gameStarted g) (handState g) (deck g) v.

(** How a call of an engine function ends: a normal return, a [TypeError]
    on reading a property of [undefined] or [null], or a loop that [fuel]
    turns do not see to its exit. *)
Inductive completion := Returned | Threw | Diverged.

#[global] Instance completion_eq_dec : EqDecision completion.
Proof. solve_decision. Defined.

(** [arr[i]] for a numeric index. *)
Definition atIndex {A : Type} (l : list A) (i : Z) : option A :=
  if i <? 0 then None else l !! Z.to_nat i.

(** [arr.findIndex(f)], [-1] when no element passes. *)
Fixpoint findIndexFrom {A : Type} (f : A -> bool) (i : Z) (l : list A) : Z :=
  match l with
  | [] => -1
  | x :: l' => if f x then i else findIndexFrom f (i + 1) l'
  end.

Definition findIndex {A : Type} (f : A -> bool) (l : list A) : Z := findIndexFrom f 0 l.

(** [l.filter(f)] as an array of object references: each kept element with
    its position in [l].  The element is as it was when the filter ran. *)
Fixpoint locatedFrom {A : Type} (f : A -> bool) (i : nat) (l : list A) : list (nat * A) :=
  match l with
  | [] => []
  | x :: l' => if f x then (i, x) :: locatedFrom f (S i) l' else locatedFrom f (S i) l'
  end.

Definition located {A : Type} (f : A -> bool) (l : list A) : list (nat * A) :=
  locatedFrom f 0 l.

Definition hasId (i : string) (p : Player) : bool := bool_decide (id p = i).

(** [!p.hasFolded && p.chips > 0] *)
Definition active (p : Player) : bool := negb (hasFolded p) && (0 <? chips p).

(** [p.hasFolded || p.chips === 0] *)
Definition outOfHand (p : Player) : bool := hasFolded p || (chips p =? 0).

Inductive seek := Found (i : Z) | Undefined | OutOfFuel.

(** The search for the next seat in [handlePlayerAction]: at most
    [players.length] advances ([attempts < gameState.players.length]). *)
Fixpoint skipOut (ps : list Player) (attemptsLeft : nat) (next : Z) : seek :=
  match atIndex ps next with
  | None => Undefined
  | Some p =>
      if outOfHand p then
        match attemptsLeft with
        | O => Found next
        | S a => skipOut ps a (Z.rem (next + 1) (Z.of_nat (length ps)))
        end
      else Found next
  end.

(** The same search in [processBettingRound], which has no bound on the
    number of advances. *)
Fixpoint seekIn (ps : list Player) (fuel : nat) (next : Z) : seek :=
  match atIndex ps next with
  | None => Undefined
  | Some p =>
      if outOfHand p then
        match fuel with
        | O => OutOfFuel
        | S f => seekIn ps f (Z.rem (next + 1) (Z.of_nat (length ps)))
        end
      else Found next
  end.

(** ** Player actions (index.js, [handlePlayerAction])

    The action a client submits; [amount] is the number sent with a raise.
    The model covers the submissions whose amount is an integer.  A raise by
    an amount that is no integer (the automated players compute some of
    theirs as a fraction of their chips) is not an [Action], and the
    statements about actions and about the states a hand reaches say
    nothing about hands in which one is submitted. *)

Inductive Action := Fold | Check | Call | Raise (amount : Z).

(** [gameState.handState.phase === 'preflop' ? 20 : 10] *)
Definition minRaiseFor (ph : Phase) : Z := if decide (ph = preflop) then 20 else 10.

(** The call performed by the [call] case and by the two bot fall-backs of
    the [raise] case. *)
Definition doCall (hs : HandState) (player : Player) : Player * HandState :=
  let callAmount := hs_currentBet hs - currentBet player in
  if callAmount >? chips player then
    let '(allInAmount, player') := bet (chips player) player in
    (setHasActed true player', setPot (pot hs + allInAmount) hs)
  else
    let '(betAmount, player') := bet callAmount player in
    (setHasActed true player', setPot (pot hs + betAmount) hs).

(** The [switch (action.type)]: [None] when the case returns from
    [handlePlayerAction]; otherwise the acting player and the hand state
    after the case, and whether the other active players' [hasActed] was
    reset. *)
Definition applyAction (hs : HandState) (player : Player) (action : Action)
  : option (Player * HandState * bool) :=
  match action with
  | Fold => Some (setHasActed true (fold player), hs, false)
  | Check =>
      if currentBet player <? hs_currentBet hs then None
      else Some (setHasActed true player, hs, false)
  | Call => let '(p', hs') := doCall hs player in Some (p', hs', false)
  | Raise amount =>
      if amount <=? 0 then None
      else
        let minRaise := minRaiseFor (phase hs) in
        let currentBet_ := hs_currentBet hs in
        let raiseCallAmount := currentBet_ - currentBet player in
        let raiseAboveCall := amount - raiseCallAmount in
        if (raiseAboveCall <? minRaise) && (amount <? chips player) then
          if isBot player then let '(p', hs') := doCall hs player in Some (p', hs', false)
          else None
        else
          let totalBet := currentBet player + amount in
          if totalBet <=? hs_currentBet hs then
            if isBot player then let '(p', hs') := doCall hs player in Some (p', hs', false)
            else None
          else if totalBet >? chips player + currentBet player then None
          else
            let '(raiseAmount, player') := bet amount player in
            let hs1 := setStreetBet (currentBet player') hs in
            let hs2 := setPot (pot hs1 + raiseAmount) hs1 in
            Some (setHasActed true player', hs2, true)
  end.

(** [activePlayers.forEach(p => { if (p.id !== player.id) p.hasActed = false })];
    the players other than the raiser are as they were when [activePlayers]
    was filtered. *)
Definition resetOthers (playerId_ : string) (ps : list Player) : list Player :=
  map (fun p => if active p && negb (hasId playerId_ p) then setHasActed false p else p) ps.

Definition handlePlayerAction (gs : GameState) (playerId_ : string) (action : Action)
  : GameState * completion :=
  match handState gs with
  | None => (gs, Returned)
  | Some hs =>
      let found := findIndex (hasId playerId_) (players gs) in
      match atIndex (players gs) found with
      | None => (gs, Returned)
      | Some player =>
          let activePlayers := List.filter active (players gs) in
          match atIndex activePlayers (currentPlayerIndex hs) with
          | None => (gs, Threw)
          | Some currentPlayer =>
              if negb (hasId playerId_ currentPlayer) then (gs, Returned)
              else if hasActed player && negb (isAllIn player) then (gs, Returned)
              else
                match applyAction hs player action with
                | None => (gs, Returned)
                | Some (player', hs', raised) =>
                    let ps1 := <[Z.to_nat found := player']> (players gs) in
                    let ps2 := if raised then resetOthers (id player) ps1 else ps1 in
                    let activeAfterAction := List.filter active ps2 in
                    let currentIndexInFull := findIndex (hasId (id currentPlayer)) ps2 in
                    let nextIndexInFull :=
                      Z.rem (currentIndexInFull + 1) (Z.of_nat (length ps2)) in
                    match skipOut ps2 (length ps2) nextIndexInFull with
                    | Found next =>
                        match atIndex ps2 next with
                        | Some nextPlayer =>
                            let idx := findIndex (hasId (id nextPlayer)) activeAfterAction in
                            let idx' := if idx <? 0 then 0 else idx in
                            (setHandState (setCurrentPlayerIndex idx' hs') (setPlayers ps2 gs),
                             Returned)
                        | None => (setHandState hs' (setPlayers ps2 gs), Threw)
                        end
                    | _ => (setHandState hs' (setPlayers ps2 gs), Threw)
                    end
                end
          end
      end
  end.

(** ** Showdown (index.js, [endHand]) *)

(** [evaluateHand([...player.hand, ...communityCards])] on dealt cards, some
    of which are [undefined] when the deck ran out: with five or more cards
    every card is in some combination, and [sorted.map(c => c.rank)] reads
    [.rank] of every card of a combination, a [TypeError] (outer [None]) when
    one is [undefined]. *)
Definition evaluateDealt (sevenCards : list (option Card)) : option (option Evaluation) :=
  if (length sevenCards <? 5)%nat then Some (Some (mkEval Invalid 0 []))
  else cs ← mapM (fun c => c) sevenCards; Some (evaluateHand cs).

(** An element [{ player, evaluation }] of [evaluations]; the player object
    is kept as its position in [gameState.players]. *)
Record Entry := mkEntry { seat : nat; seatId : string; seatName : string;
                          evaluation : option Evaluation }.

(** [{ player, evaluation: evaluateHand([...player.hand, ...communityCards]) }];
    collecting bets does not touch [id], [name] or [hand], so they are read
    from the reference as it was filtered. *)
Definition evaluateSeat (community : list (option Card)) (ref : nat * Player)
  : option Entry :=
  ev ← evaluateDealt (hand (snd ref) ++ community);
  Some (mkEntry (fst ref) (id (snd ref)) (name (snd ref)) ev).

(** [Math.max(...xs)] on a non-empty argument list. *)
Definition Math_max (x : Z) (xs : list Z) : Z := fold_left Z.max xs x.

Definition addChips (v : Z) (p : Player) : Player := setChips (chips p + v) p.

(** [winners.forEach(winner => { winner.player.chips += share; ...push })] *)
Definition payWinner (share_ : Z) (potIndex_ : nat)
    (st : list Player * list Winner) (winner : Entry) : list Player * list Winner :=
  (alter (addChips share_) (seat winner) (fst st),
   snd st ++ [mkWinner (seatId winner) (seatName winner) (evaluation winner) share_
                (Some potIndex_)]).

Definition entryScore (e : Entry) : option Z := score <$> evaluation e.

(** One turn of [potManager.pots.forEach((pot, potIndex) => ...)]; a turn
    after an exception does nothing. *)
Definition settlePot (evaluations : list Entry)
    (st : list Player * list Winner * completion) (indexed : nat * Pot)
  : list Player * list Winner * completion :=
  let '(ps, ws, c) := st in
  let '(potIndex_, pot_) := indexed in
  if negb (bool_decide (c = Returned)) then st
  else if amount pot_ =? 0 then st
  else
    let eligibleEvaluations :=
      List.filter (fun e => bool_decide (seatId e ∈ contributors pot_)) evaluations in
    match mapM entryScore eligibleEvaluations with
    | None => (ps, ws, Threw)
    | Some [] => st
    | Some (s0 :: scores) =>
        let bestScore := Math_max s0 scores in
        let winners_ :=
          List.filter (fun e => bool_decide (entryScore e = Some bestScore))
            eligibleEvaluations in
        let share_ := amount pot_ / Z.of_nat (length winners_) in
        let '(ps', ws') := fold_left (payWinner share_ potIndex_) winners_ (ps, ws) in
        (ps', ws', Returned)
    end.

Definition indexed {A : Type} (l : list A) : list (nat * A) := combine (seq 0 (length l)) l.

#[global] Arguments indexed : simpl never.
#[global] Arguments settlePot : simpl never.

(** [potManager.collectBets(gameState.players)] on the room. *)
Definition collectRound (gs : GameState) (hs : HandState) : option (GameState * HandState) :=
  '(ps1, pots1) ← collectBets (players gs) (potManager hs);
  let hs1 := setPotManager pots1 hs in
  Some (setHandState hs1 (setPlayers ps1 gs), hs1).

(** The settlement of [endHand], after its bet collection: the players, the
    winners list and how the settlement ended.  [activePlayers] are the
    references filtered on entry, [oldWinners] the list the hand state holds
    until [winners = []] is reached. *)
Definition settle (community : list (option Card)) (activePlayers : list (nat * Player))
    (ps1 : list Player) (pots1 : list Pot) (oldWinners : list Winner)
  : list Player * list Winner * completion :=
  match activePlayers with
  | [(only, winner)] =>
      let totalWinnings := fold_left (fun t pot_ => t + amount pot_) pots1 0 in
      (alter (addChips totalWinnings) only ps1,
       [mkWinner (id winner) (name winner) None totalWinnings None], Returned)
  | _ =>
      match mapM (evaluateSeat community) activePlayers with
      | None => (ps1, oldWinners, Threw)
      | Some evaluations =>
          fold_left (settlePot evaluations) (indexed pots1) (ps1, [], Returned)
      end
  end.

Definition endHand (gs : GameState) : GameState * completion :=
  match handState gs with
  | None => (gs, Returned)
  | Some hs =>
      let activePlayers := located (fun p => negb (hasFolded p)) (players gs) in
      match collectRound gs hs with
      | None => (gs, Diverged)
      | Some (gs1, hs1) =>
          let '(ps2, ws, c) :=
            settle (communityCards hs1) activePlayers (players gs1) (potManager hs1)
              (winners hs1) in
          let hs2 := setWinners ws hs1 in
          match c with
          | Returned => (setHandState (setPhase showdown hs2) (setPlayers ps2 gs1), Returned)
          | _ => (setHandState hs2 (setPlayers ps2 gs1), c)
          end
      end
  end.

(** ** Street transitions (index.js, [processBettingRound]) *)

(** The community cards, the deck and the phase after the [if] chain on
    [handState.phase]; [None] for the river, which ends the hand. *)
Definition advancePhase (hs : HandState) (deckCards : list Card)
  : option (list (option Card) * list Card * Phase) :=
  match phase hs with
  | preflop => let '(cs, d) := dealCards 3 deckCards in Some (cs, d, flop)
  | flop => let '(c, d) := deal deckCards in Some (communityCards hs ++ [c], d, turn)
  | turn => let '(c, d) := deal deckCards in Some (communityCards hs ++ [c], d, river)
  | river => None
  | showdown => Some (communityCards hs, deckCards, showdown)
  end.

Definition roundComplete (hs : HandState) (activePlayers : list Player) : bool :=
  let allActed := forallb (fun p => hasActed p || isAllIn p) activePlayers in
  let allBetsEqual :=
    forallb (fun p => (currentBet p =? hs_currentBet hs) || isAllIn p) activePlayers in
  allActed && allBetsEqual.

(** The part of [processBettingRound] that follows the bet collection when
    the hand goes on: dealing, the reset of the active players and the choice
    of the first seat to act.  Collecting bets changes neither [hasFolded]
    nor [chips], so the players that were active on entry are those that are
    active now. *)
Definition nextStreet (gs : GameState) (hs : HandState)
    (cards_ : list (option Card)) (deck_ : list Card) (phase_ : Phase)
  : GameState * completion :=
  let activeIds := map id (List.filter active (players gs)) in
  let ps2 := map (fun p => if active p then resetForNewBettingRound p else p) (players gs) in
  let hs2 := setStreetBet 0 (setPhase phase_ (setCommunityCards cards_ hs)) in
  let gs2 := setHandState hs2 (setPlayers ps2 (setDeck deck_ gs)) in
  match atIndex activeIds (dealerIndex hs) with
  | None => (gs2, Threw)
  | Some dealerId =>
      let dealerIndexInAll := findIndex (hasId dealerId) ps2 in
      let nextIndex := Z.rem (dealerIndexInAll + 1) (Z.of_nat (length ps2)) in
      match seekIn ps2 (length ps2) nextIndex with
      | Found next =>
          match atIndex ps2 next with
          | Some nextPlayer =>
              let idx := findIndexFrom (fun i => bool_decide (i = id nextPlayer)) 0 activeIds in
              (setHandState (setCurrentPlayerIndex idx hs2) gs2, Returned)
          | None => (gs2, Threw)
          end
      | Undefined => (gs2, Threw)
      | OutOfFuel => (gs2, Diverged)
      end
  end.

Definition processBettingRound (gs : GameState) : GameState * completion :=
  match handState gs with
  | None => (gs, Returned)
  | Some hs =>
      let activePlayers := List.filter active (players gs) in
      if (length activePlayers <=? 1)%nat then endHand gs
      else if roundComplete hs activePlayers then
        match collectRound gs hs with
        | None => (gs, Diverged)
        | Some (gs1, hs1) =>
            match advancePhase hs1 (deck gs1) with
            | None => endHand gs1
            | Some (cards_, deck_, phase_) => nextStreet gs1 hs1 cards_ deck_ phase_
            end
        end
      else (gs, Returned)
  end.

(** ** Starting a hand (index.js, [startHand]) *)

(** [players.forEach(player => { player.hand = deck.dealCards(2) })] *)
Fixpoint dealHands (ps : list Player) (deckCards : list Card) : list Player * list Card :=
  match ps with
  | [] => ([], deckCards)
  | p :: rest =>
      let '(cs, d1) := dealCards 2 deckCards in
      let '(rest', d2) := dealHands rest d1 in
      (setHand cs p :: rest', d2)
  end.

(** [startHand] with [shuffled] the freshly shuffled deck. *)
Definition startHand (gs : GameState) (shuffled : list Card) : GameState * completion :=
  if (length (players gs) <? 2)%nat then (gs, Returned)
  else
    let ps1 := map resetForNewHand (players gs) in
    let '(ps2, deck_) := dealHands ps1 shuffled in
    let gs2 := setDeck deck_ (setPlayers ps2 gs) in
    let activePlayers := located (fun p => 0 <? chips p) ps2 in
    if (length activePlayers <? 2)%nat then (gs2, Returned)
    else
      let n := Z.of_nat (length activePlayers) in
      let dealer := Z.rem (gs_dealerIndex gs + 1) n in
      let sb := Z.rem (dealer + 1) n in
      let bb := Z.rem (sb + 1) n in
      let gs3 := setDealerIndex dealer gs2 in
      (* [new HandState()] with the three positions assigned *)
      let hs0 := mkHandState preflop [] 0 0 dealer sb bb 0 false [] newPots in
      match atIndex activePlayers sb, atIndex activePlayers bb with
      | Some (sbSeat, sbPlayer), Some (bbSeat, bbPlayer) =>
          let smallBlind := Z.min 10 (chips sbPlayer) in
          let bigBlind := Z.min 20 (chips bbPlayer) in
          let ps3 := alter (fun p => snd (bet smallBlind p)) sbSeat ps2 in
          let ps4 := alter (fun p => snd (bet bigBlind p)) bbSeat ps3 in
          let hs :=
            mkHandState preflop [] (smallBlind + bigBlind) bigBlind dealer sb bb
              (Z.rem (bb + 1) n) true [] newPots in
          (setHandState hs (setPlayers ps4 gs3), Returned)
      | _, _ => (setHandState hs0 gs3, Threw)
      end.

(** ** The conserved quantity *)

Definition potsOf (gs : GameState) : list Pot :=
  match handState gs with
  | Some hs => potManager hs
  | None => []
  end.

(** [sum(player.chips) + sum(player.currentBet) + sum(pot.amount)] *)
Definition totalChips (gs : GameState) : Z :=
  chipsTotal (players gs) + betsTotal (players gs) + potsAmount (potsOf gs).

(** ** Submissions the rules reject *)

(** The acting seat exists and is not the submitting player. *)
Definition outOfTurn (gs : GameState) (hs : HandState) (playerId_ : string) : Prop :=
  exists currentPlayer,
    atIndex (List.filter active (players gs)) (currentPlayerIndex hs) = Some currentPlayer
    /\ id currentPlayer <> playerId_.

(** A check below the street's bet; a raise that is not positive, does not
    exceed the street's bet, exceeds the player's chips, or is under the
    minimum without committing the whole stack. *)
Definition illegalFor (hs : HandState) (player : Player) (action : Action) : Prop :=
  match action with
  | Check => currentBet player < hs_currentBet hs
  | Raise amount =>
      amount <= 0
      \/ currentBet player + amount <= hs_currentBet hs
      \/ chips player < amount
      \/ (amount - (hs_currentBet hs - currentBet player) < minRaiseFor (phase hs)
          /\ amount < chips player)
  | Fold | Call => False
  end.

(** ** Engine steps *)

Definition stake (p : Player) : Z := chips p + currentBet p.

Definition wellFormed (gs : GameState) : Prop :=
  Forall (fun p => 0 <= chips p /\ 0 <= currentBet p) (players gs)
  /\ forall hs, handState gs = Some hs -> 0 <= hs_currentBet hs.

(** Whether [processBettingRound] hands over to [endHand]. *)
Definition settles (gs : GameState) : bool :=
  match handState gs with
  | None => false
  | Some hs =>
      let activePlayers := List.filter active (players gs) in
      (length activePlayers <=? 1)%nat
      || (roundComplete hs activePlayers && bool_decide (phase hs = river))
  end.

(** The steps of a hand before its settlement: a submitted action, a run of
    [processBettingRound] that does not settle (a street transition with its
    bet collection, or nothing when the street is still open), and the bet
    collection with which the last street and [endHand] begin. *)
Inductive engineStep : GameState -> GameState -> Prop :=
| step_action gs playerId_ action :
    engineStep gs (fst (handlePlayerAction gs playerId_ action))
| step_round gs :
    settles gs = false -> engineStep gs (fst (processBettingRound gs))
| step_collect gs hs gs1 hs1 :
    handState gs = Some hs -> collectRound gs hs = Some (gs1, hs1) ->
    engineStep gs gs1.

Inductive reachable (start : GameState) : GameState -> Prop :=
| reach_start : reachable start start
| reach_step gs gs' : reachable start gs -> engineStep gs gs' -> reachable start gs'.

(** The two guards of [startHand] pass: at least two seats, at least two of
    them with chips. *)
Definition handStarts (gs : GameState) : Prop :=
  Nat.ltb (length (players gs)) 2 = false
  /\ Nat.ltb (length (located (fun p => 0 <? chips p) (players gs))) 2 = false.

(** A two-seat room for examples, and its first hand on the unshuffled
    deck (the states of the sample hand are kept evaluated). *)
Definition lobby : GameState :=
  mkGameState [newPlayer "A" "Alice" 1000; newPlayer "B" "Bob" 1000] true None [] 0.

Definition firstHand : GameState := Eval vm_compute in fst (startHand lobby initialize).

(** The sample hand, played on: Alice calls the big blind, Bob checks, the
    flop is dealt; both check each street down to the river. *)
Definition afterCall : GameState :=
  Eval vm_compute in fst (handlePlayerAction firstHand "A" Call).
Definition afterCheck : GameState :=
  Eval vm_compute in fst (handlePlayerAction afterCall "B" Check).
Definition onFlop : GameState := Eval vm_compute in fst (processBettingRound afterCheck).

Definition checkAround (gs : GameState) : GameState :=
  fst (handlePlayerAction (fst (handlePlayerAction gs "A" Check)) "B" Check).

Definition flopChecked : GameState := Eval vm_compute in checkAround onFlop.
Definition onTurn : GameState := Eval vm_compute in fst (processBettingRound flopChecked).
Definition turnChecked : GameState := Eval vm_compute in checkAround onTurn.
Definition onRiver : GameState := Eval vm_compute in fst (processBettingRound turnChecked).
Definition riverChecked : GameState := Eval vm_compute in checkAround onRiver.

(** ** Settlement as a list of payouts *)

(** [(seat, share)] pairs paid in order, each by [player.chips += share]. *)
Definition applyPayouts (payouts : list (nat * Z)) (ps : list Player) : list Player :=
  fold_left (fun ps0 (kv : nat * Z) => alter (addChips (snd kv)) (fst kv) ps0) payouts ps.

(** What the payouts bring to one seat. *)
Definition gain (payouts : list (nat * Z)) (i : nat) : Z :=
  sumZ (map snd (List.filter (fun kv : nat * Z => (fst kv =? i)%nat) payouts)).

(** Players that differ at most in their chips and current bet. *)
Definition sameCards (p p' : Player) : Prop :=
  id p = id p' /\ name p = name p' /\ hand p = hand p' /\ hasFolded p = hasFolded p'.

Definition sameRef (r r' : nat * Player) : Prop :=
  fst r = fst r' /\ sameCards (snd r) (snd r').

Definition tracked (st : option Evaluation * Z) : Prop :=
  match fst st with
  | None => snd st = 0
  | Some e => score e = snd st /\ 0 < snd st
  end.

Definition seated (p : Player) : Prop := 0 <= chips p /\ 0 <= currentBet p.

(** The pot that is current when [collectBets] is entered, and the amount
    held at a pot index. *)
Definition entryPot (pots : list Pot) : nat := (length pots - 1)%nat.

Definition amountAt (pots : list Pot) (k : nat) : Z :=
  match pots !! k with Some pot => amount pot | None => 0 end.

Definition pairOfTwos : list Card :=
  [card R2 S_; card R2 H_; card R3 D_; card R4 C_; card R5 S_].

Definition sevenHigh : list Card :=
  [card R7 S_; card R5 H_; card R4 D_; card R3 C_; card R2 S_].

Definition royalWithLowCards : list Card := royal ++ [card R2 H_; card R3 D_].

(** Sorting keys: the comparator [(a, b) => key(b) - key(a)] and the order
    it sorts into. *)
Definition descBy {A : Type} (key : A -> Z) (a b : A) : Z := key b - key a.

Definition geZ (a b : Z) : Prop := b <= a.

(** ** Enumeration of the rank patterns of five cards

    [evaluateFiveCards] reads five cards through their ranks in descending
    order and the flush test; [patternHand] is a hand with given ranks that
    is a flush or not as asked, and [allPatternsScore] runs the evaluator on
    every descending rank pattern. *)
Definition allRanks : list Rank := [RA; R2; R3; R4; R5; R6; R7; R8; R9; R10; RJ; RQ; RK].

Definition patternHand (flush : bool) (r1 r2 r3 r4 r5 : Rank) : list Card :=
  [mkCard r1 (if flush then S_ else H_); mkCard r2 S_; mkCard r3 S_; mkCard r4 S_;
   mkCard r5 S_].

Definition scoresPositive (cs : list Card) : bool :=
  match evaluateFiveCards cs with
  | Some e => 0 <? score e
  | None => false
  end.

Definition below (r r' : Rank) : bool := rankOrder r' <=? rankOrder r.

Definition allPatternsScore : bool :=
  forallb (fun flush =>
    forallb (fun r1 =>
      forallb (fun r2 => negb (below r1 r2) ||
        forallb (fun r3 => negb (below r2 r3) ||
          forallb (fun r4 => negb (below r3 r4) ||
            forallb (fun r5 => negb (below r4 r5) ||
              scoresPositive (patternHand flush r1 r2 r3 r4 r5))
            allRanks) allRanks) allRanks) allRanks) allRanks) [true; false].

(** ** Shuffling (game.js, [Deck.shuffle]) *)

(** [[cards[i], cards[j]] = [cards[j], cards[i]]] for positions inside the
    array. *)
Definition swapAt {A : Type} (i j : nat) (l : list A) : list A :=
  match l !! i, l !! j with
  | Some x, Some y => <[j := x]> (<[i := y]> l)
  | _, _ => l
  end.

(** [Deck.shuffle()]: [draw i] is the value of
    [Math.floor(Math.random() * (i + 1))] in the turn for [i], a position
    from 0 to [i]. *)
Fixpoint shuffleFrom (draw : nat -> nat) (i : nat) (deckCards : list Card) : list Card :=
  match i with
  | O => deckCards
  | S i' => shuffleFrom draw i' (swapAt i (draw i) deckCards)
  end.

Definition shuffle (draw : nat -> nat) (deckCards : list Card) : list Card :=
  shuffleFrom draw (length deckCards - 1) deckCards.

(** [new Deck()] followed by [shuffle()]. *)
Definition freshDeck (draw : nat -> nat) : list Card := shuffle draw initialize.

(** The number of [k]-element subsets of [n] elements. *)
Fixpoint choose (n k : nat) : nat :=
  match n, k with
  | _, O => 1
  | O, S _ => 0
  | S n', S k' => choose n' k' + choose n' k
  end.

(** ** Category and score of an evaluation *)

Definition verdict (e : Evaluation) : HandRank * Z := (hand_rank e, score e).

(** The constant each branch of [evaluateFiveCards] adds to its score. *)
Definition categoryBase (r : HandRank) : Z :=
  match r with
  | RoyalFlush => 9000000
  | StraightFlush => 8000000
  | FourOfAKind => 7000000
  | FullHouse => 6000000
  | Flush => 5000000
  | Straight => 4000000
  | ThreeOfAKind => 3000000
  | TwoPair => 2000000
  | OnePair => 1000000
  | HighCard => 0
  | Invalid => 0
  end.

(** The categories scored with [Math.pow(100, 4 - i)] weights. *)
Definition positionalRank (r : HandRank) : bool :=
  match r with
  | Flush | HighCard => true
  | _ => false
  end.

(** [patternsAll P] runs the evaluator on every descending rank pattern,
    flush or not, and tests [P] on the flush flag, the ranks and the
    category and score returned. *)
Definition patternsAll (P : bool -> list Rank -> option (HandRank * Z) -> bool) : bool :=
  forallb (fun flush =>
    forallb (fun r1 =>
      forallb (fun r2 => if below r1 r2 then
        forallb (fun r3 => if below r2 r3 then
          forallb (fun r4 => if below r3 r4 then
            forallb (fun r5 => if below r4 r5 then
              P flush [r1; r2; r3; r4; r5]
                (verdict <$> evaluateFiveCards (patternHand flush r1 r2 r3 r4 r5))
              else true) allRanks
            else true) allRanks
          else true) allRanks
        else true) allRanks) allRanks) [true; false].

Definition inBand (flush : bool) (ranks : list Rank) (v : option (HandRank * Z)) : bool :=
  match v with
  | Some (r, s) =>
      negb (bool_decide (r = Invalid))
      && (if positionalRank r then categoryBase r + 202020202 <=? s
          else (categoryBase r <? s) && (s <? categoryBase r + 1000000))
  | None => false
  end.


(** The rank values of the cards, in the order given. *)
Definition rankValues (cs : list Card) : list Z := map (fun c => rankOrder (rank c)) cs.

(** Five consecutive values from [h] downwards. *)
Definition runFrom (h : Z) : list Z := [h; h - 1; h - 2; h - 3; h - 4].

(** The top of the straight that descending values form, if any; the wheel
    A-5-4-3-2 counts as five-high. *)
Definition straightHighOf (vals : list Z) : option Z :=
  if bool_decide (vals = [14; 5; 4; 3; 2]) then Some 5
  else match vals with
       | h :: _ => if bool_decide (vals = runFrom h) then Some h else None
       | [] => None
       end.

Definition straightVerdict (flush : bool) (h : Z) : HandRank * Z :=
  if flush then
    if h =? 14 then (RoyalFlush, 9000000 + h) else (StraightFlush, 8000000 + h)
  else (Straight, 4000000 + h).

Definition isStraightRank (r : HandRank) : bool :=
  match r with
  | Straight | StraightFlush | RoyalFlush => true
  | _ => false
  end.

Definition straightsRecognised (flush : bool) (ranks : list Rank)
    (v : option (HandRank * Z)) : bool :=
  match v with
  | Some (r, s) =>
      match straightHighOf (map rankOrder ranks) with
      | Some h => bool_decide ((r, s) = straightVerdict flush h)
      | None => negb (isStraightRank r)
      end
  | None => false
  end.

(** ** Tie-break keys

    The values of a hand ordered by how often they occur, then by value:
    the order in which poker compares two hands of one category.  In the
    wheel the ace plays low. *)
Definition multiplicity (vals : list Z) (v : Z) : Z :=
  Z.of_nat (length (List.filter (Z.eqb v) vals)).

Definition tieKey (vals : list Z) : list Z :=
  if bool_decide (vals = [14; 5; 4; 3; 2]) then [5; 4; 3; 2; 1]
  else js_sort (descBy (multiplicity vals)) vals.

Fixpoint lexLt (a b : list Z) : bool :=
  match a, b with
  | x :: a', y :: b' => (x <? y) || ((x =? y) && lexLt a' b')
  | [], _ :: _ => true
  | _, [] => false
  end.

(** The weights with which each branch of [evaluateFiveCards] adds the
    values of the key to its base. *)
Definition tieWeights (r : HandRank) : list Z :=
  match r with
  | HighCard | Flush => [100000000; 1000000; 10000; 100; 1]
  | OnePair => [10000; 0; 100; 10; 1]
  | TwoPair => [10000; 0; 100; 0; 1]
  | ThreeOfAKind => [10000; 0; 0; 100; 1]
  | Straight | StraightFlush | RoyalFlush => [1; 0; 0; 0; 0]
  | FullHouse => [100; 0; 0; 1; 0]
  | FourOfAKind => [100; 0; 0; 0; 1]
  | Invalid => []
  end.

Fixpoint dot (ws vs : list Z) : Z :=
  match ws, vs with
  | w :: ws', v :: vs' => w * v + dot ws' vs'
  | _, _ => 0
  end.

Definition inRange (lo hi v : Z) : bool := (lo <=? v) && (v <=? hi).

Definition keyShape (r : HandRank) (key : list Z) : bool :=
  match key with
  | [a; b; c; d; e] =>
      match r with
      | HighCard | Flush => forallb (inRange 2 14) key
      | OnePair => forallb (inRange 2 14) key && (a =? b) && (d <? c) && (e <? d)
      | TwoPair => forallb (inRange 2 14) key && (a =? b) && (c =? d)
      | ThreeOfAKind => forallb (inRange 2 14) key && (a =? b) && (b =? c)
      | Straight | StraightFlush | RoyalFlush =>
          inRange 5 14 a && bool_decide (key = runFrom a)
      | FullHouse => forallb (inRange 2 14) key && (a =? b) && (b =? c) && (d =? e)
      | FourOfAKind => forallb (inRange 2 14) key && (a =? b) && (b =? c) && (c =? d)
      | Invalid => false
      end
  | _ => false
  end.

(** Five cards of one suit with a rank repeated hold a card twice; no hand
    dealt from a deck does. *)
Definition tieFacts (flush : bool) (ranks : list Rank) (v : option (HandRank * Z)) : bool :=
  (flush && negb (bool_decide (NoDup ranks)))
  || match v with
     | Some (r, s) =>
         let key := tieKey (map rankOrder ranks) in
         (s =? categoryBase r + dot (tieWeights r) key) && keyShape r key
     | None => false
     end.

(** No player who is all-in has a smaller bet than another player: nobody's
    bet is capped below the others'. *)
Definition noShortAllIn (players : list Player) : Prop :=
  forall p q, In p players -> In q players ->
    hasBet p = true -> isAllIn p = true -> currentBet q <= currentBet p.

(** [p.isAllIn && p.currentBet === 0] *)
Definition capped (p : Player) : bool := isAllIn p && (currentBet p =? 0).

(** The sample hand when Alice folds her small blind at once. *)
Definition afterFold : GameState :=
  Eval vm_compute in fst (handlePlayerAction firstHand "A" Fold).

(** A three-seat room whose next dealer is the third seat, and its first
    hand: Carol, first to act and on the dealer button, folds; Alice calls
    and Bob checks. *)
Definition lobbyOfThree : GameState :=
  mkGameState [newPlayer "A" "Alice" 1000; newPlayer "B" "Bob" 1000;
               newPlayer "C" "Carol" 1000] true None [] 1.

Definition dealerFolded : GameState :=
  Eval vm_compute in
    fst (handlePlayerAction
           (fst (handlePlayerAction
                   (fst (handlePlayerAction (fst (startHand lobbyOfThree initialize))
                           "C" Fold))
                   "A" Call))
           "B" Check).

(** ** The displayed pot *)

(** [handState.pot], the total sent to the clients, against the chips in
    play: the bets not yet collected and the pots. *)
Definition potConsistent (gs : GameState) : Prop :=
  forall hs, handState gs = Some hs ->
    pot hs = betsTotal (players gs) + potsAmount (potManager hs).

(** ** Going round the table *)

(** The seat [t] places after the one that follows seat [d], at a table of
    [n] seats. *)
Definition seatAfter (n : nat) (d : Z) (t : nat) : Z :=
  (d + 1 + Z.of_nat t) mod Z.of_nat n.

(** [next] is the first seat after [d], going round the table, whose player
    has not folded and has chips. *)
Definition firstInHandAfter (ps : list Player) (d : Z) (next : Z) : Prop :=
  exists t : nat,
    (t < length ps)%nat
    /\ next = seatAfter (length ps) d t
    /\ (exists p, atIndex ps next = Some p /\ outOfHand p = false)
    /\ forall t' : nat, (t' < t)%nat ->
         exists p, atIndex ps (seatAfter (length ps) d t') = Some p /\ outOfHand p = true.

(** [HandState.nextPhase()] (game.js): the hand state afterwards and the
    value returned.  The [roundBets] map it clears is read nowhere. *)
Definition nextPhase (hs : HandState) : HandState * bool :=
  match phase hs with
  | preflop => (setStreetBet 0 (setPhase flop hs), true)
  | flop => (setStreetBet 0 (setPhase turn hs), true)
  | turn => (setStreetBet 0 (setPhase river hs), true)
  | river => (setStreetBet 0 (setPhase showdown hs), true)
  | showdown => (hs, false)
  end.

(** [HandState.getPhaseCardCount()] (game.js): [phaseCards[this.phase] || 0]. *)
Definition getPhaseCardCount (hs : HandState) : nat :=
  match phase hs with
  | preflop => 0
  | flop => 3
  | turn => 4
  | river => 5
  | showdown => 0
  end.

(** The players after an accepted action of the player at [seat]: the actor
    replaced, and after a raise the other active players' [hasActed]
    reset. *)
Definition afterAction (ps : list Player) (seat : Z) (actor : Player) (raised : bool)
  : list Player :=
  let ps1 := <[Z.to_nat seat := actor]> ps in
  if raised then resetOthers (id actor) ps1 else ps1.

(** Payouts that take chips from nobody, go to the seats [seats] only and
    add up to [bound] at most. *)
Definition payable (seats : list nat) (bound : Z) (payouts : list (nat * Z)) : Prop :=
  Forall (fun kv : nat * Z => 0 <= snd kv /\ fst kv ∈ seats) payouts
  /\ sumZ (map snd payouts) <= bound.

(** ** Leaving the table (index.js, the [disconnect] handler)

    The room after the socket [socketId] disconnects; [None] when the room
    is deleted because its last player left.  The leaving player is folded
    and then spliced out of [players], so the fold leaves no trace in the
    room. *)
Definition disconnect (gs : GameState) (socketId : string) : option GameState :=
  let playerIndex := findIndex (hasId socketId) (players gs) in
  match atIndex (players gs) playerIndex with
  | None => Some gs
  | Some _ =>
      let ps := delete (Z.to_nat playerIndex) (players gs) in
      if (length ps =? 0)%nat then None else Some (setPlayers ps gs)
  end.

(** The sample hand when Alice raises to 60 and Bob, who is to act, leaves
    a table of three. *)
Definition raisedPot : GameState :=
  Eval vm_compute in
    fst (handlePlayerAction
           (fst (handlePlayerAction (fst (startHand lobbyOfThree initialize)) "C" Call))
           "A" (Raise 50)).

(** The first hand of the table of three, where Carol is first to act. *)
Definition threeHanded : GameState :=
  Eval vm_compute in fst (startHand lobbyOfThree initialize).

(** ** Settling with fewer than five cards *)

(** What [evaluateHand] returns on fewer than five cards. *)
Definition invalidHand : Evaluation := mkEval Invalid 0 [].

(** Each pot that holds chips divided evenly among the seats of [refs]
    whose players contributed to it, whatever their cards. *)
Definition equalShares (refs : list (nat * Player)) (pots : list Pot) : list (nat * Z) :=
  flat_map (fun pot_ =>
              let eligible :=
                List.filter (fun r : nat * Player =>
                               bool_decide (id (snd r) ∈ contributors pot_)) refs in
              if amount pot_ =? 0 then []
              else map (fun r : nat * Player =>
                          (fst r, amount pot_ / Z.of_nat (length eligible))) eligible)
           pots.

Definition invalidEntry (r : nat * Player) : Entry :=
  mkEntry (fst r) (id (snd r)) (name (snd r)) (Some invalidHand).

(** The sample hand when Alice moves all-in before the flop and Bob
    calls. *)
Definition allInPreflop : GameState :=
  Eval vm_compute in
    fst (handlePlayerAction (fst (handlePlayerAction firstHand "A" (Raise 990))) "B" Call).

(** ** The turn timer (index.js, [startTurnTimer])

    The action the timer submits for the player whose time ran out:
    [canCheck ? { type: 'check' } : { type: 'fold' }]. *)
Definition forcedAction (hs : HandState) (currentPlayer : Player) : Action :=
  if hs_currentBet hs <=? currentBet currentPlayer then Check else Fold.

(** The player after the forced action. *)
Definition timedOut (hs : HandState) (currentPlayer : Player) : Player :=
  setHasActed true
    (if hs_currentBet hs <=? currentBet currentPlayer then currentPlayer
     else fold currentPlayer).

(** ** Seats of a room (index.js, bot.js)

    [createRoom]: the room opened by [socketId]; no room is made for an
    empty name. *)
Definition createRoom (socketId playerName : string) : option GameState :=
  if bool_decide (playerName = "") then None
  else Some (mkGameState [newPlayer socketId playerName 1000] false None [] 0).

(** [joinRoom] on an existing room. *)
Definition joinRoom (gs : GameState) (socketId playerName : string) : GameState :=
  if bool_decide (playerName = "") then gs
  else if (7 <=? length (players gs))%nat then gs
  else if existsb (hasId socketId) (players gs) then gs
  else setPlayers (players gs ++ [newPlayer socketId playerName 1000]) gs.

(** [new Bot(botId)]; [botName] is the name drawn at random. *)
Definition newBot (botId botName : string) : Player :=
  mkPlayer botId botName 1000 [] 0 false false false true.

(** [addBotToRoom], with the id [generateBotId()] returned. *)
Definition addBotToRoom (gs : GameState) (botId botName : string) : GameState * bool :=
  if (7 <=? length (players gs))%nat then (gs, false)
  else (setPlayers (players gs ++ [newBot botId botName]) gs, true).

(** [removeBotFromRoom]; the bot is folded and then spliced out. *)
Definition removeBotFromRoom (gs : GameState) (botId : string) : GameState * bool :=
  let botIndex := findIndex (fun p => hasId botId p && isBot p) (players gs) in
  match atIndex (players gs) botIndex with
  | None => (gs, false)
  | Some _ => (setPlayers (delete (Z.to_nat botIndex) (players gs)) gs, true)
  end.

(** A change of the seats of a room: a join, a bot added (by the [addBot]
    request or by [startGame] filling the table) under an id no player of
    the room has, a bot removed, a player leaving. *)
Inductive seatChange : GameState -> GameState -> Prop :=
| change_join gs socketId playerName :
    seatChange gs (joinRoom gs socketId playerName)
| change_addBot gs botId botName :
    botId ∉ map id (players gs) ->
    seatChange gs (fst (addBotToRoom gs botId botName))
| change_removeBot gs botId :
    seatChange gs (fst (removeBotFromRoom gs botId))
| change_leave gs socketId gs' :
    disconnect gs socketId = Some gs' -> seatChange gs gs'.

(** ** The category of five cards, as poker defines it

    From the rank values in descending order and whether the cards share a
    suit: how often values occur, and whether they form a run. *)
Definition occurs (vals : list Z) (k : Z) : bool :=
  existsb (fun v => multiplicity vals v =? k) vals.

(** The number of values that occur exactly twice. *)
Definition pairsIn (vals : list Z) : Z :=
  Z.of_nat (length (List.filter (fun v => multiplicity vals v =? 2) vals)) / 2.

Definition category (flush : bool) (vals : list Z) : HandRank :=
  match straightHighOf vals with
  | Some h =>
      if flush then (if h =? 14 then RoyalFlush else StraightFlush) else Straight
  | None =>
      if occurs vals 4 then FourOfAKind
      else if occurs vals 3 && occurs vals 2 then FullHouse
      else if flush then Flush
      else if occurs vals 3 then ThreeOfAKind
      else if pairsIn vals =? 2 then TwoPair
      else if pairsIn vals =? 1 then OnePair
      else HighCard
  end.

Definition categorised (flush : bool) (ranks : list Rank) (v : option (HandRank * Z)) : bool :=
  match v with
  | Some (r, _) => bool_decide (r = category flush (map rankOrder ranks))
  | None => false
  end.

(** ** JavaScript numbers

    Chips, bets and pot amounts are JavaScript numbers, that is IEEE 754
    binary64 doubles.  The engine is embedded over [Z]: an integer of
    magnitude below [2^53] is held exactly by a double, and a sum or a
    difference of two such integers is exact when it is such an integer
    again, so that on these values the integer arithmetic of the embedding is
    the arithmetic of the program.  Values outside this range and amounts that
    are no integers are not covered by the integer model; for [Player.bet]
    the method is also given in double arithmetic ([bet_double]), with the
    primitive binary64 floats, and compared with the integer one. *)

(** The integers [Number.isSafeInteger] accepts. *)
Definition safeInteger (z : Z) : Prop := - 2 ^ 53 < z < 2 ^ 53.

(** The double nearest to the integer [z]; it is [z] itself when [z] is a
    safe integer. *)
Definition Z2SF (z : Z) : spec_float := binary_normalize prec emax z 0 false.
Definition Z2double (z : Z) : float := SF2Prim (Z2SF z).

(** The value of a finite double, as a multiple of [2^-1074] (every finite
    double is one); [None] for infinities and [NaN]. *)
Definition exactValue (x : float) : option Z :=
  match Prim2SF x with
  | S754_zero _ => Some 0
  | S754_finite s m e => Some (cond_Zopp s (Zpos m * 2 ^ (e + 1074)))
  | _ => None
  end.

(** The double [x] holds the integer [z] exactly. *)
Definition holdsInteger (x : float) (z : Z) : Prop :=
  exactValue x = Some (z * 2 ^ 1074).

(** [z] is exactly the sum of [x] and [y]. *)
Definition exactSum (x y z : float) : bool :=
  match exactValue x, exactValue y, exactValue z with
  | Some a, Some b, Some c => c =? a + b
  | _, _, _ => false
  end.

(** [Math.min(a, b)] on doubles: [NaN] if either is, and [-0] below [+0]. *)
Definition Math_min_double (a b : float) : float :=
  match PrimFloat.compare a b with
  | FLt => a
  | FGt => b
  | FEq => if get_sign a then a else b
  | FNotComparable => nan
  end.

(** The fields of a [Player] that [bet] reads and writes, as doubles. *)
Record PlayerD := mkPlayerD { chipsD : float; currentBetD : float; isAllInD : bool }.

(** [Player.bet(amount)] in double arithmetic: [-=] and [+=] round to the
    nearest double, [===] is the equality of doubles. *)
Definition bet_double (amount : float) (p : PlayerD) : float * PlayerD :=
  let betAmount := Math_min_double amount (chipsD p) in
  let chips1 := PrimFloat.sub (chipsD p) betAmount in
  let currentBet1 := PrimFloat.add (currentBetD p) betAmount in
  let isAllIn1 := if PrimFloat.eqb chips1 zero then true else isAllInD p in
  (betAmount, mkPlayerD chips1 currentBet1 isAllIn1).

(** A player of the integer model, read as doubles. *)
Definition doubles (p : Player) : PlayerD :=
  mkPlayerD (Z2double (chips p)) (Z2double (currentBet p)) (isAllIn p).

(** What [bet(amount)] reads and computes are safe integers. *)
Definition safeBet (amount : Z) (p : Player) : Prop :=
  safeInteger amount /\ safeInteger (chips p) /\ safeInteger (currentBet p)
  /\ safeInteger (chips p - Z.min amount (chips p))
  /\ safeInteger (currentBet p + Z.min amount (chips p)).

(** Mantissas: [q] followed by [k] zero bits, the number of bits of [q], the
    integer that a sign and a mantissa stand for, and the double that holds
    it (53 significant bits, the exponent adjusted). *)
Definition shiftLeft (q : positive) (k : nat) : positive := Nat.iter k xO q.
Definition bitLength (q : positive) : Z := Zpos (digits2_pos q).
Definition signedValue (s : bool) (q : positive) : Z := cond_Zopp s (Zpos q).
Definition canonical (s : bool) (q : positive) : spec_float :=
  S754_finite s (shiftLeft q (Z.to_nat (53 - bitLength q))) (bitLength q - 53).

(** ** Hands played in integers *)

(** No pot holds a negative amount. *)
Definition potsNonneg (gs : GameState) : Prop :=
  forall hs, handState gs = Some hs ->
    Forall (fun pot_ => 0 <= amount pot_) (potManager hs).

(** Every number of the chip ledger is a safe integer. *)
Definition safeLedger (gs : GameState) : Prop :=
  Forall (fun p => safeInteger (chips p) /\ safeInteger (currentBet p)) (players gs)
  /\ Forall (fun pot_ => safeInteger (amount pot_)) (potsOf gs).

(** ** The ladder of pots left by [collectBets]

    The chips of a bet that lie above the level [lo] and at or below the
    level [hi], the players whose bet reaches above [lo], and the pot layer
    that a band of levels [(lo, hi)] cuts out of the bets. *)
Definition slice (lo hi : Z) (p : Player) : Z :=
  Z.max 0 (Z.min (currentBet p) hi - lo).

Definition sliceTotal (lo hi : Z) (players : list Player) : Z :=
  sumZ (map (slice lo hi) players).

Definition above (lo : Z) (players : list Player) : gset string :=
  list_to_set (map id (List.filter (fun p => lo <? currentBet p) players)).

Definition layer (players : list Player) (band : Z * Z) : Pot :=
  mkPot (sliceTotal (fst band) (snd band) players) (above (fst band) players).

(** The bands between consecutive levels, from [lo] upwards. *)
Fixpoint bands (lo : Z) (levels : list Z) : list (Z * Z) :=
  match levels with
  | [] => []
  | hi :: rest => (lo, hi) :: bands hi rest
  end.

(** The first layer goes into the pot that is current, the others follow as
    new pots. *)
Definition mergePot (currentPot pot : Pot) : Pot :=
  mkPot (amount currentPot + amount pot) (contributors pot ∪ contributors currentPot).

Definition pile (currentPot : Pot) (layers : list Pot) : list Pot :=
  match layers with
  | [] => [currentPot]
  | l :: ls => mergePot currentPot l :: ls
  end.

(** A level closes a pot: the bet of an all-in player, or the highest bet. *)
Definition isLevel (players : list Player) (c : Z) : Prop :=
  0 < c
  /\ exists p, In p players /\ currentBet p = c
       /\ (isAllIn p = true \/ Forall (fun q => currentBet q <= c) players).

Definition contributorsAt (pots : list Pot) (k : nat) : gset string :=
  match pots !! k with Some pot => contributors pot | None => ∅ end.

(* ================================================================== *)
(** * Properties *)

(** ** Sorting *)

Section SortFacts.
Context {A : Type} (key : A -> Z).

#[local] Instance geZ_trans : Transitive geZ.
Proof. unfold geZ. intros x y z ? ?. lia. Qed.

#[local] Instance geZ_antisymm : AntiSymm (=) geZ.
Proof. unfold geZ. intros x y ? ?. lia. Qed.

Lemma js_insert_perm (cmp : A -> A -> Z) x l : js_insert cmp x l ≡ₚ x :: l.
Proof.
  induction l as [|y l IH]; simpl; [done|].
  destruct (cmp x y <=? 0); [done|].
  rewrite IH. apply perm_swap.
Qed.

Lemma js_sort_perm (cmp : A -> A -> Z) l : js_sort cmp l ≡ₚ l.
Proof.
  induction l as [|x l IH]; simpl; [done|].
  rewrite js_insert_perm. by rewrite IH.
Qed.

Lemma js_insert_HdRel a x l :
  geZ a (key x) -> HdRel geZ a (map key l) ->
  HdRel geZ a (map key (js_insert (descBy key) x l)).
Proof.
  intros Hx Hl. destruct l as [|y l]; simpl.
  - by constructor.
  - destruct (descBy key x y <=? 0); simpl; constructor; [done|].
    by inversion Hl.
Qed.

Lemma js_insert_sorted x l :
  Sorted geZ (map key l) -> Sorted geZ (map key (js_insert (descBy key) x l)).
Proof.
  induction l as [|y l IH]; simpl; intros Hs.
  - repeat constructor.
  - inversion Hs as [|? ? Hs' Hhd]; subst.
    destruct (descBy key x y <=? 0) eqn:E; simpl.
    + constructor; [done|]. constructor.
      unfold descBy, geZ in *. lia.
    + constructor; [by apply IH|].
      apply js_insert_HdRel; [|done].
      unfold descBy, geZ in *. lia.
Qed.

Lemma js_sort_sorted l : Sorted geZ (map key (js_sort (descBy key) l)).
Proof.
  induction l as [|x l IH]; simpl; [constructor|].
  by apply js_insert_sorted.
Qed.

Lemma js_sort_keys_perm l l' :
  l ≡ₚ l' -> map key (js_sort (descBy key) l) = map key (js_sort (descBy key) l').
Proof.
  intros Hp. apply (Sorted_unique geZ); try apply js_sort_sorted.
  apply Permutation_map. by rewrite !js_sort_perm.
Qed.
End SortFacts.

(** ** The evaluator reads the cards only through their sorted ranks and the
    flush test *)

Lemma rankOrder_inj r r' : rankOrder r = rankOrder r' -> r = r'.
Proof. destruct r, r'; simpl; intros H; try reflexivity; discriminate H. Qed.

Lemma sorted_ranks_perm (l l' : list Card) :
  l ≡ₚ l' -> map rank (js_sort byRankDesc l) = map rank (js_sort byRankDesc l').
Proof.
  intros Hp.
  pose proof (js_sort_keys_perm (fun c => rankOrder (rank c)) l l' Hp) as H.
  change (descBy (fun c => rankOrder (rank c))) with byRankDesc in H.
  revert H. generalize (js_sort byRankDesc l) (js_sort byRankDesc l').
  induction l0 as [|a l0 IH]; intros [|b l1]; simpl; intros H; try done.
  injection H as Hab Hl. f_equal; [by apply rankOrder_inj|by apply IH].
Qed.

Lemma every_first_spec (suits : list Suit) :
  every_first suits = true <-> forall x y, x ∈ suits -> y ∈ suits -> x = y.
Proof.
  destruct suits as [|s0 suits]; simpl.
  - split; [|done]. intros _ x y Hx. by apply elem_of_nil in Hx.
  - rewrite bool_decide_eq_true_2 by done. simpl.
    rewrite forallb_forall. split.
    + intros H x y Hx Hy.
      assert (Hs : forall z, z ∈ s0 :: suits -> z = s0).
      { intros z Hz. apply elem_of_cons in Hz as [->|Hz]; [done|].
        apply list_elem_of_In in Hz. apply H in Hz.
        by apply bool_decide_eq_true in Hz. }
      by rewrite (Hs x Hx), (Hs y Hy).
    + intros H x Hx. apply bool_decide_eq_true.
      apply H; [apply elem_of_cons; right; by apply list_elem_of_In|apply elem_of_cons; by left].
Qed.

Lemma every_first_perm (s s' : list Suit) : s ≡ₚ s' -> every_first s = every_first s'.
Proof.
  intros Hp. apply eq_true_iff_eq. rewrite !every_first_spec.
  split; intros H x y Hx Hy; apply H.
  1,2: by rewrite Hp. 1,2: by rewrite <- Hp.
Qed.

Lemma evaluateFiveCards_score_congr (c c' : list Card) :
  map rank (js_sort byRankDesc c) = map rank (js_sort byRankDesc c') ->
  every_first (map suit (js_sort byRankDesc c))
  = every_first (map suit (js_sort byRankDesc c')) ->
  score <$> evaluateFiveCards c = score <$> evaluateFiveCards c'.
Proof.
  intros Hr Hs. unfold evaluateFiveCards. cbv zeta. rewrite Hr, Hs.
  generalize (map rank (js_sort byRankDesc c')) as ranks; intros ranks.
  generalize (every_first (map suit (js_sort byRankDesc c'))) as isFlush; intros isFlush.
  generalize (js_sort byRankDesc c) (js_sort byRankDesc c'). intros srt srt'.
  repeat case_match; simpl; try reflexivity.
  all: repeat (match goal with
               | |- context [List.find ?f ?l] => destruct (List.find f l); simpl
               | |- context [?l !! ?i] => destruct (l !! i); simpl
               | |- context [positional ?b ?l] => destruct (positional b l); simpl
               end); reflexivity.
Qed.

(** The score [evaluateFiveCards] assigns does not depend on the order in
    which the cards are supplied. *)
Lemma evaluateFiveCards_score_perm (c c' : list Card) :
  c ≡ₚ c' -> score <$> evaluateFiveCards c = score <$> evaluateFiveCards c'.
Proof.
  intros Hp. apply evaluateFiveCards_score_congr.
  - by apply sorted_ranks_perm.
  - apply every_first_perm. apply Permutation_map. by rewrite !js_sort_perm.
Qed.

(** ** [getCombinations] enumerates the sub-sequences *)

Section Combinations.
Context {A : Type}.
Implicit Types (l arr : list A) (k n : nat).

Lemma combos_zero l : combos 0 l = [[]].
Proof. by destruct l. Qed.

Lemma combos_short k l : (length l < k)%nat -> combos k l = [].
Proof.
  revert k. induction l as [|x l IH]; intros [|k] Hk; simpl in *; try lia; [done|].
  rewrite (IH k), (IH (S k)) by lia. done.
Qed.

Lemma combos_all l : combos (length l) l = [l].
Proof.
  induction l as [|x l IH]; simpl; [done|].
  rewrite IH. rewrite combos_short by lia. done.
Qed.

Lemma combos_one l : combos 1 l = map (fun x => [x]) l.
Proof.
  induction l as [|x l IH]; [done|].
  change (combos 1 (x :: l)) with (map (cons x) (combos 0 l) ++ combos 1 l).
  rewrite combos_zero, IH. done.
Qed.

Lemma getCombinations_S n arr :
  getCombinations (S n) arr =
  if (S (S n) =? length arr)%nat then [arr]
  else combinationsLoop (getCombinations n) (S (length arr) - S (S n))%nat arr.
Proof. reflexivity. Qed.

Lemma combinationsLoop_combos k (sub : list A -> list (list A)) it rest :
  (forall l, sub l = combos (S k) l) ->
  it = (S (length rest) - S (S k))%nat ->
  combinationsLoop sub it rest = combos (S (S k)) rest.
Proof.
  intros Hsub. revert rest. induction it as [|it IHit]; intros rest Hit.
  - rewrite combos_short; [by destruct rest|]. simpl in Hit. lia.
  - destruct rest as [|x rest]; [simpl in Hit; lia|].
    simpl combinationsLoop. rewrite Hsub, IHit; [done|]. simpl in *. lia.
Qed.

Lemma getCombinations_combos n arr : getCombinations n arr = combos (S n) arr.
Proof.
  revert arr. induction n as [|n IH]; intros arr.
  - simpl getCombinations. by rewrite combos_one.
  - rewrite getCombinations_S.
    destruct (S (S n) =? length arr)%nat eqn:E.
    + apply Nat.eqb_eq in E. rewrite E. by rewrite combos_all.
    + by apply combinationsLoop_combos.
Qed.

Lemma combos_map_cons (x y : A) (L L' : list (list A)) :
  PermutationA (@Permutation A) L L' ->
  PermutationA (@Permutation A) (map (cons x) L) (map (cons x) L').
Proof.
  induction 1 as [|a b L L' Hab _ IH|a b L|L1 L2 L3 _ IH1 _ IH2]; simpl.
  - constructor.
  - constructor; [by constructor|done].
  - apply permA_swap.
  - by etransitivity.
Qed.

Lemma combos_swap_heads (x y : A) (L : list (list A)) :
  PermutationA (@Permutation A)
    (map (cons y) (map (cons x) L)) (map (cons x) (map (cons y) L)).
Proof.
  induction L as [|a L IH]; simpl; [constructor|].
  constructor; [apply perm_swap|done].
Qed.

Lemma combos_perm k l l' :
  l ≡ₚ l' -> PermutationA (@Permutation A) (combos k l) (combos k l').
Proof.
  intros Hp. revert k.
  induction Hp as [|x l l' _ IH|x y l|l1 l2 l3 _ IH1 _ IH2]; intros k.
  - reflexivity.
  - destruct k as [|k]; simpl; [reflexivity|].
    apply PermutationA_app; [apply Permutation_Equivalence| |apply IH].
    by apply (combos_map_cons x x).
  - destruct k as [|[|k]].
    + reflexivity.
    + simpl. rewrite !combos_zero. simpl. apply permA_swap.
    + change (combos (S (S k)) (y :: x :: l)) with
        (map (cons y) (map (cons x) (combos k l) ++ combos (S k) l)
         ++ map (cons x) (combos (S k) l) ++ combos (S (S k)) l).
      change (combos (S (S k)) (x :: y :: l)) with
        (map (cons x) (map (cons y) (combos k l) ++ combos (S k) l)
         ++ map (cons y) (combos (S k) l) ++ combos (S (S k)) l).
      rewrite !map_app, <- !app_assoc.
      apply PermutationA_app; [apply Permutation_Equivalence|apply combos_swap_heads|].
      rewrite !app_assoc.
      apply PermutationA_app; [apply Permutation_Equivalence| |reflexivity].
      apply PermutationA_app_comm. apply Permutation_Equivalence.
  - etransitivity; [apply IH1|apply IH2].
Qed.
End Combinations.

(** ** [evaluateHand] keeps the maximal score of the combinations *)

Lemma keepBest_snd st combo : snd (keepBest st combo) = bumpScore (snd st) combo.
Proof.
  unfold keepBest, bumpScore. destruct (evaluateFiveCards combo) as [e|]; [|done].
  by destruct (score e >? snd st).
Qed.

Lemma keepBest_tracked st combo : tracked st -> tracked (keepBest st combo).
Proof.
  unfold keepBest, tracked. intros H.
  destruct (evaluateFiveCards combo) as [e|]; [|done].
  destruct (score e >? snd st) eqn:E; [|done]. simpl.
  split; [done|]. destruct (fst st); lia.
Qed.

Lemma fold_keepBest combos0 st :
  tracked st ->
  tracked (fold_left keepBest combos0 st)
  /\ snd (fold_left keepBest combos0 st) = fold_left bumpScore combos0 (snd st).
Proof.
  revert st. induction combos0 as [|c L IH]; intros st Hst; simpl; [done|].
  destruct (IH (keepBest st c) (keepBest_tracked st c Hst)) as [H1 H2].
  split; [done|]. by rewrite H2, keepBest_snd.
Qed.

Lemma tracked_score st :
  tracked st -> score <$> fst st = if snd st =? 0 then None else Some (snd st).
Proof.
  unfold tracked. destruct (fst st) as [e|]; simpl.
  - intros [-> Hpos]. destruct (snd st =? 0) eqn:E; [lia|done].
  - intros ->. done.
Qed.

Lemma bumpScore_max best combo :
  bumpScore best combo =
  match score <$> evaluateFiveCards combo with
  | Some s => Z.max best s
  | None => best
  end.
Proof.
  unfold bumpScore. destruct (evaluateFiveCards combo) as [e|]; simpl; [|done].
  destruct (score e >? best) eqn:E; lia.
Qed.

Lemma bumpScore_perm best c c' : c ≡ₚ c' -> bumpScore best c = bumpScore best c'.
Proof.
  intros Hp. by rewrite !bumpScore_max, (evaluateFiveCards_score_perm c c' Hp).
Qed.

Lemma bumpScore_comm best c d :
  bumpScore (bumpScore best c) d = bumpScore (bumpScore best d) c.
Proof.
  rewrite !bumpScore_max.
  destruct (score <$> evaluateFiveCards c), (score <$> evaluateFiveCards d); lia.
Qed.

Lemma fold_bumpScore_perm (L L' : list (list Card)) best :
  PermutationA (@Permutation Card) L L' ->
  fold_left bumpScore L best = fold_left bumpScore L' best.
Proof.
  intros Hp. revert best.
  induction Hp as [|a b L L' Hab _ IH|a b L|L1 L2 L3 _ IH1 _ IH2]; intros best; simpl.
  - done.
  - by rewrite (bumpScore_perm best a b Hab), IH.
  - by rewrite bumpScore_comm.
  - by rewrite IH1, IH2.
Qed.

Lemma evaluateHand_score (sevenCards : list Card) :
  score <$> evaluateHand sevenCards =
  if (length sevenCards <? 5)%nat then Some 0
  else
    let best := fold_left bumpScore (combos 5 sevenCards) 0 in
    if best =? 0 then None else Some best.
Proof.
  unfold evaluateHand. destruct (length sevenCards <? 5)%nat; [done|].
  rewrite getCombinations_combos.
  destruct (fold_keepBest (combos 5 sevenCards) (None, 0)) as [H1 H2]; [done|].
  rewrite (tracked_score _ H1), H2. done.
Qed.

(** ** Five cards always receive a positive score *)

Lemma allPatternsScore_true : allPatternsScore = true.
Proof. vm_compute. reflexivity. Qed.

Lemma allRanks_complete r : In r allRanks.
Proof. destruct r; simpl; tauto. Qed.

Lemma patterns_score flush r1 r2 r3 r4 r5 :
  below r1 r2 = true -> below r2 r3 = true -> below r3 r4 = true -> below r4 r5 = true ->
  scoresPositive (patternHand flush r1 r2 r3 r4 r5) = true.
Proof.
  intros H12 H23 H34 H45. pose proof allPatternsScore_true as H.
  unfold allPatternsScore in H. rewrite forallb_forall in H.
  assert (Hf : In flush [true; false]) by (destruct flush; simpl; tauto).
  specialize (H flush Hf). rewrite forallb_forall in H.
  specialize (H r1 (allRanks_complete r1)). rewrite forallb_forall in H.
  specialize (H r2 (allRanks_complete r2)). rewrite H12 in H. cbn [negb orb] in H.
  rewrite forallb_forall in H.
  specialize (H r3 (allRanks_complete r3)). rewrite H23 in H. cbn [negb orb] in H.
  rewrite forallb_forall in H.
  specialize (H r4 (allRanks_complete r4)). rewrite H34 in H. cbn [negb orb] in H.
  rewrite forallb_forall in H.
  specialize (H r5 (allRanks_complete r5)). rewrite H45 in H. cbn [negb orb] in H.
  exact H.
Qed.

Lemma js_sort_sorted_id {A : Type} (key : A -> Z) (l : list A) :
  Sorted geZ (map key l) -> js_sort (descBy key) l = l.
Proof.
  induction l as [|x l IH]; [done|]. intros Hs. simpl in Hs.
  inversion Hs as [|? ? Hs' Hhd]; subst. simpl. rewrite (IH Hs').
  destruct l as [|y l]; [done|]. simpl.
  inversion Hhd as [|? ? Hxy]; subst. unfold descBy, geZ in *.
  destruct (key y - key x <=? 0) eqn:E; [done|]. lia.
Qed.

Lemma evaluateFiveCards_defined (cs : list Card) :
  length cs = 5%nat -> exists e, evaluateFiveCards cs = Some e /\ 0 < score e.
Proof.
  intros Hlen.
  pose proof (js_sort_sorted (fun c => rankOrder (rank c)) cs) as Hsorted.
  pose proof (js_sort_perm byRankDesc cs) as Hperm.
  change (descBy (fun c => rankOrder (rank c))) with byRankDesc in Hsorted.
  assert (Hlen' : length (js_sort byRankDesc cs) = 5%nat)
    by (by rewrite (Permutation_length Hperm)).
  destruct (js_sort byRankDesc cs) as [|c1 [|c2 [|c3 [|c4 [|c5 [|c6 rest]]]]]] eqn:Es;
    try discriminate Hlen'. clear Hlen'.
  set (flush := every_first (map suit [c1; c2; c3; c4; c5])).
  set (canon := patternHand flush (rank c1) (rank c2) (rank c3) (rank c4) (rank c5)).
  assert (Hdesc : below (rank c1) (rank c2) = true /\ below (rank c2) (rank c3) = true
                  /\ below (rank c3) (rank c4) = true /\ below (rank c4) (rank c5) = true).
  { simpl in Hsorted. unfold below.
    repeat match goal with
           | H : Sorted _ (_ :: _) |- _ => inversion H; clear H; subst
           | H : HdRel _ _ (_ :: _) |- _ => inversion H; clear H; subst
           end.
    unfold geZ in *. repeat split; apply Z.leb_le; done. }
  destruct Hdesc as (H12 & H23 & H34 & H45).
  assert (Hcanon : js_sort byRankDesc canon = canon).
  { apply (js_sort_sorted_id (fun c => rankOrder (rank c))). unfold canon, patternHand.
    simpl. unfold below in *. apply Z.leb_le in H12, H23, H34, H45.
    repeat constructor; unfold geZ; done. }
  assert (Hscore : score <$> evaluateFiveCards cs = score <$> evaluateFiveCards canon).
  { apply evaluateFiveCards_score_congr; rewrite Es, Hcanon.
    - reflexivity.
    - fold flush. unfold canon, patternHand, every_first. simpl.
      by destruct flush. }
  pose proof (patterns_score flush _ _ _ _ _ H12 H23 H34 H45) as Hpos.
  fold canon in Hpos. unfold scoresPositive in Hpos.
  destruct (evaluateFiveCards canon) as [e'|]; [|done].
  destruct (evaluateFiveCards cs) as [e|]; [|done].
  injection Hscore as Hscore. exists e. split; [done|]. apply Z.ltb_lt in Hpos. lia.
Qed.

Lemma combos_length {A : Type} k (l c : list A) : In c (combos k l) -> length c = k.
Proof.
  revert k c. induction l as [|x l IH]; intros [|k] c; simpl;
    try (intros [<-|[]]; done); try done.
  rewrite in_app_iff, in_map_iff. intros [(c' & <- & Hc')|Hc].
  - simpl. by rewrite (IH k c').
  - by apply IH.
Qed.

Lemma combos_nonempty {A : Type} k (l : list A) : (k <= length l)%nat -> combos k l <> [].
Proof.
  revert k. induction l as [|x l IH]; intros [|k] Hk; simpl in *; try done; [lia|].
  destruct (decide (k <= length l)%nat) as [Hle|Hgt]; [|lia].
  specialize (IH k Hle). destruct (combos k l); [done|]. simpl. done.
Qed.

Lemma bumpScore_ge best combo : best <= bumpScore best combo.
Proof. rewrite bumpScore_max. destruct (score <$> evaluateFiveCards combo); lia. Qed.

Lemma fold_bumpScore_ge L best : best <= fold_left bumpScore L best.
Proof.
  revert best. induction L as [|c L IH]; intros best; simpl; [lia|].
  pose proof (bumpScore_ge best c). pose proof (IH (bumpScore best c)). lia.
Qed.

Lemma evaluateHand_defined (sevenCards : list Card) :
  exists e, evaluateHand sevenCards = Some e
            /\ ((5 <= length sevenCards)%nat -> 0 < score e).
Proof.
  pose proof (evaluateHand_score sevenCards) as Hs.
  unfold evaluateHand in *.
  destruct (length sevenCards <? 5)%nat eqn:E.
  - eexists. split; [done|]. apply Nat.ltb_lt in E. lia.
  - apply Nat.ltb_ge in E. cbv zeta in Hs.
    assert (Hpos : 0 < fold_left bumpScore (combos 5 sevenCards) 0).
    { pose proof (combos_nonempty 5 sevenCards E) as Hne.
      destruct (combos 5 sevenCards) as [|c L] eqn:Ec; [done|].
      assert (Hc : length c = 5%nat) by (apply (combos_length 5 sevenCards); rewrite Ec; by left).
      destruct (evaluateFiveCards_defined c Hc) as (e & He & Hpos).
      simpl. pose proof (fold_bumpScore_ge L (bumpScore 0 c)).
      assert (0 < bumpScore 0 c); [|lia].
      rewrite bumpScore_max, He. simpl. lia. }
    destruct (fold_left bumpScore (combos 5 sevenCards) 0 =? 0) eqn:Ez; [lia|].
    destruct (fst (fold_left keepBest (getCombinations 4 sevenCards) (None, 0)))
      as [e|]; [|done].
    exists e. split; [done|]. intros _. injection Hs as ->. done.
Qed.

(** C10.  [evaluateHand] returns an evaluation on every list of cards, and
    the score it returns depends only on the multiset of the cards: any two
    lists that are permutations of each other (in particular lists of 5 to 7
    cards) receive the same score. *)
Theorem evaluateHand_order_insensitive (l l' : list Card) :
  l ≡ₚ l' ->
  exists s, score <$> evaluateHand l = Some s /\ score <$> evaluateHand l' = Some s.
Proof.
  intros Hp. destruct (evaluateHand_defined l) as (e & He & _).
  exists (score e). rewrite He. split; [done|].
  rewrite !evaluateHand_score, <- (Permutation_length Hp).
  rewrite <- (fold_bumpScore_perm _ _ 0 (combos_perm 5 l l' Hp)).
  rewrite <- evaluateHand_score, He. done.
Qed.

(** ** Pot manager *)

Lemma sumZ_app xs ys : sumZ (xs ++ ys) = sumZ xs + sumZ ys.
Proof. induction xs as [|x xs IH]; simpl; lia. Qed.

Lemma fold_left_min_spec xs x :
  let m := fold_left Z.min xs x in
  m <= x /\ (forall y, In y xs -> m <= y) /\ (m = x \/ In m xs).
Proof.
  revert x. induction xs as [|y xs IH]; intros x; simpl.
  - repeat split; [lia|tauto|by left].
  - destruct (IH (Z.min x y)) as (H1 & H2 & H3). repeat split.
    + lia.
    + intros z [<-|Hz]; [lia|by apply H2].
    + destruct H3 as [H3|H3]; [|by right; right].
      rewrite H3.
      destruct (Z.min_spec x y) as [[_ E]|[_ E]]; rewrite E; [by left|right; by left].
Qed.

Lemma Math_min_spec xs :
  xs <> [] -> exists m, Math_min xs = Some m /\ In m xs /\ forall y, In y xs -> m <= y.
Proof.
  destruct xs as [|x xs]; [done|]. intros _. simpl.
  destruct (fold_left_min_spec xs x) as (H1 & H2 & H3).
  eexists; split; [done|]. split.
  - destruct H3 as [->|H3]; [by left|by right].
  - intros y [<-|Hy]; [done|by apply H2].
Qed.

Lemma selected_filter mask players :
  covers mask players ->
  List.filter hasBet (selected mask players) = List.filter hasBet players.
Proof.
  induction 1 as [|b p mask players Hb _ IH]; simpl; [done|].
  destruct b; simpl.
  - by rewrite IH.
  - destruct (hasBet p) eqn:E; [|done]. by specialize (Hb eq_refl).
Qed.

Lemma existsb_filter {A} (f : A -> bool) l : existsb f l = negb (length (List.filter f l) =? 0)%nat.
Proof. induction l as [|x l IH]; simpl; [done|]. by destruct (f x). Qed.

Lemma selected_existsb mask players :
  covers mask players ->
  existsb hasBet (selected mask players) = existsb hasBet players.
Proof. intros H. by rewrite !existsb_filter, selected_filter. Qed.

Lemma covers_init players : covers (map hasBet players) players.
Proof. induction players; constructor; done. Qed.

Lemma paid_cons minBet p players :
  paid minBet (p :: players) =
  (if hasBet p then contribution minBet p else 0) + paid minBet players.
Proof. unfold paid. cbn [List.filter]. destruct (hasBet p); cbn [map sumZ]; lia. Qed.

Lemma bettorIds_cons p players :
  bettorIds (p :: players) =
  (if hasBet p then {[ id p ]} else ∅) ∪ bettorIds players.
Proof.
  unfold bettorIds. cbn [List.filter].
  destruct (hasBet p); cbn [map list_to_set foldr]; set_solver.
Qed.

Lemma payIn_bettor minBet p :
  hasBet p = true ->
  payIn minBet p = setCurrentBet (currentBet p - contribution minBet p) p.
Proof. unfold payIn. by intros ->. Qed.

Lemma payIn_idle minBet p : hasBet p = false -> payIn minBet p = p.
Proof. unfold payIn. by intros ->. Qed.

Lemma pot_eq a a' (c c' : gset string) : a = a' -> c = c' -> mkPot a c = mkPot a' c'.
Proof. by intros -> ->. Qed.

Lemma takeBets_spec minBet players pot :
  takeBets minBet players pot =
  (map (payIn minBet) players,
   mkPot (amount pot + paid minBet players) (bettorIds players ∪ contributors pot),
   map (payIn minBet) (List.filter hasBet players)).
Proof.
  revert pot. induction players as [|p players IH]; intros pot.
  - destruct pot as [a c]. cbn. unfold bettorIds. cbn.
    f_equal. f_equal. apply pot_eq; [lia|set_solver].
  - cbn [takeBets map List.filter]. rewrite paid_cons, bettorIds_cons.
    destruct (hasBet p) eqn:E; rewrite IH; cbn [amount contributors map].
    + rewrite (payIn_bettor _ _ E).
      f_equal. f_equal. apply pot_eq; [lia|set_solver].
    + rewrite (payIn_idle _ _ E).
      f_equal. f_equal. apply pot_eq; [lia|set_solver].
Qed.

Lemma hasBet_true p : hasBet p = true <-> 0 < currentBet p.
Proof. unfold hasBet. apply Z.ltb_lt. Qed.

Lemma hasBet_false p : hasBet p = false <-> currentBet p <= 0.
Proof. unfold hasBet. apply Z.ltb_ge. Qed.

Lemma payIn_currentBet minBet p :
  currentBet (payIn minBet p) =
  if hasBet p then currentBet p - contribution minBet p else currentBet p.
Proof. unfold payIn. by destruct (hasBet p). Qed.

Lemma payIn_zeroed minBet p : setCurrentBet 0 (payIn minBet p) = setCurrentBet 0 p.
Proof. unfold payIn. by destruct (hasBet p). Qed.

Lemma payIn_still_bettor m p :
  hasBet (payIn (Some m) p) = true -> hasBet p = true.
Proof.
  unfold payIn. destruct (hasBet p) eqn:E; [done|]. by rewrite E.
Qed.

Lemma payIn_min_cleared m q :
  0 < m -> currentBet q = m -> hasBet (payIn (Some m) q) = false.
Proof.
  intros Hm Hq. apply hasBet_false. rewrite payIn_currentBet.
  assert (hasBet q = true) as -> by (apply hasBet_true; lia).
  simpl. lia.
Qed.

Lemma bettors_le m players :
  (length (List.filter hasBet (map (payIn (Some m)) players))
   <= length (List.filter hasBet players))%nat.
Proof.
  induction players as [|p players IH]; simpl; [lia|].
  destruct (hasBet (payIn (Some m) p)) eqn:E.
  - rewrite (payIn_still_bettor _ _ E). simpl. lia.
  - destruct (hasBet p); simpl; lia.
Qed.

Lemma bettors_lt m players q :
  0 < m -> In q players -> currentBet q = m ->
  (length (List.filter hasBet (map (payIn (Some m)) players))
   < length (List.filter hasBet players))%nat.
Proof.
  intros Hm Hin Hq. induction players as [|p players IH]; simpl; [done|].
  destruct Hin as [->|Hin].
  - rewrite (payIn_min_cleared m q Hm Hq).
    assert (hasBet q = true) as -> by (apply hasBet_true; lia).
    pose proof (bettors_le m players). simpl. lia.
  - specialize (IH Hin). destruct (hasBet (payIn (Some m) p)) eqn:E.
    + rewrite (payIn_still_bettor _ _ E). simpl. lia.
    + destruct (hasBet p); simpl; lia.
Qed.

Lemma betsTotal_payIn minBet players :
  betsTotal (map (payIn minBet) players) = betsTotal players - paid minBet players.
Proof.
  unfold betsTotal. induction players as [|p players IH]; [done|].
  rewrite paid_cons. cbn [map sumZ]. rewrite IH, payIn_currentBet.
  destruct (hasBet p); lia.
Qed.

Lemma paid_positive m players q :
  0 < m -> (forall p, In p players -> hasBet p = true -> m <= currentBet p) ->
  In q players -> hasBet q = true -> 0 < paid (Some m) players.
Proof.
  intros Hm Hle Hin Hq.
  assert (Hnn : forall ps, (forall p, In p ps -> hasBet p = true -> m <= currentBet p) ->
                           0 <= paid (Some m) ps).
  { induction ps as [|p ps IH]; intros H; [done|]. rewrite paid_cons.
    assert (0 <= paid (Some m) ps) by (apply IH; intros; apply H; [by right|done]).
    destruct (hasBet p) eqn:E; [|lia].
    pose proof (H p (or_introl eq_refl) E). simpl. lia. }
  induction players as [|p players IH]; [done|]. rewrite paid_cons.
  assert (0 <= paid (Some m) players)
    by (apply Hnn; intros; apply Hle; [by right|done]).
  destruct Hin as [->|Hin].
  - rewrite Hq. pose proof (Hle q (or_introl eq_refl) Hq). simpl. lia.
  - assert (0 < paid (Some m) players)
      by (apply IH; [intros; apply Hle; [by right|done]|done]).
    destruct (hasBet p) eqn:E; [|lia].
    pose proof (Hle p (or_introl eq_refl) E). simpl. lia.
Qed.

Lemma bettorIds_elem p players :
  In p players -> hasBet p = true -> id p ∈ bettorIds players.
Proof.
  intros Hin Hp. unfold bettorIds. apply elem_of_list_to_set.
  apply list_elem_of_In, in_map, filter_In. done.
Qed.

Lemma splitCurrent_spec pots :
  (pots = [] /\ splitCurrent pots = ([], emptyPot))
  \/ exists closed cur, pots = closed ++ [cur] /\ splitCurrent pots = (closed, cur).
Proof.
  unfold splitCurrent. destruct pots as [|p pots] using rev_ind; [by left|].
  right. exists pots, p. by rewrite last_snoc, removelast_last.
Qed.

Lemma potsAmount_app pots pots' :
  potsAmount (pots ++ pots') = potsAmount pots + potsAmount pots'.
Proof. unfold potsAmount. by rewrite map_app, sumZ_app. Qed.

Lemma potsGrow_refl pots : potsGrow pots pots.
Proof. intros k pot H. exists pot. repeat split; [done|lia|done]. Qed.

Lemma potsGrow_trans pots1 pots2 pots3 :
  potsGrow pots1 pots2 -> potsGrow pots2 pots3 -> potsGrow pots1 pots3.
Proof.
  intros H12 H23 k pot H.
  destruct (H12 k pot H) as (pot2 & H2 & Ha & Hc).
  destruct (H23 k pot2 H2) as (pot3 & H3 & Ha' & Hc').
  exists pot3. repeat split; [done|lia|set_solver].
Qed.

Lemma collectPass_spec mask players pots :
  covers mask players -> existsb hasBet players = true ->
  exists m closed cur,
    0 < m
    /\ (exists q, In q players /\ currentBet q = m)
    /\ (forall p, In p players -> hasBet p = true -> m <= currentBet p)
    /\ splitCurrent pots = (closed, cur)
    /\ fst (collectPass mask players pots) = map (payIn (Some m)) players
    /\ let pot' := mkPot (amount cur + paid (Some m) players)
                         (bettorIds players ∪ contributors cur) in
       (snd (collectPass mask players pots) = closed ++ [pot']
        \/ snd (collectPass mask players pots) = closed ++ [pot'; emptyPot]).
Proof.
  intros Hcov Hex. unfold collectPass. rewrite (selected_filter _ _ Hcov).
  destruct (Math_min_spec (map currentBet (List.filter hasBet players)))
    as (m & Hm & Hin & Hle).
  { apply existsb_exists in Hex as (q & Hq & Hb).
    intros Hnil. apply map_eq_nil in Hnil.
    assert (In q (List.filter hasBet players)) as Hq' by (by apply filter_In).
    by rewrite Hnil in Hq'. }
  rewrite Hm. apply in_map_iff in Hin as (q & Hqm & Hq).
  apply filter_In in Hq as [Hq Hqb].
  destruct (splitCurrent pots) as [closed cur] eqn:Hsplit.
  rewrite takeBets_spec.
  exists m, closed, cur. split; [apply hasBet_true in Hqb; lia|].
  split; [by exists q|]. split.
  { intros p Hp Hpb. apply Hle. apply in_map. by apply filter_In. }
  split; [done|].
  match goal with |- context [if ?c then _ else _] => destruct c end; simpl; auto.
Qed.

Lemma covers_payIn mask players m :
  covers mask players -> covers mask (map (payIn (Some m)) players).
Proof.
  induction 1 as [|b p mask players Hb _ IH]; simpl; constructor; [|done].
  intros H. by apply Hb, (payIn_still_bettor m).
Qed.

Lemma nonneg_payIn players m :
  Forall (fun p => 0 <= currentBet p) players ->
  Forall (fun p => 0 <= currentBet p) (map (payIn (Some m)) players).
Proof.
  intros H. apply Forall_map. eapply Forall_impl; [exact H|].
  intros p Hp. cbn beta in *. rewrite payIn_currentBet. unfold contribution.
  destruct (hasBet p); lia.
Qed.

Lemma zeroed_idle players :
  Forall (fun p => 0 <= currentBet p) players ->
  existsb hasBet players = false ->
  players = map (setCurrentBet 0) players.
Proof.
  intros Hnn Hex. induction Hnn as [|p players Hp _ IH]; [done|].
  simpl in Hex. apply orb_false_iff in Hex as [Hb Hex].
  apply hasBet_false in Hb. simpl. rewrite <- IH by done.
  f_equal. cbn beta in Hp. replace 0 with (currentBet p) by lia. by destruct p.
Qed.

Lemma pass_grows closed cur pots (pot' : Pot) tail :
  (pots = [] /\ closed = [] /\ cur = emptyPot) \/ pots = closed ++ [cur] ->
  amount cur <= amount pot' -> contributors cur ⊆ contributors pot' ->
  potsGrow pots (closed ++ pot' :: tail)
  /\ (closed ++ pot' :: tail) !! entryPot pots = Some pot'
  /\ amountAt pots (entryPot pots) = amount cur.
Proof.
  intros [(-> & -> & ->) | ->] Ha Hc.
  - repeat split; [by intros k pot H|done..].
  - unfold entryPot, amountAt. rewrite length_app. simpl.
    replace (length closed + 1 - 1)%nat with (length closed) by lia.
    rewrite !list_lookup_middle by done. repeat split; [|done..].
    intros k pot H. destruct (decide (k < length closed)%nat) as [Hk|Hk].
    + rewrite lookup_app_l in H by done. exists pot.
      rewrite lookup_app_l by done. repeat split; [done|lia|done].
    + rewrite lookup_app_r in H by lia.
      destruct (k - length closed)%nat as [|j] eqn:Ej; simpl in H; [|by destruct j].
      injection H as <-. exists pot'. rewrite lookup_app_r by lia.
      rewrite Ej. done.
Qed.

Lemma collectLoop_spec fuel mask players pots :
  covers mask players ->
  (length (List.filter hasBet players) <= fuel)%nat ->
  Forall (fun p => 0 <= currentBet p) players ->
  exists pots',
    collectLoop fuel mask players pots = Some (map (setCurrentBet 0) players, pots')
    /\ potsAmount pots' = potsAmount pots + betsTotal players
    /\ potsGrow pots pots'
    /\ forall p, In p players -> hasBet p = true ->
         exists pot', pots' !! entryPot pots = Some pot'
           /\ id p ∈ contributors pot'
           /\ amountAt pots (entryPot pots) < amount pot'.
Proof.
  revert players pots. induction fuel as [|fuel IH]; intros players pots Hcov Hfuel Hnn.
  - assert (Hex : existsb hasBet players = false).
    { rewrite existsb_filter. destruct (List.filter hasBet players); [done|simpl in Hfuel; lia]. }
    simpl. rewrite (selected_existsb _ _ Hcov), Hex.
    exists pots. rewrite <- (zeroed_idle _ Hnn Hex). split; [done|].
    split.
    { assert (betsTotal players = 0); [|lia].
      clear -Hnn Hex. unfold betsTotal. induction Hnn as [|p players Hp _ IHp]; [done|].
      simpl in Hex. apply orb_false_iff in Hex as [Hb Hex].
      apply hasBet_false in Hb. simpl. rewrite IHp by done. lia. }
    split; [apply potsGrow_refl|].
    intros p Hp Hb. exfalso.
    assert (existsb hasBet players = true) by (apply existsb_exists; eauto). congruence.
  - simpl. rewrite (selected_existsb _ _ Hcov).
    destruct (existsb hasBet players) eqn:Hex.
    + destruct (collectPass_spec mask players pots Hcov Hex)
        as (m & closed & cur & Hm & (q & Hq & Hqm) & Hle & Hsplit & Hfst & Hsnd).
      destruct (collectPass mask players pots) as [players1 pots1].
      simpl in Hfst, Hsnd. subst players1.
      set (pot1 := mkPot (amount cur + paid (Some m) players)
                         (bettorIds players ∪ contributors cur)) in *.
      assert (Hpots1 : exists tail, pots1 = closed ++ pot1 :: tail /\ potsAmount tail = 0).
      { destruct Hsnd as [-> | ->]; [by exists []|by exists [emptyPot]]. }
      destruct Hpots1 as (tail & -> & Htail). clear Hsnd.
      assert (Hshape : (pots = [] /\ closed = [] /\ cur = emptyPot) \/ pots = closed ++ [cur]).
      { destruct (splitCurrent_spec pots) as [[-> E]|(c & u & -> & E)];
          rewrite E in Hsplit; injection Hsplit as <- <-; auto. }
      assert (Hpaid : 0 <= paid (Some m) players).
      { rewrite <- (Z.sub_diag (betsTotal players)) at 1.
        pose proof (betsTotal_payIn (Some m) players).
        assert (0 < paid (Some m) players); [|lia].
        apply (paid_positive m players q); try done. apply hasBet_true. lia. }
      destruct (pass_grows closed cur pots pot1 tail Hshape) as (Hgrow & Hentry & Hamt);
        [simpl; lia|simpl; set_solver|].
      destruct (IH (map (payIn (Some m)) players) (closed ++ pot1 :: tail))
        as (pots' & Hloop & Hsum & Hgrow' & _).
      { by apply covers_payIn. }
      { pose proof (bettors_lt m players q Hm Hq Hqm). lia. }
      { by apply nonneg_payIn. }
      exists pots'. split.
      { rewrite Hloop. f_equal. f_equal. rewrite map_map.
        apply map_ext. intros p. apply payIn_zeroed. }
      split.
      { rewrite Hsum, betsTotal_payIn, potsAmount_app.
        change (pot1 :: tail) with ([pot1] ++ tail). rewrite potsAmount_app, Htail.
        destruct Hshape as [(-> & -> & ->) | ->].
        - unfold potsAmount. simpl. lia.
        - rewrite potsAmount_app. unfold potsAmount. simpl. lia. }
      split; [by eapply potsGrow_trans|].
      intros p Hp Hb.
      destruct (Hgrow' _ _ Hentry) as (pot' & Hlk & Ha & Hc).
      exists pot'. split; [done|]. split.
      * apply Hc. simpl. apply elem_of_union_l. by apply bettorIds_elem.
      * rewrite Hamt.
        assert (0 < paid (Some m) players) by (by apply (paid_positive m players p)).
        simpl in Ha. lia.
    + exists pots. rewrite <- (zeroed_idle _ Hnn Hex). split; [done|].
      split.
      { assert (betsTotal players = 0); [|lia].
        clear -Hnn Hex. unfold betsTotal. induction Hnn as [|p players Hp _ IHp]; [done|].
        simpl in Hex. apply orb_false_iff in Hex as [Hb Hex].
        apply hasBet_false in Hb. simpl. rewrite IHp by done. lia. }
      split; [apply potsGrow_refl|].
      intros p Hp Hb. exfalso.
      assert (existsb hasBet players = true) by (apply existsb_exists; eauto). congruence.
Qed.

(** The effect of [collectBets], shared by the results below. *)
Lemma collectBets_total (players : list Player) (pots : list Pot) :
  Forall (fun p => 0 <= currentBet p) players ->
  exists players' pots',
    collectBets players pots = Some (players', pots')
    /\ Forall (fun p => currentBet p = 0) players'
    /\ players' = map (setCurrentBet 0) players
    /\ potsAmount pots' - potsAmount pots = betsTotal players
    /\ forall p, In p players -> 0 < currentBet p ->
         exists pot', pots' !! entryPot pots = Some pot'
           /\ id p ∈ contributors pot'
           /\ amountAt pots (entryPot pots) < amount pot'.
Proof.
  intros Hnn. unfold collectBets.
  destruct (collectLoop_spec (length players) (map hasBet players) players pots)
    as (pots' & Hloop & Hsum & _ & Hin); [apply covers_init| |done|].
  { apply filter_length_le. }
  assert (Hz : Forall (fun p => currentBet p = 0) (map (setCurrentBet 0) players)).
  { apply Forall_map. by apply Forall_forall. }
  destruct (length (selected (map hasBet players) players) =? 0)%nat eqn:E.
  - assert (Hex : existsb hasBet players = false).
    { rewrite <- (selected_existsb (map hasBet players)) by apply covers_init.
      rewrite existsb_filter.
      apply Nat.eqb_eq in E.
      destruct (selected (map hasBet players) players); [done|discriminate E]. }
    assert (Hbets : betsTotal players = 0).
    { clear -Hnn Hex. unfold betsTotal. induction Hnn as [|p players Hp _ IHp]; [done|].
      simpl in Hex. apply orb_false_iff in Hex as [Hb Hex].
      apply hasBet_false in Hb. simpl. rewrite IHp by done. lia. }
    exists players, pots. rewrite <- (zeroed_idle _ Hnn Hex) in Hz.
    split; [done|]. split; [done|]. split; [by apply zeroed_idle|].
    split; [lia|].
    intros p Hp Hb. exfalso.
    assert (existsb hasBet players = true); [|congruence].
    apply existsb_exists. exists p. split; [done|by apply hasBet_true].
  - exists (map (setCurrentBet 0) players), pots'.
    repeat split; [done|done|lia|].
    intros p Hp Hb. apply Hin; [done|by apply hasBet_true].
Qed.

(** C3.  The side-pot ladder.  Players A, B, C with bets 1000, 100, 1000, the
    short stack B all-in, leave a main pot of 300 for {A, B, C} followed by a
    side pot of 1800 for {A, C}; players A, B, C, D with bets 1000, 200, 500,
    1000, B and C all-in, leave pots of 800, 900 and 1000 for {A, B, C, D},
    {A, C, D} and {A, D}. *)
Theorem side_pot_ladder :
  (forall pa pb pc : Player,
      id pa = "A" -> id pb = "B" -> id pc = "C" ->
      currentBet pa = 1000 -> currentBet pb = 100 -> currentBet pc = 1000 ->
      isAllIn pb = true ->
      snd <$> collectBets [pa; pb; pc] newPots =
      Some [mkPot 300 {[ "A"; "B"; "C" ]}; mkPot 1800 {[ "A"; "C" ]}])
  /\ (forall pa pb pc pd : Player,
      id pa = "A" -> id pb = "B" -> id pc = "C" -> id pd = "D" ->
      currentBet pa = 1000 -> currentBet pb = 200 -> currentBet pc = 500 ->
      currentBet pd = 1000 -> isAllIn pb = true -> isAllIn pc = true ->
      snd <$> collectBets [pa; pb; pc; pd] newPots =
      Some [mkPot 800 {[ "A"; "B"; "C"; "D" ]}; mkPot 900 {[ "A"; "C"; "D" ]};
            mkPot 1000 {[ "A"; "D" ]}]).
Proof.
  split.
  - intros [? ? ? ? ? ? fa ? ?] [? ? ? ? ? ? fb ? ?] [? ? ? ? ? ? fc ? ?]; simpl.
    intros -> -> -> -> -> -> ->.
    destruct fa, fc; vm_compute; reflexivity.
  - intros [? ? ? ? ? ? fa ? ?] [? ? ? ? ? ? fb ? ?] [? ? ? ? ? ? fc ? ?]
           [? ? ? ? ? ? fd ? ?]; simpl.
    intros -> -> -> -> -> -> -> -> -> ->.
    destruct fa, fd; vm_compute; reflexivity.
Qed.

Lemma side_pot_ladder_witness :
  snd <$> collectBets
            [snd (bet 1000 (newPlayer "A" "Alice" 1000));
             snd (bet 100 (newPlayer "B" "Bob" 100));
             snd (bet 1000 (newPlayer "C" "Charlie" 1000))] newPots =
  Some [mkPot 300 {[ "A"; "B"; "C" ]}; mkPot 1800 {[ "A"; "C" ]}].
Proof. apply (proj1 side_pot_ladder); reflexivity. Defined.

(** ** Hand evaluator *)

(** C8.  The wheel A♣ 2♦ 3♥ 4♠ 5♣ is a straight whose high card is 5: both
    [evaluateFiveCards] and [evaluateHand] rank it [Straight] with score
    4,000,005, not as an ace-high straight. *)
Theorem wheel_is_five_high_straight :
  (hand_rank <$> evaluateFiveCards wheel = Some Straight
   /\ score <$> evaluateFiveCards wheel = Some 4000005)
  /\ hand_rank <$> evaluateHand wheel = Some Straight
  /\ score <$> evaluateHand wheel = Some (4000000 + 5)
  /\ score <$> evaluateHand wheel <> Some (4000000 + 14).
Proof. vm_compute. repeat split; congruence. Qed.

(** C2, at a failing input.  A pair of twos is ranked [OnePair] and
    seven-high is ranked [HighCard], yet the pair scores 1,020,543 and the
    high card 705,040,302: the higher category receives the smaller score. *)
Theorem category_order_broken_by_high_card :
  hand_rank <$> evaluateFiveCards pairOfTwos = Some OnePair
  /\ hand_rank <$> evaluateFiveCards sevenHigh = Some HighCard
  /\ score <$> evaluateFiveCards pairOfTwos = Some 1020543
  /\ score <$> evaluateFiveCards sevenHigh = Some 705040302
  /\ 1020543 < 705040302.
Proof. vm_compute. repeat split; congruence. Qed.

(** C5, at a failing input.  The five royal cards alone score 9,000,014, but
    with 2♥ and 3♦ added [evaluateHand] returns the high-card reading
    A K Q J 3 with score 1,413,121,103. *)
Theorem royal_flush_outscored :
  score <$> evaluateFiveCards royal = Some 9000014
  /\ hand_rank <$> evaluateHand royalWithLowCards = Some HighCard
  /\ score <$> evaluateHand royalWithLowCards = Some 1413121103.
Proof. vm_compute. repeat split; congruence. Qed.

(** ** Rejected submissions *)

Lemma applyAction_illegal hs player action :
  isBot player = false -> illegalFor hs player action ->
  applyAction hs player action = None.
Proof.
  intros Hbot Hill. destruct action as [| | |amount]; simpl in Hill; try done.
  - unfold applyAction. apply Z.ltb_lt in Hill. by rewrite Hill.
  - unfold applyAction. rewrite Hbot.
    destruct (amount <=? 0) eqn:E0; [done|]. apply Z.leb_gt in E0.
    cbv zeta.
    destruct ((amount - (hs_currentBet hs - currentBet player) <? minRaiseFor (phase hs))
              && (amount <? chips player)) eqn:E1; [done|].
    destruct (currentBet player + amount <=? hs_currentBet hs) eqn:E2; [done|].
    destruct (currentBet player + amount >? chips player + currentBet player) eqn:E3; [done|].
    exfalso. apply Z.leb_gt in E2. apply andb_false_iff in E1.
    rewrite !Z.ltb_ge in E1.
    assert (amount <= chips player) by lia.
    destruct Hill as [?|[?|[?|[? ?]]]]; lia.
Qed.

(** C7.  A submission by a human player that is out of turn, or is a check
    below the street's bet, or a raise that is not positive, does not exceed
    the street's bet, exceeds the player's chips or is under the minimum
    without committing the whole stack, leaves the whole room state as it
    was: every player's chips, currentBet, hasFolded, isAllIn and hasActed,
    and the hand state's phase, pot, currentBet, currentPlayerIndex and
    communityCards. *)
Theorem illegal_submission_is_noop
    (gs : GameState) (hs : HandState) (playerId_ : string) (player : Player)
    (action : Action) :
  handState gs = Some hs ->
  atIndex (players gs) (findIndex (hasId playerId_) (players gs)) = Some player ->
  isBot player = false ->
  outOfTurn gs hs playerId_ \/ illegalFor hs player action ->
  fst (handlePlayerAction gs playerId_ action) = gs.
Proof.
  intros Hhs Hplayer Hbot Hbad. unfold handlePlayerAction. rewrite Hhs, Hplayer.
  destruct (atIndex (List.filter active (players gs)) (currentPlayerIndex hs))
    as [currentPlayer|] eqn:Hcur; [|done].
  destruct (negb (hasId playerId_ currentPlayer)) eqn:Hturn; [done|].
  destruct (hasActed player && negb (isAllIn player)); [done|].
  destruct Hbad as [(cp & Hcp & Hne)|Hill].
  - exfalso. rewrite Hcur in Hcp. injection Hcp as <-.
    apply negb_false_iff, bool_decide_eq_true in Hturn. done.
  - by rewrite (applyAction_illegal hs player action Hbot Hill).
Qed.

Lemma illegal_submission_is_noop_witness :
  fst (handlePlayerAction firstHand "A" Check) = firstHand
  /\ fst (handlePlayerAction firstHand "B" Fold) = firstHand
  /\ fst (handlePlayerAction firstHand "A" (Raise 15)) = firstHand.
Proof.
  split; [|split].
  - eapply (illegal_submission_is_noop firstHand _ "A" _ Check);
      [reflexivity|reflexivity|reflexivity|right; vm_compute; reflexivity].
  - eapply (illegal_submission_is_noop firstHand _ "B" _ Fold);
      [reflexivity|reflexivity|reflexivity|].
    left. eexists. split; [reflexivity|]. vm_compute. discriminate.
  - eapply (illegal_submission_is_noop firstHand _ "A" _ (Raise 15));
      [reflexivity|reflexivity|reflexivity|].
    right. vm_compute. right. right. right. split; reflexivity.
Defined.

Lemma evaluateHand_order_insensitive_witness :
  royal ++ [card R2 H_; card R3 D_] ≡ₚ [card R3 D_; card R2 H_] ++ royal
  /\ exists s,
      score <$> evaluateHand (royal ++ [card R2 H_; card R3 D_]) = Some s
      /\ score <$> evaluateHand ([card R3 D_; card R2 H_] ++ royal) = Some s.
Proof.
  assert (H : royal ++ [card R2 H_; card R3 D_] ≡ₚ [card R3 D_; card R2 H_] ++ royal).
  { rewrite Permutation_app_comm. simpl. apply perm_swap. }
  split; [exact H|]. exact (evaluateHand_order_insensitive _ _ H).
Defined.

(** ** Chip conservation *)

Lemma bet_fst amount p : fst (bet amount p) = Z.min amount (chips p).
Proof. reflexivity. Qed.

Lemma bet_chips amount p : chips (snd (bet amount p)) = chips p - Z.min amount (chips p).
Proof. unfold bet. simpl. by destruct (chips p - Z.min amount (chips p) =? 0). Qed.

Lemma bet_currentBet amount p :
  currentBet (snd (bet amount p)) = currentBet p + Z.min amount (chips p).
Proof. unfold bet. simpl. by destruct (chips p - Z.min amount (chips p) =? 0). Qed.

Lemma bet_stake amount p : stake (snd (bet amount p)) = stake p.
Proof. unfold stake. rewrite bet_chips, bet_currentBet. lia. Qed.

Lemma stake_total ps : chipsTotal ps + betsTotal ps = sumZ (map stake ps).
Proof.
  unfold chipsTotal, betsTotal. induction ps as [|p ps IH]; simpl; [done|].
  unfold stake at 1. lia.
Qed.

Lemma totalChips_stakes gs :
  totalChips gs = sumZ (map stake (players gs)) + potsAmount (potsOf gs).
Proof. unfold totalChips. by rewrite stake_total. Qed.

Lemma map_insert_same {A B : Type} (f : A -> B) (l : list A) i x y :
  l !! i = Some x -> f y = f x -> map f (<[i:=y]> l) = map f l.
Proof.
  intros Hl Hf. change (f <$> <[i:=y]> l = f <$> l).
  rewrite list_fmap_insert. apply list_insert_id.
  by rewrite list_lookup_fmap, Hl, Hf.
Qed.

Lemma map_alter_same {A B : Type} (f : A -> B) (g : A -> A) (l : list A) i :
  (forall x, f (g x) = f x) -> map f (alter g i l) = map f l.
Proof.
  intros Hf. revert i. induction l as [|x l IH]; intros [|i]; simpl; try done.
  - by rewrite Hf.
  - f_equal. apply IH.
Qed.

Lemma doCall_sound hs player p' hs' :
  seated player -> 0 <= hs_currentBet hs ->
  doCall hs player = (p', hs') ->
  stake p' = stake player /\ seated p'
  /\ potManager hs' = potManager hs /\ hs_currentBet hs' = hs_currentBet hs.
Proof.
  intros [Hc Hb] Hs. unfold doCall.
  destruct (hs_currentBet hs - currentBet player >? chips player) eqn:E.
  - destruct (bet (chips player) player) as [a q] eqn:Eb. intros [= <- <-].
    pose proof (bet_chips (chips player) player) as H1.
    pose proof (bet_currentBet (chips player) player) as H2.
    rewrite Eb in H1, H2. cbn [snd] in H1, H2.
    unfold stake, seated. cbn. repeat split; try done; lia.
  - destruct (bet (hs_currentBet hs - currentBet player) player) as [a q] eqn:Eb.
    intros [= <- <-].
    pose proof (bet_chips (hs_currentBet hs - currentBet player) player) as H1.
    pose proof (bet_currentBet (hs_currentBet hs - currentBet player) player) as H2.
    rewrite Eb in H1, H2. cbn [snd] in H1, H2.
    unfold stake, seated. cbn. repeat split; try done; lia.
Qed.

Lemma applyAction_sound hs player action p' hs' raised :
  seated player -> 0 <= hs_currentBet hs ->
  applyAction hs player action = Some (p', hs', raised) ->
  stake p' = stake player /\ seated p'
  /\ potManager hs' = potManager hs /\ 0 <= hs_currentBet hs'.
Proof.
  intros Hp Hs. pose proof Hp as [Hc Hb].
  assert (Hcall : forall q h, doCall hs player = (q, h) ->
            stake q = stake player /\ seated q
            /\ potManager h = potManager hs /\ 0 <= hs_currentBet h).
  { intros q h H. destruct (doCall_sound hs player q h Hp Hs H) as (?&?&?&E).
    rewrite E. done. }
  destruct action as [| | |amount]; unfold applyAction; cbv zeta.
  - intros [= <- <- <-]. unfold stake, seated. simpl. done.
  - destruct (currentBet player <? hs_currentBet hs); [done|].
    intros [= <- <- <-]. unfold stake, seated. simpl. done.
  - destruct (doCall hs player) as [q h] eqn:Ec. intros [= <- <- <-]. by apply Hcall.
  - destruct (amount <=? 0) eqn:E0; [done|]. apply Z.leb_gt in E0.
    destruct ((amount - (hs_currentBet hs - currentBet player) <? minRaiseFor (phase hs))
              && (amount <? chips player)).
    { destruct (isBot player); [|done].
      destruct (doCall hs player) as [q h] eqn:Ec. intros [= <- <- <-]. by apply Hcall. }
    destruct (currentBet player + amount <=? hs_currentBet hs).
    { destruct (isBot player); [|done].
      destruct (doCall hs player) as [q h] eqn:Ec. intros [= <- <- <-]. by apply Hcall. }
    destruct (currentBet player + amount >? chips player + currentBet player); [done|].
    destruct (bet amount player) as [a q] eqn:Eb. intros [= <- <- <-].
    pose proof (bet_chips amount player) as H1.
    pose proof (bet_currentBet amount player) as H2.
    rewrite Eb in H1, H2. cbn [snd] in H1, H2.
    unfold stake, seated. cbn. repeat split; try done; lia.
Qed.

Lemma atIndex_lookup {A : Type} (l : list A) i x :
  atIndex l i = Some x -> l !! Z.to_nat i = Some x.
Proof. unfold atIndex. by destruct (i <? 0). Qed.

Lemma resetOthers_stake i ps : map stake (resetOthers i ps) = map stake ps.
Proof.
  unfold resetOthers. rewrite map_map. apply map_ext. intros p.
  by destruct (active p && negb (hasId i p)).
Qed.

Lemma resetOthers_seated i ps : Forall seated ps -> Forall seated (resetOthers i ps).
Proof.
  intros H. unfold resetOthers. apply Forall_map. eapply Forall_impl; [exact H|].
  intros p Hp. by destruct (active p && negb (hasId i p)).
Qed.

(** What a submitted action can do to a room: nothing, or replace the acting
    player by one with the same stake and keep the pots. *)
Lemma handlePlayerAction_sound gs playerId_ action gs' c :
  handlePlayerAction gs playerId_ action = (gs', c) ->
  Forall seated (players gs) ->
  (forall hs, handState gs = Some hs -> 0 <= hs_currentBet hs) ->
  Forall seated (players gs')
  /\ (forall hs, handState gs' = Some hs -> 0 <= hs_currentBet hs)
  /\ map stake (players gs') = map stake (players gs)
  /\ potsOf gs' = potsOf gs.
Proof.
  intros Hrun Hps Hhs.
  assert (Hkeep : forall c0, (gs, c0) = (gs', c) ->
            Forall seated (players gs')
            /\ (forall hs0, handState gs' = Some hs0 -> 0 <= hs_currentBet hs0)
            /\ map stake (players gs') = map stake (players gs)
            /\ potsOf gs' = potsOf gs).
  { by intros c0 [= <- <-]. }
  unfold handlePlayerAction in Hrun.
  destruct (handState gs) as [hs|] eqn:Ehs; [|by eapply Hkeep].
  specialize (Hhs hs eq_refl).
  destruct (atIndex (players gs) (findIndex (hasId playerId_) (players gs)))
    as [player|] eqn:Eplayer; [|by eapply Hkeep].
  destruct (atIndex (List.filter active (players gs)) (currentPlayerIndex hs))
    as [currentPlayer|]; [|by eapply Hkeep].
  destruct (negb (hasId playerId_ currentPlayer)); [by eapply Hkeep|].
  destruct (hasActed player && negb (isAllIn player)); [by eapply Hkeep|].
  destruct (applyAction hs player action) as [[[p' hs'] raised]|] eqn:Eact;
    [|by eapply Hkeep].
  clear Hkeep. apply atIndex_lookup in Eplayer.
  pose proof (Forall_lookup_1 _ _ _ _ Hps Eplayer) as Hseat.
  destruct (applyAction_sound hs player action p' hs' raised Hseat Hhs Eact)
    as (Hstake & Hseat' & Hpots & Hbet).
  set (ps1 := <[Z.to_nat (findIndex (hasId playerId_) (players gs)) := p']> (players gs))
    in *.
  set (ps2 := if raised then resetOthers (id player) ps1 else ps1) in *.
  assert (Hps2 : Forall seated ps2 /\ map stake ps2 = map stake (players gs)).
  { assert (H1 : Forall seated ps1) by (by apply Forall_insert).
    assert (H2 : map stake ps1 = map stake (players gs))
      by (by apply (map_insert_same stake _ _ player)).
    unfold ps2. destruct raised; [|done].
    split; [by apply resetOthers_seated|by rewrite resetOthers_stake]. }
  destruct Hps2 as [Hseated2 Hstake2].
  assert (Hdone : forall hsF c0,
            (setHandState hsF (setPlayers ps2 gs), c0) = (gs', c) ->
            potManager hsF = potManager hs' -> hs_currentBet hsF = hs_currentBet hs' ->
            Forall seated (players gs')
            /\ (forall hs0, handState gs' = Some hs0 -> 0 <= hs_currentBet hs0)
            /\ map stake (players gs') = map stake (players gs)
            /\ potsOf gs' = potsOf gs).
  { intros hsF c0 [= <- <-] HP HB. unfold potsOf. simpl. rewrite Ehs.
    repeat split; try done; [|congruence].
    intros ? [= <-]. lia. }
  destruct (skipOut ps2 (length ps2) _) as [next| |].
  - destruct (atIndex ps2 next); by eapply (Hdone _ _ Hrun).
  - by eapply (Hdone _ _ Hrun).
  - by eapply (Hdone _ _ Hrun).
Qed.

Lemma chipsTotal_zeroed ps : chipsTotal (map (setCurrentBet 0) ps) = chipsTotal ps.
Proof. unfold chipsTotal. rewrite map_map. done. Qed.

Lemma betsTotal_zeroed ps : betsTotal (map (setCurrentBet 0) ps) = 0.
Proof. unfold betsTotal. induction ps as [|p ps IH]; simpl; [done|]. by rewrite IH. Qed.

(** Collecting the bets of a room moves them into the pots. *)
Lemma collectRound_sound gs hs :
  handState gs = Some hs -> Forall seated (players gs) ->
  exists pots1,
    collectRound gs hs =
      Some (setHandState (setPotManager pots1 hs)
              (setPlayers (map (setCurrentBet 0) (players gs)) gs),
            setPotManager pots1 hs)
    /\ potsAmount pots1 = potsAmount (potManager hs) + betsTotal (players gs).
Proof.
  intros Hhs Hps.
  destruct (collectBets_total (players gs) (potManager hs))
    as (ps1 & pots1 & Hrun & _ & -> & Hsum & _).
  { eapply Forall_impl; [exact Hps|]. by intros p [_ ?]. }
  exists pots1. unfold collectRound. rewrite Hrun. simpl. split; [done|lia].
Qed.

Lemma seated_zeroed ps : Forall seated ps -> Forall seated (map (setCurrentBet 0) ps).
Proof.
  intros H. apply Forall_map. eapply Forall_impl; [exact H|].
  intros p [? ?]. by split.
Qed.

Lemma collected_total gs hs pots1 :
  handState gs = Some hs ->
  potsAmount pots1 = potsAmount (potManager hs) + betsTotal (players gs) ->
  totalChips (setHandState (setPotManager pots1 hs)
                (setPlayers (map (setCurrentBet 0) (players gs)) gs))
  = totalChips gs.
Proof.
  intros Hhs Hsum. unfold totalChips, potsOf. simpl.
  rewrite Hhs, chipsTotal_zeroed, betsTotal_zeroed. lia.
Qed.

Lemma nextStreet_sound gs hs cards_ deck_ phase_ :
  handState gs = Some hs ->
  Forall (fun p => seated p /\ currentBet p = 0) (players gs) ->
  let gs' := fst (nextStreet gs hs cards_ deck_ phase_) in
  wellFormed gs' /\ totalChips gs' = totalChips gs.
Proof.
  intros Hhs Hps.
  set (ps2 := map (fun p => if active p then resetForNewBettingRound p else p) (players gs)).
  assert (Hchips : chipsTotal ps2 = chipsTotal (players gs)).
  { unfold ps2, chipsTotal. rewrite map_map. apply f_equal, map_ext.
    intros p. by destruct (active p). }
  assert (Hbets : betsTotal ps2 = betsTotal (players gs)).
  { unfold ps2, betsTotal. rewrite map_map. f_equal.
    apply map_ext_Forall. eapply Forall_impl; [exact Hps|].
    intros p [_ Hz]. cbn beta. destruct (active p); [|done]. by rewrite Hz. }
  assert (Hseated : Forall seated ps2).
  { unfold ps2. apply Forall_map. eapply Forall_impl; [exact Hps|].
    intros p [[? ?] _]. cbn beta. destruct (active p); split; done. }
  assert (Hdone : forall hsF (c0 : completion),
            potManager hsF = potManager hs -> hs_currentBet hsF = 0 ->
            let gs' := fst (setHandState hsF (setPlayers ps2 (setDeck deck_ gs)), c0) in
            wellFormed gs' /\ totalChips gs' = totalChips gs).
  { intros hsF c0 HP HB. simpl. split.
    - split; [done|]. simpl. intros ? [= <-]. lia.
    - unfold totalChips, potsOf. simpl. rewrite Hhs, Hchips, Hbets, HP. done. }
  unfold nextStreet. fold ps2.
  destruct (atIndex _ (dealerIndex hs)) as [dealerId|]; [|by apply Hdone].
  destruct (seekIn ps2 (length ps2) _) as [next| |]; try by apply Hdone.
  destruct (atIndex ps2 next); by apply Hdone.
Qed.

Lemma advancePhase_some hs deckCards :
  phase hs <> river -> exists r, advancePhase hs deckCards = Some r.
Proof.
  intros Hne. unfold advancePhase. destruct (phase hs); try done.
  - destruct (dealCards 3 deckCards). eauto.
  - destruct (deal deckCards). eauto.
  - destruct (deal deckCards). eauto.
  - eauto.
Qed.

Lemma processBettingRound_sound gs :
  wellFormed gs -> settles gs = false ->
  let gs' := fst (processBettingRound gs) in
  wellFormed gs' /\ totalChips gs' = totalChips gs.
Proof.
  intros Hwf Hset. pose proof Hwf as [Hps Hhsb].
  unfold processBettingRound. unfold settles in Hset.
  destruct (handState gs) as [hs|] eqn:Ehs; [|done].
  apply orb_false_iff in Hset as [Hmany Hriver]. rewrite Hmany.
  destruct (roundComplete hs (List.filter active (players gs))) eqn:Hcomplete; [|done].
  simpl in Hriver. apply bool_decide_eq_false in Hriver.
  destruct (collectRound_sound gs hs Ehs Hps) as (pots1 & Hrun & Hsum).
  rewrite Hrun.
  destruct (advancePhase_some (setPotManager pots1 hs)
              (deck (setHandState (setPotManager pots1 hs)
                       (setPlayers (map (setCurrentBet 0) (players gs)) gs))) Hriver)
    as ([[cards_ deck_] phase_] & ->).
  rewrite <- (collected_total gs hs pots1 Ehs Hsum).
  apply nextStreet_sound; [done|]. simpl.
  apply Forall_map. eapply Forall_impl; [exact Hps|]. intros p [? ?]. done.
Qed.

Lemma engineStep_sound gs gs' :
  wellFormed gs -> engineStep gs gs' ->
  wellFormed gs' /\ totalChips gs' = totalChips gs.
Proof.
  intros Hwf Hstep. pose proof Hwf as [Hps Hhsb].
  destruct Hstep as [gs playerId_ action|gs Hset|gs hs gs1 hs1 Ehs Hrun].
  - destruct (handlePlayerAction gs playerId_ action) as [gs' c] eqn:E.
    destruct (handlePlayerAction_sound _ _ _ _ _ E Hps Hhsb) as (H1 & H2 & H3 & H4).
    simpl. split; [by split|]. by rewrite !totalChips_stakes, H3, H4.
  - by apply processBettingRound_sound.
  - destruct (collectRound_sound gs hs Ehs Hps) as (pots1 & Hrun' & Hsum).
    rewrite Hrun' in Hrun. injection Hrun as <- <-.
    split; [|by apply collected_total].
    split; [by apply seated_zeroed|]. simpl. intros ? [= <-]. simpl. by apply Hhsb.
Qed.

Lemma dealHands_fields ps deckCards :
  Forall2 (fun p p' => exists h, p' = setHand h p) ps (fst (dealHands ps deckCards)).
Proof.
  revert deckCards. induction ps as [|p ps IH]; intros deckCards; [constructor|].
  cbn [dealHands]. destruct (dealCards 2 deckCards) as [cs d1].
  specialize (IH d1). destruct (dealHands ps d1) as [rest d2]. cbn [fst] in *.
  constructor; [eauto|done].
Qed.

Lemma dealt_reset_located (f : Player -> bool) ps ps' i :
  (forall p h, f (setHand h (resetForNewHand p)) = f p) ->
  Forall2 (fun p p' => exists h, p' = setHand h p) (map resetForNewHand ps) ps' ->
  length (locatedFrom f i ps') = length (locatedFrom f i ps).
Proof.
  intros Hf. revert ps' i. induction ps as [|p ps IH]; intros ps' i H; simpl in H.
  - by inversion H.
  - inversion H as [|? p' ? rest (h & ->) Hrest]; subst. simpl.
    rewrite Hf. destruct (f p); simpl; by rewrite (IH rest (S i) Hrest).
Qed.

Lemma locatedFrom_lookup {A : Type} (f : A -> bool) (l : list A) i k x :
  (k, x) ∈ locatedFrom f i l -> (i <= k)%nat /\ l !! (k - i)%nat = Some x.
Proof.
  revert i. induction l as [|y l IH]; intros i H; simpl in H.
  - by apply elem_of_nil in H.
  - assert (Hrest : (k, x) ∈ locatedFrom f (S i) l ->
                    (i <= k)%nat /\ (y :: l) !! (k - i)%nat = Some x).
    { intros H'. destruct (IH _ H') as [Hle Hl]. split; [lia|].
      replace (k - i)%nat with (S (k - S i)) by lia. done. }
    destruct (f y); [|by apply Hrest].
    apply elem_of_cons in H as [[= -> ->]|H]; [|by apply Hrest].
    split; [lia|]. by rewrite Nat.sub_diag.
Qed.

Lemma located_lookup {A : Type} (f : A -> bool) (l : list A) k x :
  (k, x) ∈ located f l -> l !! k = Some x.
Proof.
  intros H. destruct (locatedFrom_lookup f l 0 k x H) as [_ Hl].
  by rewrite Nat.sub_0_r in Hl.
Qed.

Lemma dealt_reset_seated ps ps' :
  Forall (fun p => 0 <= chips p) ps ->
  Forall2 (fun p p' => exists h, p' = setHand h p) (map resetForNewHand ps) ps' ->
  Forall (fun p => seated p /\ currentBet p = 0) ps'
  /\ sumZ (map stake ps') = chipsTotal ps.
Proof.
  intros Hnn. revert ps'. induction Hnn as [|p ps Hp _ IH]; intros ps' H; simpl in H.
  - inversion H. by split.
  - inversion H as [|? p' ? rest (h & ->) Hrest]; subst.
    destruct (IH rest Hrest) as [H1 H2]. split.
    + constructor; [|done]. by repeat split.
    + simpl. rewrite H2. unfold chipsTotal, stake. simpl. lia.
Qed.

Lemma seated_bet amount p : 0 <= amount -> seated p -> seated (snd (bet amount p)).
Proof.
  intros Ha [Hc Hb]. unfold seated. rewrite bet_chips, bet_currentBet. lia.
Qed.

(** Blind posting: a hand that starts holds exactly the chips the seats
    brought to it. *)
Lemma startHand_sound gs shuffled :
  Forall (fun p => 0 <= chips p) (players gs) -> handStarts gs ->
  let gs' := fst (startHand gs shuffled) in
  wellFormed gs' /\ totalChips gs' = chipsTotal (players gs).
Proof.
  intros Hnn [Hseats Hfunded]. unfold startHand. rewrite Hseats.
  pose proof (dealHands_fields (map resetForNewHand (players gs)) shuffled) as Hdealt.
  destruct (dealHands (map resetForNewHand (players gs)) shuffled) as [ps2 deck_].
  simpl in Hdealt.
  assert (Hlen : length (located (fun p => 0 <? chips p) ps2)
                 = length (located (fun p => 0 <? chips p) (players gs))).
  { by apply dealt_reset_located. }
  rewrite Hlen, Hfunded.
  destruct (dealt_reset_seated _ _ Hnn Hdealt) as [Hps2 Hstake2].
  assert (Hseated2 : Forall seated ps2).
  { eapply Forall_impl; [exact Hps2|]. by intros p [? _]. }
  set (actives := located (fun p => 0 <? chips p) ps2).
  set (n := Z.of_nat (length (located (fun p => 0 <? chips p) (players gs)))).
  set (dealer := Z.rem (gs_dealerIndex gs + 1) n).
  set (sb := Z.rem (dealer + 1) n). set (bb := Z.rem (sb + 1) n).
  assert (Hthrew : forall hsF (c0 : completion),
            potManager hsF = newPots -> hs_currentBet hsF = 0 ->
            let gs' := fst (setHandState hsF
                              (setDealerIndex dealer (setDeck deck_ (setPlayers ps2 gs))), c0) in
            wellFormed gs' /\ totalChips gs' = chipsTotal (players gs)).
  { intros hsF c0 HP HB. simpl. split.
    - split; [done|]. simpl. intros ? [= <-]. lia.
    - rewrite totalChips_stakes. unfold potsOf. simpl. rewrite HP, Hstake2.
      unfold potsAmount. simpl. lia. }
  assert (Hchips : forall i k x, atIndex actives i = Some (k, x) -> 0 <= chips x).
  { intros i k x H. apply atIndex_lookup, list_elem_of_lookup_2, located_lookup in H.
    by destruct (Forall_lookup_1 _ _ _ _ Hseated2 H). }
  destruct (atIndex actives sb) as [[sbSeat sbPlayer]|] eqn:Esb; [|by apply Hthrew].
  destruct (atIndex actives bb) as [[bbSeat bbPlayer]|] eqn:Ebb; [|by apply Hthrew].
  pose proof (Hchips _ _ _ Esb) as Hsbc. pose proof (Hchips _ _ _ Ebb) as Hbbc.
  simpl. split.
  - split; simpl.
    + apply Forall_alter; [|intros x _ Hx; apply seated_bet; [lia|done]].
      apply Forall_alter; [done|intros x _ Hx; apply seated_bet; [lia|done]].
    + intros ? [= <-]. simpl. lia.
  - rewrite totalChips_stakes. unfold potsOf. simpl.
    rewrite !map_alter_same by (intros; apply bet_stake).
    rewrite Hstake2. unfold potsAmount. simpl. lia.
Qed.

Lemma reachable_sound start gs :
  wellFormed start -> reachable start gs ->
  wellFormed gs /\ totalChips gs = totalChips start.
Proof.
  intros Hwf Hreach. induction Hreach as [|gs gs' _ [IHwf IHtotal] Hstep]; [done|].
  destruct (engineStep_sound gs gs' IHwf Hstep) as [H1 H2].
  split; [done|]. by rewrite H2.
Qed.

Lemma reach_to start gs gs' gs'' :
  reachable start gs -> engineStep gs gs'' -> gs'' = gs' -> reachable start gs'.
Proof. intros H Hstep <-. by eapply reach_step. Qed.

Lemma riverChecked_reachable : reachable (fst (startHand lobby initialize)) riverChecked.
Proof.
  assert (Hchecks : forall gs gs',
            reachable (fst (startHand lobby initialize)) gs ->
            checkAround gs = gs' ->
            reachable (fst (startHand lobby initialize)) gs').
  { intros gs gs' H <-. unfold checkAround.
    eapply reach_step; [eapply reach_step; [exact H|]|]; apply step_action. }
  apply (Hchecks onRiver); [|vm_compute; reflexivity].
  apply (reach_to _ turnChecked _ _ (Hchecks onTurn _
           (reach_to _ flopChecked _ _ (Hchecks onFlop _
              (reach_to _ afterCheck _ _
                 (reach_to _ afterCall _ _
                    (reach_to _ firstHand _ _ (reach_start _)
                       (step_action firstHand "A" Call) ltac:(vm_compute; reflexivity))
                    (step_action afterCall "B" Check) ltac:(vm_compute; reflexivity))
                 (step_round afterCheck ltac:(vm_compute; reflexivity))
                 ltac:(vm_compute; reflexivity))
              ltac:(vm_compute; reflexivity))
              (step_round flopChecked ltac:(vm_compute; reflexivity))
              ltac:(vm_compute; reflexivity))
           ltac:(vm_compute; reflexivity))
           (step_round turnChecked ltac:(vm_compute; reflexivity))
           ltac:(vm_compute; reflexivity)).
Qed.

(** C1.  Chip conservation fails at the payout.  The sample hand (Alice
    and Bob with 1000 chips each, the blinds posted, the hand checked down
    to the river) reaches the end of the river holding the 2000 chips it
    started with.  There [processBettingRound] settles the hand: [endHand]
    adds the pot of 40 to the winner's chips and leaves the 40 in the pot
    manager, after which chips, bets and pots add up to 2040.  So the sum is
    not the same after every step of the engine. *)
Theorem conservation_fails_at_showdown :
  reachable (fst (startHand lobby initialize)) riverChecked
  /\ totalChips riverChecked = chipsTotal (players lobby)
  /\ snd (processBettingRound riverChecked) = Returned
  /\ totalChips (fst (processBettingRound riverChecked)) = chipsTotal (players lobby) + 40
  /\ ~ (forall gs : GameState,
          reachable (fst (startHand lobby initialize)) gs ->
          totalChips (fst (processBettingRound gs)) = chipsTotal (players lobby)).
Proof.
  split; [exact riverChecked_reachable|].
  split; [vm_compute; reflexivity|]. split; [vm_compute; reflexivity|].
  split; [vm_compute; reflexivity|].
  intros H. specialize (H riverChecked riverChecked_reachable).
  vm_compute in H. discriminate H.
Qed.

(** ** Settlement *)

Lemma applyPayouts_app L1 L2 ps :
  applyPayouts (L1 ++ L2) ps = applyPayouts L2 (applyPayouts L1 ps).
Proof. unfold applyPayouts. apply fold_left_app. Qed.

Lemma addChips_addChips a b p : addChips a (addChips b p) = addChips (b + a) p.
Proof. unfold addChips, setChips. destruct p. simpl. f_equal. lia. Qed.

Lemma addChips_zero p : addChips 0 p = p.
Proof. unfold addChips. destruct p. simpl. unfold setChips. simpl. f_equal. lia. Qed.

Lemma applyPayouts_lookup L ps i :
  applyPayouts L ps !! i = addChips (gain L i) <$> ps !! i.
Proof.
  revert ps. induction L as [|[k s] L IH]; intros ps.
  - simpl. destruct (ps !! i) as [p|]; simpl; [|done]. by rewrite addChips_zero.
  - change (applyPayouts ((k, s) :: L) ps) with (applyPayouts L (alter (addChips s) k ps)).
    rewrite IH, list_lookup_alter. unfold gain. cbn [List.filter fst snd].
    destruct (decide (k = i)) as [->|Hne].
    + rewrite Nat.eqb_refl. cbn [map sumZ].
      destruct (ps !! i) as [p|]; simpl; [|done]. by rewrite addChips_addChips.
    + apply Nat.eqb_neq in Hne. rewrite Hne. done.
Qed.

Lemma applyPayouts_length L ps : length (applyPayouts L ps) = length ps.
Proof.
  revert ps. induction L as [|[k s] L IH]; intros ps; [done|].
  change (applyPayouts ((k, s) :: L) ps) with (applyPayouts L (alter (addChips s) k ps)).
  by rewrite IH, length_alter.
Qed.

Lemma fold_payWinner share_ potIndex_ winners_ ps ws :
  fold_left (payWinner share_ potIndex_) winners_ (ps, ws) =
  (applyPayouts (map (fun w => (seat w, share_)) winners_) ps,
   ws ++ map (fun w => mkWinner (seatId w) (seatName w) (evaluation w) share_
                         (Some potIndex_)) winners_).
Proof.
  revert ps ws. induction winners_ as [|w winners_ IH]; intros ps ws; simpl.
  - by rewrite app_nil_r.
  - unfold payWinner at 2. simpl. rewrite IH. by rewrite <- app_assoc.
Qed.

(** A pot is settled by payouts that do not depend on the players' chips. *)
Lemma settlePot_payouts evaluations ws c indexedPot :
  exists L ws' c', forall ps,
    settlePot evaluations (ps, ws, c) indexedPot = (applyPayouts L ps, ws', c').
Proof.
  destruct indexedPot as [potIndex_ pot_]. unfold settlePot.
  destruct (negb (bool_decide (c = Returned))); [by exists [], ws, c|].
  destruct (amount pot_ =? 0); [by exists [], ws, c|].
  destruct (mapM entryScore _) as [[|s0 scores]|]; [by exists [], ws, c| |by exists [], ws, Threw].
  eexists _, _, _. intros ps. rewrite fold_payWinner. reflexivity.
Qed.

Lemma settlePots_payouts evaluations indexedPots ws c :
  exists L ws' c', forall ps,
    fold_left (settlePot evaluations) indexedPots (ps, ws, c) = (applyPayouts L ps, ws', c').
Proof.
  revert ws c. induction indexedPots as [|ip rest IH]; intros ws c.
  - by exists [], ws, c.
  - destruct (settlePot_payouts evaluations ws c ip) as (L1 & ws1 & c1 & H1).
    destruct (IH ws1 c1) as (L2 & ws2 & c2 & H2).
    exists (L1 ++ L2), ws2, c2. intros ps. cbn [fold_left].
    by rewrite H1, H2, applyPayouts_app.
Qed.

Lemma evaluateSeat_sameRef community r r' :
  sameRef r r' -> evaluateSeat community r = evaluateSeat community r'.
Proof.
  intros [Hi (Hid & Hname & Hhand & _)]. unfold evaluateSeat.
  by rewrite Hi, Hid, Hname, Hhand.
Qed.

Lemma mapM_evaluateSeat_sameRef community refs refs' :
  Forall2 sameRef refs refs' ->
  mapM (evaluateSeat community) refs = mapM (evaluateSeat community) refs'.
Proof.
  induction 1 as [|r r' refs refs' Hr _ IH]; [done|].
  simpl. by rewrite (evaluateSeat_sameRef _ _ _ Hr), IH.
Qed.

(** A settlement that returned is a list of payouts, and any settlement of
    the same seats and pots makes the same payouts. *)
Lemma settle_payouts community refs ps pots old ps2 ws :
  settle community refs ps pots old = (ps2, ws, Returned) ->
  exists L,
    ps2 = applyPayouts L ps
    /\ forall refs' ps' old',
         Forall2 sameRef refs refs' ->
         settle community refs' ps' pots old' = (applyPayouts L ps', ws, Returned).
Proof.
  unfold settle. intros Hrun.
  destruct refs as [|[only winner] [|r2 refs]].
  - (* nobody left *)
    simpl in Hrun.
    destruct (settlePots_payouts [] (indexed pots) [] Returned) as (L & ws' & c' & HL).
    rewrite HL in Hrun. injection Hrun as <- <- ->.
    exists L. split; [done|]. intros refs' ps' old' Hrefs. inversion Hrefs; subst.
    simpl. by rewrite HL.
  - (* a single survivor *)
    injection Hrun as <- <-.
    exists [(only, fold_left (fun t pot_ => t + amount pot_) pots 0)].
    split; [done|]. intros refs' ps' old' Hrefs.
    inversion Hrefs as [|? [only' winner'] ? rest' [Hi (Hid & Hname & _)] Hrest]; subst.
    inversion Hrest; subst. cbn [fst snd] in Hi, Hid, Hname. subst only'.
    by rewrite Hid, Hname.
  - (* showdown *)
    set (refs0 := (only, winner) :: r2 :: refs) in *.
    destruct (mapM (evaluateSeat community) refs0) as [evaluations|] eqn:Eev; [|done].
    destruct (settlePots_payouts evaluations (indexed pots) [] Returned)
      as (L & ws' & c' & HL).
    rewrite HL in Hrun. injection Hrun as <- <- ->.
    exists L. split; [done|]. intros refs' ps' old' Hrefs.
    rewrite <- (mapM_evaluateSeat_sameRef community _ _ Hrefs), Eev.
    unfold refs0 in Hrefs.
    inversion Hrefs as [|? [o1 w1] ? rest1 _ Hrest1]; subst.
    inversion Hrest1 as [|? r2' ? rest2 _ _]; subst.
    by rewrite HL.
Qed.

Lemma located_sameRef (f : Player -> bool) ps ps' i :
  (forall p p', sameCards p p' -> f p = f p') ->
  Forall2 sameCards ps ps' ->
  Forall2 sameRef (locatedFrom f i ps) (locatedFrom f i ps').
Proof.
  intros Hf H. revert i. induction H as [|p p' ps ps' Hp _ IH]; intros i; simpl.
  - constructor.
  - rewrite <- (Hf p p' Hp). destruct (f p); [|apply IH].
    constructor; [by split|apply IH].
Qed.

Lemma collectBets_idle ps pots :
  Forall (fun p => currentBet p = 0) ps -> collectBets ps pots = Some (ps, pots).
Proof.
  intros Hz. unfold collectBets.
  assert (selected (map hasBet ps) ps = []) as ->; [|done].
  induction Hz as [|p ps Hp _ IH]; [done|]. simpl.
  unfold hasBet at 1. rewrite Hp. simpl. exact IH.
Qed.

Lemma paid_players L ps :
  let ps' := applyPayouts L (map (setCurrentBet 0) ps) in
  Forall2 sameCards ps ps' /\ Forall (fun p => currentBet p = 0) ps'.
Proof.
  simpl. split.
  - apply Forall2_same_length_lookup_2.
    + by rewrite applyPayouts_length, length_map.
    + intros i p p' Hp Hp'. rewrite applyPayouts_lookup in Hp'.
      change (map (setCurrentBet 0) ps) with (setCurrentBet 0 <$> ps) in Hp'.
      rewrite list_lookup_fmap, Hp in Hp'. simpl in Hp'. by injection Hp' as <-.
  - apply Forall_lookup_2. intros i p' Hp'. rewrite applyPayouts_lookup in Hp'.
    change (map (setCurrentBet 0) ps) with (setCurrentBet 0 <$> ps) in Hp'.
    rewrite list_lookup_fmap in Hp'. destruct (ps !! i) as [p|]; [|done].
    simpl in Hp'. by injection Hp' as <-.
Qed.

Lemma sameCards_notFolded p p' :
  sameCards p p' -> negb (hasFolded p) = negb (hasFolded p').
Proof. by intros (_ & _ & _ & ->). Qed.

(** Settlement run twice: the second run finds the bets collected and the
    pots as the first run left them, and repeats the payouts of the first. *)
Lemma endHand_twice gs gs1 :
  Forall (fun p => 0 <= currentBet p) (players gs) ->
  endHand gs = (gs1, Returned) ->
  exists gs2,
    endHand gs1 = (gs2, Returned)
    /\ handState gs2 = handState gs1
    /\ length (players gs1) = length (players gs)
    /\ length (players gs2) = length (players gs)
    /\ forall i p0 p1 p2,
         players gs !! i = Some p0 -> players gs1 !! i = Some p1 ->
         players gs2 !! i = Some p2 ->
         chips p2 - chips p1 = chips p1 - chips p0.
Proof.
  intros Hnn Hrun. unfold endHand in Hrun.
  destruct (handState gs) as [hs|] eqn:Ehs.
  2:{ injection Hrun as <-. exists gs. unfold endHand. rewrite Ehs.
      repeat split; try done. intros i p0 p1 p2 H0 H1 H2.
      rewrite H0 in H1, H2. injection H1 as <-. injection H2 as <-. lia. }
  destruct (collectBets_total (players gs) (potManager hs) Hnn)
    as (ps1 & pots1 & Hcollect & _ & -> & _).
  unfold collectRound in Hrun. rewrite Hcollect in Hrun. cbn [mbind option_bind] in Hrun.
  cbn [players setPlayers setHandState potManager setPotManager communityCards winners]
    in Hrun.
  set (refs := located (fun p => negb (hasFolded p)) (players gs)) in *.
  set (ps1 := map (setCurrentBet 0) (players gs)) in *.
  destruct (settle (communityCards hs) refs ps1 pots1 (winners hs)) as [[ps2 ws] c] eqn:Esettle.
  destruct c; try (by injection Hrun). injection Hrun as <-.
  destruct (settle_payouts _ _ _ _ _ _ _ Esettle) as (L & -> & Hagain).
  destruct (paid_players L (players gs)) as [Hsame Hzero]. fold ps1 in Hsame, Hzero.
  eexists. split; [|split; [|split; [|split]]].
  - unfold endHand.
    cbn [handState setHandState players setPlayers]. unfold collectRound.
    cbn [potManager setPhase setWinners setPotManager players setPlayers setHandState].
    rewrite (collectBets_idle _ pots1 Hzero). cbn [mbind option_bind].
    cbn [players setPlayers setHandState potManager setPotManager communityCards winners
         setPhase setWinners].
    rewrite (Hagain _ (applyPayouts L ps1) ws).
    + reflexivity.
    + apply located_sameRef; [apply sameCards_notFolded|done].
  - reflexivity.
  - cbn [players setPlayers setHandState]. unfold ps1.
    by rewrite applyPayouts_length, length_map.
  - cbn [players setPlayers setHandState]. unfold ps1.
    by rewrite !applyPayouts_length, length_map.
  - cbn [players setPlayers setHandState]. intros i p0 p1 p2 H0 H1 H2.
    rewrite applyPayouts_lookup in H2. rewrite H1 in H2. injection H2 as <-.
    rewrite applyPayouts_lookup in H1. unfold ps1 in H1.
    change (map (setCurrentBet 0) (players gs)) with (setCurrentBet 0 <$> players gs) in H1.
    rewrite list_lookup_fmap, H0 in H1. injection H1 as <-. simpl. lia.
Qed.



(** C4.  Settlement run twice pays twice.  With Alice and Bob both in the
    hand at the end of the river, holding 980 chips each and a pot of 40,
    [endHand] brings their chips to 1020 and 980; run again on the state it
    left, it leaves the hand state as it was and brings the chips to 1060
    and 980.  In a running hand the second settlement is reached through
    [processBettingRound], which settles whenever at most one player is
    active: after Alice's fold Bob is paid the 30 in the pot and holds
    1010; Bob's call, taken although the hand is over, is followed by a
    second settlement that leaves him 1040. *)
Theorem settlement_not_idempotent :
  (2 <= length (located (fun p => negb (hasFolded p)) (players riverChecked)))%nat
  /\ map chips (players riverChecked) = [980; 980]
  /\ snd (endHand riverChecked) = Returned
  /\ map chips (players (fst (endHand riverChecked))) = [1020; 980]
  /\ snd (endHand (fst (endHand riverChecked))) = Returned
  /\ handState (fst (endHand (fst (endHand riverChecked))))
     = handState (fst (endHand riverChecked))
  /\ map chips (players (fst (endHand (fst (endHand riverChecked))))) = [1060; 980]
  /\ map chips (players (fst (processBettingRound afterFold))) = [990; 1010]
  /\ map chips
       (players (fst (processBettingRound
                        (fst (handlePlayerAction (fst (processBettingRound afterFold))
                                "B" Call)))))
     = [990; 1040]
  /\ ~ (forall gs : GameState,
          (2 <= length (located (fun p => negb (hasFolded p)) (players gs)))%nat ->
          map chips (players (fst (endHand (fst (endHand gs)))))
          = map chips (players (fst (endHand gs)))).
Proof.
  assert (Hlen : (2 <= length (located (fun p => negb (hasFolded p))
                                 (players riverChecked)))%nat).
  { vm_compute. lia. }
  split; [exact Hlen|].
  do 8 (split; [vm_compute; reflexivity|]).
  intros H. specialize (H riverChecked Hlen). vm_compute in H. discriminate H.
Qed.

(** ** Deck *)

Lemma swapAt_perm {A : Type} (i j : nat) (l : list A) : swapAt i j l ≡ₚ l.
Proof.
  unfold swapAt. destruct (l !! i) as [x|] eqn:Ei; [|done].
  destruct (l !! j) as [y|] eqn:Ej; [|done].
  by apply Permutation_insert_swap.
Qed.

Lemma shuffleFrom_perm draw i deckCards : shuffleFrom draw i deckCards ≡ₚ deckCards.
Proof.
  revert deckCards. induction i as [|i IH]; intros deckCards; simpl; [done|].
  by rewrite IH, swapAt_perm.
Qed.

Lemma initialize_NoDup : NoDup initialize.
Proof. apply (bool_decide_unpack _). vm_compute. exact I. Qed.

Lemma initialize_complete c : c ∈ initialize.
Proof.
  apply list_elem_of_In. destruct c as [r s].
  unfold initialize. apply in_flat_map. exists s. split; [destruct s; simpl; tauto|].
  apply (in_map (fun r0 => mkCard r0 s)). destruct r; simpl; tauto.
Qed.

(** X1.  A new deck after [shuffle()], whatever the random draws (each
    within 0..i), is a rearrangement of the 52 cards of [initialize()]: it
    holds every card of the domain and none twice. *)
Theorem freshDeck_is_full_deck (draw : nat -> nat) :
  (forall i, (draw i <= i)%nat) ->
  freshDeck draw ≡ₚ initialize
  /\ length (freshDeck draw) = 52%nat
  /\ NoDup (freshDeck draw)
  /\ forall c : Card, c ∈ freshDeck draw.
Proof.
  intros _. assert (H : freshDeck draw ≡ₚ initialize) by apply shuffleFrom_perm.
  split; [done|]. split; [by rewrite H|]. split.
  - rewrite H. apply initialize_NoDup.
  - intros c. rewrite H. apply initialize_complete.
Qed.

Lemma freshDeck_is_full_deck_witness :
  (forall i, ((fun _ => 0%nat) i <= i)%nat) /\ length (freshDeck (fun _ => 0%nat)) = 52%nat.
Proof.
  assert (H : forall i, ((fun _ : nat => 0%nat) i <= i)%nat) by (intros i; simpl; lia).
  split; [exact H|]. exact (proj1 (proj2 (freshDeck_is_full_deck _ H))).
Defined.

Lemma snoc_cases {A : Type} (l : list A) : l = [] \/ exists l' x, l = l' ++ [x].
Proof. destruct l as [|x l] using rev_ind; [by left|right; eauto]. Qed.

Lemma dealCards_shape (count : nat) (deckCards : list Card) :
  dealCards count deckCards =
  ((Some <$> reverse (drop (length deckCards - count) deckCards))
     ++ replicate (count - length deckCards) None,
   take (length deckCards - count) deckCards).
Proof.
  revert deckCards. induction count as [|n IH]; intros deckCards.
  - simpl. rewrite Nat.sub_0_r, drop_all, take_ge by lia. done.
  - cbn [dealCards]. unfold deal.
    destruct (snoc_cases deckCards) as [->|(d & x & ->)].
    + cbn [last removelast]. rewrite IH. cbn [length]. rewrite !drop_nil, !take_nil.
      rewrite Nat.sub_0_r. done.
    + rewrite last_snoc, removelast_last, IH. rewrite length_app. simpl.
      replace (length d + 1 - S n)%nat with (length d - n)%nat by lia.
      replace (S n - (length d + 1))%nat with (n - length d)%nat by lia.
      destruct (decide (n <= length d)%nat) as [Hle|Hgt].
      * rewrite drop_app_le, take_app_le by lia.
        rewrite reverse_app. done.
      * replace (length d - n)%nat with 0%nat by lia.
        rewrite !drop_0, !take_0, reverse_snoc. done.
Qed.

(** X2.  [dealCards(count)] returns [count] entries: the last cards of the
    deck, the last one first, then [undefined] for each card the deck was
    short of; the deck keeps its first [length - count] cards. *)
Theorem dealCards_pops_from_the_end (count : nat) (deckCards : list Card) :
  length (fst (dealCards count deckCards)) = count
  /\ fst (dealCards count deckCards) =
       (Some <$> reverse (drop (length deckCards - count) deckCards))
         ++ replicate (count - length deckCards) None
  /\ snd (dealCards count deckCards) = take (length deckCards - count) deckCards.
Proof.
  rewrite dealCards_shape. cbn [fst snd]. split; [|done].
  rewrite length_app, length_fmap, length_reverse, length_drop, length_replicate. lia.
Qed.

Lemma drop_split {A : Type} (a b : nat) (l : list A) :
  (a <= b)%nat -> (b <= length l)%nat -> drop a l = drop a (take b l) ++ drop b l.
Proof.
  intros Hab Hb. rewrite <- (take_drop b l) at 1.
  rewrite drop_app_le; [done|]. rewrite length_take. lia.
Qed.

Lemma dealHands_shape (ps : list Player) (deckCards : list Card) :
  (2 * length ps <= length deckCards)%nat ->
  Forall2 (fun p p' => p' = setHand (hand p') p /\ length (hand p') = 2%nat)
    ps (fst (dealHands ps deckCards))
  /\ concat (map hand (fst (dealHands ps deckCards)))
     = Some <$> reverse (drop (length deckCards - 2 * length ps) deckCards)
  /\ snd (dealHands ps deckCards) = take (length deckCards - 2 * length ps) deckCards.
Proof.
  revert deckCards. induction ps as [|p ps IH]; intros deckCards Hlen.
  - cbn. rewrite Nat.sub_0_r, drop_all, take_ge by lia. done.
  - cbn [dealHands]. rewrite dealCards_shape. cbn [length] in Hlen.
    replace (2 - length deckCards)%nat with 0%nat by lia.
    cbn [replicate]. rewrite app_nil_r.
    set (d1 := take (length deckCards - 2) deckCards).
    assert (Hd1 : length d1 = (length deckCards - 2)%nat)
      by (unfold d1; rewrite length_take; lia).
    destruct (IH d1) as (H1 & H2 & H3); [lia|].
    destruct (dealHands ps d1) as [rest d2]. cbn [fst snd] in *.
    split; [|split].
    + constructor; [|done]. cbn. split; [done|].
      rewrite length_fmap, length_reverse, length_drop. lia.
    + cbn [map concat hand setHand]. rewrite H2, Hd1. cbn [length].
      replace (length deckCards - 2 - 2 * length ps)%nat
        with (length deckCards - 2 * S (length ps))%nat by lia.
      rewrite (drop_split (length deckCards - 2 * S (length ps)) (length deckCards - 2)
                 deckCards) by lia.
      fold d1. rewrite reverse_app, fmap_app. done.
    + rewrite H3, Hd1. unfold d1. rewrite take_take. cbn [length]. f_equal. lia.
Qed.

(** X3.  When the deck holds two cards for every seat, dealing the hole
    cards gives each player exactly two cards and changes nothing else about
    a player; the hands, in seat order, are the last [2n] cards of the deck
    from the end backwards, and the deck keeps the rest.  From a deck without
    duplicates no card is dealt twice and no dealt card stays in the deck. *)
Theorem dealHands_deals_distinct_cards (ps : list Player) (deckCards : list Card) :
  (2 * length ps <= length deckCards)%nat ->
  let ps' := fst (dealHands ps deckCards) in
  let rest := snd (dealHands ps deckCards) in
  Forall2 (fun p p' => p' = setHand (hand p') p /\ length (hand p') = 2%nat) ps ps'
  /\ concat (map hand ps')
     = Some <$> reverse (drop (length deckCards - 2 * length ps) deckCards)
  /\ rest = take (length deckCards - 2 * length ps) deckCards
  /\ (NoDup deckCards ->
      NoDup (concat (map hand ps'))
      /\ forall c, c ∈ rest -> Some c ∉ concat (map hand ps')).
Proof.
  intros Hlen. cbv zeta. destruct (dealHands_shape ps deckCards Hlen) as (H1 & H2 & H3).
  split; [done|]. split; [done|]. split; [done|].
  intros Hnd. rewrite H2, H3.
  rewrite <- (take_drop (length deckCards - 2 * length ps) deckCards) in Hnd.
  apply NoDup_app in Hnd as (_ & Hdisj & Hdrop). split.
  - apply NoDup_fmap_2; [apply _|]. by rewrite reverse_Permutation.
  - intros c Hc Hin. apply list_elem_of_fmap in Hin as (c' & [= <-] & Hin).
    rewrite elem_of_reverse in Hin. exact (Hdisj c Hc Hin).
Qed.

Lemma dealHands_deals_distinct_cards_witness :
  (2 * length (players lobby) <= length initialize)%nat
  /\ snd (dealHands (players lobby) initialize) = take 48 initialize.
Proof.
  assert (H : (2 * length (players lobby) <= length initialize)%nat) by (vm_compute; lia).
  split; [exact H|].
  exact (proj1 (proj2 (proj2 (dealHands_deals_distinct_cards _ _ H)))).
Defined.

(** ** Combinations *)

Lemma combos_count {A : Type} (k : nat) (l : list A) :
  length (combos k l) = choose (length l) k.
Proof.
  revert k. induction l as [|x l IH]; intros [|k]; try done.
  change (combos (S k) (x :: l)) with (map (cons x) (combos k l) ++ combos (S k) l).
  rewrite length_app, length_map, !IH. done.
Qed.

Lemma combos_sublist {A : Type} (k : nat) (l c : list A) :
  In c (combos k l) -> c `sublist_of` l.
Proof.
  revert k c. induction l as [|x l IH]; intros [|k] c; simpl.
  - intros [<-|[]]. constructor.
  - intros [].
  - intros [<-|[]]. apply sublist_nil_l.
  - rewrite in_app_iff, in_map_iff. intros [(c' & <- & Hc')|Hc].
    + apply sublist_skip. by apply (IH k).
    + apply sublist_cons. by apply (IH (S k)).
Qed.

Lemma combos_complete {A : Type} (l c : list A) :
  c `sublist_of` l -> In c (combos (length c) l).
Proof.
  induction 1 as [|x c l _ IH|x c l _ IH].
  - by left.
  - simpl. apply in_app_iff. left. by apply in_map.
  - destruct c as [|y c]; [rewrite combos_zero; by left|].
    change (combos (length (y :: c)) (x :: l))
      with (map (cons x) (combos (length c) l) ++ combos (length (y :: c)) l).
    apply in_app_iff. by right.
Qed.

(** X4.  [getCombinations(arr, k)] lists the [k]-element sub-sequences of
    [arr]: there are [length arr] choose [k] of them (21 for seven cards and
    [k = 5], none when [k] exceeds the length), each has [k] elements in
    their order in [arr], and every such sub-sequence is listed. *)
Theorem getCombinations_are_the_subsequences {A : Type} (n : nat) (arr : list A) :
  length (getCombinations n arr) = choose (length arr) (S n)
  /\ (forall c, In c (getCombinations n arr) <->
                length c = S n /\ c `sublist_of` arr).
Proof.
  rewrite getCombinations_combos. split; [apply combos_count|].
  intros c. split.
  - intros H. split; [by apply (combos_length _ arr)|by apply (combos_sublist (S n))].
  - intros [Hlen Hsub]. rewrite <- Hlen. by apply combos_complete.
Qed.

(** ** The hand [evaluateHand] returns *)

Lemma evaluateFiveCards_cards (cs : list Card) (e : Evaluation) :
  evaluateFiveCards cs = Some e -> cards e = js_sort byRankDesc cs.
Proof.
  unfold evaluateFiveCards. cbv zeta.
  generalize (js_sort byRankDesc cs). intros srt.
  repeat case_match; intros Hres; simplify_option_eq; done.
Qed.

(** X6.  The [cards] of an evaluation are the cards that were evaluated, in
    descending rank order. *)
Theorem evaluateFiveCards_returns_sorted_input (cs : list Card) (e : Evaluation) :
  evaluateFiveCards cs = Some e ->
  cards e ≡ₚ cs
  /\ Sorted geZ (map (fun c => rankOrder (rank c)) (cards e)).
Proof.
  intros H. rewrite (evaluateFiveCards_cards cs e H). split.
  - apply js_sort_perm.
  - apply (js_sort_sorted (fun c => rankOrder (rank c))).
Qed.

Lemma evaluateFiveCards_returns_sorted_input_witness :
  cards (mkEval Straight 4000005
           [card RA C_; card R5 C_; card R4 S_; card R3 H_; card R2 D_]) ≡ₚ wheel.
Proof.
  assert (H : evaluateFiveCards wheel
              = Some (mkEval Straight 4000005
                        [card RA C_; card R5 C_; card R4 S_; card R3 H_; card R2 D_]))
    by (vm_compute; reflexivity).
  exact (proj1 (evaluateFiveCards_returns_sorted_input _ _ H)).
Defined.

Lemma fold_keepBest_pick (L : list (list Card)) (st : option Evaluation * Z) :
  fst (fold_left keepBest L st) = fst st
  \/ exists c, In c L /\ evaluateFiveCards c = fst (fold_left keepBest L st)
               /\ is_Some (fst (fold_left keepBest L st)).
Proof.
  revert st. induction L as [|c L IH]; intros st; [by left|].
  cbn [fold_left]. destruct (IH (keepBest st c)) as [H|(c' & Hin & H & Hs)].
  - assert (Hk : keepBest st c = st
                 \/ exists e, evaluateFiveCards c = Some e /\ fst (keepBest st c) = Some e).
    { unfold keepBest. destruct (evaluateFiveCards c) as [e|]; [|by left].
      destruct (score e >? snd st); [|by left]. right. by exists e. }
    destruct Hk as [Hk|(e & He & Hk)].
    + left. by rewrite H, Hk.
    + right. exists c. split; [by left|]. rewrite H, Hk. split; [done|by exists e].
  - right. exists c'. split; [by right|done].
Qed.

Lemma fold_bumpScore_elem (L : list (list Card)) (best : Z) (c : list Card) (e : Evaluation) :
  In c L -> evaluateFiveCards c = Some e -> score e <= fold_left bumpScore L best.
Proof.
  revert best. induction L as [|d L IH]; intros best; [intros []|].
  intros [->|Hin] He; cbn [fold_left].
  - pose proof (fold_bumpScore_ge L (bumpScore best c)) as Hge.
    rewrite bumpScore_max, He in Hge. cbn in Hge. rewrite bumpScore_max, He. cbn. lia.
  - by apply IH.
Qed.

Lemma evaluateHand_pick (sevenCards : list Card) :
  (5 <= length sevenCards)%nat ->
  exists combo e,
    evaluateHand sevenCards = Some e
    /\ In combo (combos 5 sevenCards)
    /\ evaluateFiveCards combo = Some e
    /\ forall c e', In c (combos 5 sevenCards) -> evaluateFiveCards c = Some e' ->
                    score e' <= score e.
Proof.
  intros Hlen. destruct (evaluateHand_defined sevenCards) as (e & He & _).
  pose proof (evaluateHand_score sevenCards) as Hs. rewrite He in Hs.
  unfold evaluateHand in He.
  destruct (length sevenCards <? 5)%nat eqn:E; [apply Nat.ltb_lt in E; lia|].
  cbv zeta in Hs. cbn in Hs.
  destruct (fold_left bumpScore (combos 5 sevenCards) 0 =? 0); [done|].
  injection Hs as Hs. rewrite getCombinations_combos in He.
  destruct (fold_keepBest_pick (combos 5 sevenCards) (None, 0)) as [H|(c & Hin & H & _)].
  { rewrite He in H. done. }
  exists c, e. unfold evaluateHand. rewrite E, getCombinations_combos.
  split; [done|]. split; [done|]. split; [by rewrite H|].
  intros c' e' Hin' He'. rewrite Hs. by apply (fold_bumpScore_elem _ _ c').
Qed.

(** X5.  On five or more cards [evaluateHand] returns the evaluation of five
    of the given cards (a sub-sequence of the input), and no five of the
    given cards evaluate to a higher score. *)
Theorem evaluateHand_returns_a_best_five (sevenCards : list Card) :
  (5 <= length sevenCards)%nat ->
  exists combo e,
    evaluateHand sevenCards = Some e
    /\ combo `sublist_of` sevenCards
    /\ length combo = 5%nat
    /\ evaluateFiveCards combo = Some e
    /\ forall c e', c `sublist_of` sevenCards -> length c = 5%nat ->
                    evaluateFiveCards c = Some e' -> score e' <= score e.
Proof.
  intros Hlen. destruct (evaluateHand_pick sevenCards Hlen) as (combo & e & H1 & H2 & H3 & H4).
  exists combo, e. split; [done|]. split; [by apply (combos_sublist 5)|].
  split; [by apply (combos_length 5 sevenCards)|]. split; [done|].
  intros c e' Hsub Hc. apply H4. rewrite <- Hc. by apply combos_complete.
Qed.

Lemma evaluateHand_returns_a_best_five_witness :
  (5 <= length royalWithLowCards)%nat
  /\ exists combo e, evaluateHand royalWithLowCards = Some e
                     /\ combo `sublist_of` royalWithLowCards
                     /\ length combo = 5%nat
                     /\ evaluateFiveCards combo = Some e
                     /\ forall c e', c `sublist_of` royalWithLowCards -> length c = 5%nat ->
                          evaluateFiveCards c = Some e' -> score e' <= score e.
Proof.
  assert (H : (5 <= length royalWithLowCards)%nat) by (vm_compute; lia).
  split; [exact H|]. exact (evaluateHand_returns_a_best_five _ H).
Defined.

(** ** Properties read off the rank patterns *)

Lemma evaluateFiveCards_verdict_congr (c c' : list Card) :
  map rank (js_sort byRankDesc c) = map rank (js_sort byRankDesc c') ->
  every_first (map suit (js_sort byRankDesc c))
  = every_first (map suit (js_sort byRankDesc c')) ->
  verdict <$> evaluateFiveCards c = verdict <$> evaluateFiveCards c'.
Proof.
  intros Hr Hs. unfold evaluateFiveCards. cbv zeta. rewrite Hr, Hs.
  generalize (map rank (js_sort byRankDesc c')) as ranks; intros ranks.
  generalize (every_first (map suit (js_sort byRankDesc c'))) as isFlush; intros isFlush.
  generalize (js_sort byRankDesc c) (js_sort byRankDesc c'). intros srt srt'.
  repeat case_match; simpl; try reflexivity.
  all: repeat (match goal with
               | |- context [List.find ?f ?l] => destruct (List.find f l); simpl
               | |- context [?l !! ?i] => destruct (l !! i); simpl
               | |- context [positional ?b ?l] => destruct (positional b l); simpl
               end); reflexivity.
Qed.

Lemma patternsAll_pattern P flush r1 r2 r3 r4 r5 :
  patternsAll P = true ->
  below r1 r2 = true -> below r2 r3 = true -> below r3 r4 = true -> below r4 r5 = true ->
  P flush [r1; r2; r3; r4; r5]
    (verdict <$> evaluateFiveCards (patternHand flush r1 r2 r3 r4 r5)) = true.
Proof.
  intros H H12 H23 H34 H45.
  unfold patternsAll in H. rewrite forallb_forall in H.
  assert (Hf : In flush [true; false]) by (destruct flush; simpl; tauto).
  specialize (H flush Hf). rewrite forallb_forall in H.
  specialize (H r1 (allRanks_complete r1)). rewrite forallb_forall in H.
  specialize (H r2 (allRanks_complete r2)). rewrite H12 in H.
  rewrite forallb_forall in H.
  specialize (H r3 (allRanks_complete r3)). rewrite H23 in H.
  rewrite forallb_forall in H.
  specialize (H r4 (allRanks_complete r4)). rewrite H34 in H.
  rewrite forallb_forall in H.
  specialize (H r5 (allRanks_complete r5)). rewrite H45 in H.
  exact H.
Qed.

(** What holds of every descending rank pattern holds of every five cards,
    read through their sorted ranks and the flush test. *)
Lemma patternsAll_spec P (cs : list Card) :
  patternsAll P = true -> length cs = 5%nat ->
  P (every_first (map suit cs)) (map rank (js_sort byRankDesc cs))
    (verdict <$> evaluateFiveCards cs) = true.
Proof.
  intros HP Hlen.
  pose proof (js_sort_sorted (fun c => rankOrder (rank c)) cs) as Hsorted.
  pose proof (js_sort_perm byRankDesc cs) as Hperm.
  change (descBy (fun c => rankOrder (rank c))) with byRankDesc in Hsorted.
  assert (Hlen' : length (js_sort byRankDesc cs) = 5%nat)
    by (by rewrite (Permutation_length Hperm)).
  rewrite (every_first_perm (map suit cs) (map suit (js_sort byRankDesc cs)))
    by (by apply Permutation_map).
  destruct (js_sort byRankDesc cs) as [|c1 [|c2 [|c3 [|c4 [|c5 [|c6 rest]]]]]] eqn:Es;
    try discriminate Hlen'. clear Hlen'.
  set (flush := every_first (map suit [c1; c2; c3; c4; c5])).
  set (canon := patternHand flush (rank c1) (rank c2) (rank c3) (rank c4) (rank c5)).
  assert (Hdesc : below (rank c1) (rank c2) = true /\ below (rank c2) (rank c3) = true
                  /\ below (rank c3) (rank c4) = true /\ below (rank c4) (rank c5) = true).
  { simpl in Hsorted. unfold below.
    repeat match goal with
           | H : Sorted _ (_ :: _) |- _ => inversion H; clear H; subst
           | H : HdRel _ _ (_ :: _) |- _ => inversion H; clear H; subst
           end.
    unfold geZ in *. repeat split; apply Z.leb_le; done. }
  destruct Hdesc as (H12 & H23 & H34 & H45).
  assert (Hcanon : js_sort byRankDesc canon = canon).
  { apply (js_sort_sorted_id (fun c => rankOrder (rank c))). unfold canon, patternHand.
    simpl. unfold below in *. apply Z.leb_le in H12, H23, H34, H45.
    repeat constructor; unfold geZ; done. }
  assert (Hv : verdict <$> evaluateFiveCards cs = verdict <$> evaluateFiveCards canon).
  { apply evaluateFiveCards_verdict_congr; rewrite Es, Hcanon.
    - reflexivity.
    - fold flush. unfold canon, patternHand, every_first. simpl.
      by destruct flush. }
  rewrite Hv. cbn [map]. by apply patternsAll_pattern.
Qed.

Lemma patternsAll_inBand : patternsAll inBand = true.
Proof. vm_compute. reflexivity. Qed.

(** X7.  Five cards always evaluate to one of the ten categories.  Outside
    Flush and High Card the score lies strictly between the category's base
    and the next million, so these eight categories are ordered by their
    bases; a Flush or a High Card scores at least 202,020,202 above its
    base, that is above every hand of the other eight categories. *)
Theorem score_bands (cs : list Card) :
  length cs = 5%nat ->
  exists e,
    evaluateFiveCards cs = Some e
    /\ hand_rank e <> Invalid
    /\ (if positionalRank (hand_rank e)
        then categoryBase (hand_rank e) + 202020202 <= score e
        else categoryBase (hand_rank e) < score e < categoryBase (hand_rank e) + 1000000).
Proof.
  intros Hlen. pose proof (patternsAll_spec inBand cs patternsAll_inBand Hlen) as H.
  destruct (evaluateFiveCards cs) as [e|]; [|done]. exists e. split; [done|].
  cbn in H. apply andb_true_iff in H as [H1 H2].
  apply negb_true_iff, bool_decide_eq_false in H1. split; [done|].
  destruct (positionalRank (hand_rank e)).
  - by apply Z.leb_le.
  - apply andb_true_iff in H2 as [H2 H3]. apply Z.ltb_lt in H2, H3. done.
Qed.

Lemma score_bands_witness :
  length wheel = 5%nat
  /\ exists e, evaluateFiveCards wheel = Some e
               /\ hand_rank e <> Invalid
               /\ (if positionalRank (hand_rank e)
                   then categoryBase (hand_rank e) + 202020202 <= score e
                   else categoryBase (hand_rank e) < score e
                        < categoryBase (hand_rank e) + 1000000).
Proof.
  assert (H : length wheel = 5%nat) by reflexivity.
  split; [exact H|]. exact (score_bands wheel H).
Defined.

Lemma patternsAll_straights : patternsAll straightsRecognised = true.
Proof. vm_compute. reflexivity. Qed.

Lemma patternsAll_tieFacts : patternsAll tieFacts = true.
Proof. vm_compute. reflexivity. Qed.

Lemma sorted_values_unique (l l' : list Z) :
  Sorted geZ l -> Sorted geZ l' -> l ≡ₚ l' -> l = l'.
Proof.
  intros Hl Hl' Hp.
  apply (@Sorted_unique Z geZ geZ_trans geZ_antisymm); done.
Qed.

Lemma sorted_rankValues (cs : list Card) :
  Sorted geZ (rankValues (js_sort byRankDesc cs))
  /\ rankValues (js_sort byRankDesc cs) ≡ₚ rankValues cs.
Proof.
  split.
  - apply (js_sort_sorted (fun c => rankOrder (rank c))).
  - unfold rankValues. apply Permutation_map, js_sort_perm.
Qed.

Lemma rankValues_ranks (cs : list Card) : map rankOrder (map rank cs) = rankValues cs.
Proof. unfold rankValues. by rewrite map_map. Qed.

Lemma runFrom_sorted h : Sorted geZ (runFrom h).
Proof. unfold runFrom, geZ. repeat constructor; lia. Qed.

Lemma straightHighOf_run h : straightHighOf (runFrom h) = Some h.
Proof.
  unfold straightHighOf. rewrite bool_decide_eq_false_2 by (unfold runFrom; intros [= ? ?]; lia).
  unfold runFrom at 1. by rewrite bool_decide_eq_true_2.
Qed.

Lemma straightHighOf_inv vals h :
  straightHighOf vals = Some h -> vals = runFrom h \/ (h = 5 /\ vals = [14; 5; 4; 3; 2]).
Proof.
  unfold straightHighOf. case_bool_decide as Hw; [intros [= <-]; by right|].
  destruct vals as [|x vals]; [done|]. case_bool_decide as Hr; [|done].
  intros [= <-]. by left.
Qed.

(** X8.  Five cards are scored as a straight exactly when their rank values
    are five consecutive values or A-5-4-3-2.  The score is then the base of
    Straight, Straight Flush (cards of one suit) or Royal Flush (one suit,
    ace-high) plus the top value of the run, which is 5 for A-5-4-3-2. *)
Theorem straights_recognised (cs : list Card) (e : Evaluation) :
  length cs = 5%nat ->
  evaluateFiveCards cs = Some e ->
  (forall h, rankValues cs ≡ₚ runFrom h \/ (h = 5 /\ rankValues cs ≡ₚ [14; 5; 4; 3; 2]) ->
             verdict e = straightVerdict (every_first (map suit cs)) h)
  /\ (isStraightRank (hand_rank e) = true ->
      exists h, rankValues cs ≡ₚ runFrom h \/ (h = 5 /\ rankValues cs ≡ₚ [14; 5; 4; 3; 2])).
Proof.
  intros Hlen He.
  pose proof (patternsAll_spec straightsRecognised cs patternsAll_straights Hlen) as H.
  unfold straightsRecognised in H. rewrite He, rankValues_ranks in H.
  change (verdict <$> Some e) with (Some (hand_rank e, score e)) in H. cbv beta iota in H.
  destruct (sorted_rankValues cs) as [Hsorted Hperm]. split.
  - intros h Hh.
    assert (Hhigh : straightHighOf (rankValues (js_sort byRankDesc cs)) = Some h).
    { destruct Hh as [Hh|[-> Hh]].
      - rewrite (sorted_values_unique _ (runFrom h) Hsorted (runFrom_sorted h))
          by (by rewrite Hperm).
        apply straightHighOf_run.
      - assert (Hw : Sorted geZ [14; 5; 4; 3; 2])
          by (unfold geZ; repeat constructor; lia).
        rewrite (sorted_values_unique _ [14; 5; 4; 3; 2] Hsorted Hw) by (by rewrite Hperm).
        reflexivity. }
    rewrite Hhigh in H. by apply bool_decide_eq_true in H.
  - intros Hs. destruct (straightHighOf (rankValues (js_sort byRankDesc cs))) as [h|] eqn:Eh.
    + exists h. rewrite <- Hperm.
      destruct (straightHighOf_inv _ _ Eh) as [->|[-> ->]]; [by left|by right].
    + rewrite Hs in H. done.
Qed.

Lemma straights_recognised_witness :
  length wheel = 5%nat
  /\ verdict (mkEval Straight 4000005
                [card RA C_; card R5 C_; card R4 S_; card R3 H_; card R2 D_])
     = straightVerdict (every_first (map suit wheel)) 5.
Proof.
  assert (Hlen : length wheel = 5%nat) by reflexivity.
  assert (He : evaluateFiveCards wheel
               = Some (mkEval Straight 4000005
                         [card RA C_; card R5 C_; card R4 S_; card R3 H_; card R2 D_]))
    by (vm_compute; reflexivity).
  split; [exact Hlen|].
  apply (proj1 (straights_recognised wheel _ Hlen He) 5).
  right. split; [reflexivity|]. vm_compute.
  apply perm_skip.
  apply (Permutation_cons_app [5; 4; 3] []).
  apply (Permutation_cons_app [5; 4] []).
  apply (Permutation_cons_app [5] []). reflexivity.
Defined.

(** ** Tie-breaks within a category *)

Lemma flush_distinct_ranks (cs : list Card) :
  NoDup cs -> every_first (map suit cs) = true -> NoDup (map rank cs).
Proof.
  intros Hnd Hflush. apply NoDup_fmap_2_strong; [|done].
  intros [r s] [r' s'] Hx Hy Hr. cbn in Hr. subst r'. f_equal.
  apply (proj1 (every_first_spec (map suit cs)) Hflush).
  - apply (list_elem_of_fmap_2 suit _ _ Hx).
  - apply (list_elem_of_fmap_2 suit _ _ Hy).
Qed.

Lemma tie_facts (cs : list Card) (e : Evaluation) :
  length cs = 5%nat -> NoDup cs -> evaluateFiveCards cs = Some e ->
  score e = categoryBase (hand_rank e)
            + dot (tieWeights (hand_rank e)) (tieKey (rankValues (cards e)))
  /\ keyShape (hand_rank e) (tieKey (rankValues (cards e))) = true.
Proof.
  intros Hlen Hnd He.
  pose proof (patternsAll_spec tieFacts cs patternsAll_tieFacts Hlen) as H.
  unfold tieFacts in H. rewrite He, rankValues_ranks in H.
  rewrite <- (evaluateFiveCards_cards cs e He) in H.
  change (verdict <$> Some e) with (Some (hand_rank e, score e)) in H. cbv beta iota zeta in H.
  apply orb_true_iff in H as [H|H].
  - apply andb_true_iff in H as [Hflush Hdup].
    apply negb_true_iff, bool_decide_eq_false in Hdup. destruct Hdup.
    rewrite (evaluateFiveCards_cards cs e He).
    rewrite (js_sort_perm byRankDesc cs). by apply flush_distinct_ranks.
  - apply andb_true_iff in H as [H1 H2]. apply Z.eqb_eq in H1. done.
Qed.

Ltac bool_facts :=
  repeat match goal with
         | H : _ && _ = true |- _ => apply andb_true_iff in H as [? ?]
         | H : inRange _ _ _ = true |- _ => unfold inRange in H
         | H : (_ <=? _) = true |- _ => apply Z.leb_le in H
         | H : (_ <? _) = true |- _ => apply Z.ltb_lt in H
         | H : (_ =? _) = true |- _ => apply Z.eqb_eq in H
         | H : bool_decide _ = true |- _ => apply bool_decide_eq_true in H
         | H : _ :: _ = runFrom _ |- _ => unfold runFrom in H; injection H as ? ? ? ?
         end.

Lemma key_order (r : HandRank) (key key' : list Z) :
  keyShape r key = true -> keyShape r key' = true ->
  (categoryBase r + dot (tieWeights r) key < categoryBase r + dot (tieWeights r) key'
   <-> lexLt key key' = true)
  /\ (categoryBase r + dot (tieWeights r) key = categoryBase r + dot (tieWeights r) key'
      <-> key = key').
Proof.
  unfold keyShape.
  destruct key as [|a [|b [|c [|d [|e [|]]]]]]; try done.
  destruct key' as [|a' [|b' [|c' [|d' [|e' [|]]]]]]; try (destruct r; done).
  destruct r; try done; cbn [forallb tieWeights dot lexLt]; intros H H'; bool_facts.
  all: rewrite !andb_false_r, !orb_false_r.
  all: rewrite ?orb_true_iff, ?andb_true_iff, ?Z.ltb_lt, ?Z.eqb_eq.
  all: split; [lia|].
  all: split; [intros Hs; assert (Hk : a = a' /\ b = b' /\ c = c' /\ d = d' /\ e = e') by lia;
               destruct Hk as (-> & -> & -> & -> & ->); reflexivity
              |intros [= -> -> -> -> ->]; reflexivity].
Qed.

(** X9.  Two hands of five different cards each that fall in the same
    category are ordered by their scores as poker orders them: by their rank
    values taken most frequent first, then highest first (the ace of
    A-5-4-3-2 counting as one); they score the same exactly when these keys
    agree. *)
Theorem same_category_tie_break (cs cs' : list Card) (e e' : Evaluation) :
  length cs = 5%nat -> length cs' = 5%nat -> NoDup cs -> NoDup cs' ->
  evaluateFiveCards cs = Some e -> evaluateFiveCards cs' = Some e' ->
  hand_rank e = hand_rank e' ->
  (score e < score e'
   <-> lexLt (tieKey (rankValues (cards e))) (tieKey (rankValues (cards e'))) = true)
  /\ (score e = score e'
      <-> tieKey (rankValues (cards e)) = tieKey (rankValues (cards e'))).
Proof.
  intros Hlen Hlen' Hnd Hnd' He He' Hr.
  destruct (tie_facts cs e Hlen Hnd He) as [Hs Hk].
  destruct (tie_facts cs' e' Hlen' Hnd' He') as [Hs' Hk'].
  rewrite <- Hr in Hs', Hk'. rewrite Hs, Hs'. by apply key_order.
Qed.

Lemma same_category_tie_break_witness :
  lexLt (tieKey (rankValues [card RA C_; card R5 C_; card R4 S_; card R3 H_; card R2 D_]))
        (tieKey (rankValues [card R6 C_; card R5 C_; card R4 S_; card R3 H_; card R2 D_]))
  = true.
Proof.
  set (six := [card R6 C_; card R2 D_; card R3 H_; card R4 S_; card R5 C_]).
  set (eWheel := mkEval Straight 4000005
                   [card RA C_; card R5 C_; card R4 S_; card R3 H_; card R2 D_]).
  set (eSix := mkEval Straight 4000006
                 [card R6 C_; card R5 C_; card R4 S_; card R3 H_; card R2 D_]).
  assert (Hlen : length wheel = 5%nat) by reflexivity.
  assert (Hlen' : length six = 5%nat) by reflexivity.
  assert (Hnd : NoDup wheel) by (apply (bool_decide_unpack _); vm_compute; exact I).
  assert (Hnd' : NoDup six) by (apply (bool_decide_unpack _); vm_compute; exact I).
  assert (He : evaluateFiveCards wheel = Some eWheel) by (vm_compute; reflexivity).
  assert (He' : evaluateFiveCards six = Some eSix) by (vm_compute; reflexivity).
  assert (Hr : hand_rank eWheel = hand_rank eSix) by reflexivity.
  apply (proj1 (proj1 (same_category_tie_break wheel six eWheel eSix
                         Hlen Hlen' Hnd Hnd' He He' Hr))).
  vm_compute. reflexivity.
Defined.

(** ** When [collectBets] opens a side pot *)

Lemma collectLoop_idle fuel mask players pots :
  existsb hasBet (selected mask players) = false ->
  collectLoop fuel mask players pots = Some (players, pots).
Proof. intros H. destruct fuel; simpl; by rewrite H. Qed.

Lemma betsTotal_idle players :
  Forall (fun p => 0 <= currentBet p) players ->
  existsb hasBet players = false -> betsTotal players = 0.
Proof.
  intros Hnn Hex. unfold betsTotal. induction Hnn as [|p players Hp _ IHp]; [done|].
  simpl in Hex. apply orb_false_iff in Hex as [Hb Hex].
  apply hasBet_false in Hb. simpl. rewrite IHp by done. lia.
Qed.

Lemma bettorIds_idle players : existsb hasBet players = false -> bettorIds players = ∅.
Proof.
  intros Hex. unfold bettorIds.
  assert (List.filter hasBet players = []) as ->; [|done].
  induction players as [|p players IH]; [done|]. simpl in *.
  apply orb_false_iff in Hex as [-> Hex]. by apply IH.
Qed.

Lemma bettorIds_payIn m players :
  bettorIds (map (payIn (Some m)) players) ⊆ bettorIds players.
Proof.
  induction players as [|p players IH]; [done|]. cbn [map].
  rewrite !bettorIds_cons.
  destruct (hasBet (payIn (Some m) p)) eqn:E.
  - rewrite (payIn_still_bettor _ _ E).
    assert (id (payIn (Some m) p) = id p) as -> by (unfold payIn; by destruct (hasBet p)).
    set_solver.
  - set_solver.
Qed.

Lemma pot_untouched cur : mkPot (amount cur + 0) (∅ ∪ contributors cur) = cur.
Proof. destruct cur as [a c]. apply pot_eq; [simpl; lia|set_solver]. Qed.

Lemma collectPass_exact mask players pots :
  covers mask players -> existsb hasBet players = true ->
  exists m closed cur,
    0 < m
    /\ (exists q, In q players /\ currentBet q = m)
    /\ (forall p, In p players -> hasBet p = true -> m <= currentBet p)
    /\ splitCurrent pots = (closed, cur)
    /\ collectPass mask players pots =
       (map (payIn (Some m)) players,
        let pot' := mkPot (amount cur + paid (Some m) players)
                          (bettorIds players ∪ contributors cur) in
        if existsb capped (map (payIn (Some m)) (List.filter hasBet players))
           && existsb hasBet (map (payIn (Some m)) players)
        then closed ++ [pot'; emptyPot] else closed ++ [pot']).
Proof.
  intros Hcov Hex. unfold collectPass. rewrite (selected_filter _ _ Hcov).
  destruct (Math_min_spec (map currentBet (List.filter hasBet players)))
    as (m & Hm & Hin & Hle).
  { apply existsb_exists in Hex as (q & Hq & Hb).
    intros Hnil. apply map_eq_nil in Hnil.
    assert (In q (List.filter hasBet players)) as Hq' by (by apply filter_In).
    by rewrite Hnil in Hq'. }
  rewrite Hm. apply in_map_iff in Hin as (q & Hqm & Hq).
  apply filter_In in Hq as [Hq Hqb].
  destruct (splitCurrent pots) as [closed cur] eqn:Hsplit.
  rewrite takeBets_spec.
  exists m, closed, cur. split; [apply hasBet_true in Hqb; lia|].
  split; [by exists q|]. split.
  { intros p Hp Hpb. apply Hle. apply in_map. by apply filter_In. }
  split; [done|].
  rewrite (selected_existsb mask (map (payIn (Some m)) players))
    by (by apply covers_payIn).
  cbv zeta. fold capped.
  change (fun p : Player => isAllIn p && (currentBet p =? 0)) with capped.
  by destruct (existsb capped _ && existsb hasBet _).
Qed.

Lemma capped_all_cleared m players :
  0 < m ->
  (forall p, In p players -> hasBet p = true -> m <= currentBet p) ->
  Forall (fun p => 0 <= currentBet p) players ->
  noShortAllIn players ->
  existsb capped (map (payIn (Some m)) (List.filter hasBet players)) = true ->
  existsb hasBet (map (payIn (Some m)) players) = false.
Proof.
  intros Hm Hle Hnn Hk Hcap.
  apply existsb_exists in Hcap as (c & Hc & Hcapped).
  apply in_map_iff in Hc as (p & <- & Hp). apply filter_In in Hp as [Hp Hpb].
  unfold capped in Hcapped. apply andb_true_iff in Hcapped as [Hall Hzero].
  apply Z.eqb_eq in Hzero. rewrite payIn_currentBet, Hpb in Hzero.
  assert (Hall' : isAllIn p = true) by (unfold payIn in Hall; by rewrite Hpb in Hall).
  pose proof (Hle p Hp Hpb) as Hmp. cbn [contribution] in Hzero.
  apply not_true_is_false. intros Hex.
  apply existsb_exists in Hex as (c & Hc & Hcb).
  apply in_map_iff in Hc as (q & <- & Hq).
  pose proof (payIn_still_bettor _ _ Hcb) as Hqb.
  apply hasBet_true in Hcb. rewrite payIn_currentBet, Hqb in Hcb. cbn [contribution] in Hcb.
  pose proof (Hk p q Hp Hq Hpb Hall'). pose proof (Hle q Hq Hqb). lia.
Qed.

Lemma noShortAllIn_payIn m players :
  0 < m ->
  (forall p, In p players -> hasBet p = true -> m <= currentBet p) ->
  noShortAllIn players -> noShortAllIn (map (payIn (Some m)) players).
Proof.
  intros Hm Hle Hk p1 q1 Hp1 Hq1 Hb Hall.
  apply in_map_iff in Hp1 as (p & <- & Hp). apply in_map_iff in Hq1 as (q & <- & Hq).
  pose proof (payIn_still_bettor _ _ Hb) as Hpb.
  assert (Hall' : isAllIn p = true) by (unfold payIn in Hall; by rewrite Hpb in Hall).
  pose proof (Hk p q Hp Hq Hpb Hall') as Hqp. pose proof (Hle p Hp Hpb) as Hmp.
  apply hasBet_true in Hb. rewrite payIn_currentBet, Hpb in Hb.
  rewrite !payIn_currentBet, Hpb. cbn [contribution] in *.
  destruct (hasBet q) eqn:Hqb.
  - pose proof (Hle q Hq Hqb). lia.
  - apply hasBet_false in Hqb. lia.
Qed.

Lemma splitCurrent_snoc closed cur : splitCurrent (closed ++ [cur]) = (closed, cur).
Proof. unfold splitCurrent. by rewrite last_snoc, removelast_last. Qed.

Lemma collectLoop_single fuel mask players closed cur :
  covers mask players ->
  (length (List.filter hasBet players) <= fuel)%nat ->
  Forall (fun p => 0 <= currentBet p) players ->
  noShortAllIn players ->
  collectLoop fuel mask players (closed ++ [cur]) =
  Some (map (setCurrentBet 0) players,
        closed ++ [mkPot (amount cur + betsTotal players)
                         (bettorIds players ∪ contributors cur)]).
Proof.
  revert players cur. induction fuel as [|fuel IH]; intros players cur Hcov Hfuel Hnn Hk.
  - assert (Hex : existsb hasBet players = false).
    { rewrite existsb_filter. destruct (List.filter hasBet players); [done|simpl in Hfuel; lia]. }
    rewrite collectLoop_idle by (by rewrite (selected_existsb _ _ Hcov)).
    rewrite (betsTotal_idle _ Hnn Hex), (bettorIds_idle _ Hex), pot_untouched.
    by rewrite <- (zeroed_idle _ Hnn Hex).
  - destruct (existsb hasBet players) eqn:Hex.
    2:{ rewrite collectLoop_idle by (by rewrite (selected_existsb _ _ Hcov)).
        rewrite (betsTotal_idle _ Hnn Hex), (bettorIds_idle _ Hex), pot_untouched.
        by rewrite <- (zeroed_idle _ Hnn Hex). }
    cbn [collectLoop]. rewrite (selected_existsb _ _ Hcov), Hex.
    destruct (collectPass_exact mask players (closed ++ [cur]) Hcov Hex)
      as (m & closed' & cur' & Hm & (q & Hq & Hqm) & Hle & Hsplit & Hpass).
    rewrite splitCurrent_snoc in Hsplit. injection Hsplit as <- <-.
    rewrite Hpass. cbv zeta.
    assert (Hbranch : existsb capped (map (payIn (Some m)) (List.filter hasBet players))
                      && existsb hasBet (map (payIn (Some m)) players) = false).
    { destruct (existsb capped _) eqn:Hcap; [|done].
      by rewrite (capped_all_cleared m players Hm Hle Hnn Hk Hcap). }
    rewrite Hbranch.
    rewrite IH.
    + f_equal. f_equal.
      * rewrite map_map. apply map_ext. intros p. apply payIn_zeroed.
      * f_equal. f_equal. apply pot_eq.
        -- cbn [amount]. rewrite betsTotal_payIn. lia.
        -- cbn [contributors]. pose proof (bettorIds_payIn m players). set_solver.
    + by apply covers_payIn.
    + pose proof (bettors_lt m players q Hm Hq Hqm). lia.
    + by apply nonneg_payIn.
    + by apply noShortAllIn_payIn.
Qed.

Lemma collectBets_single (players : list Player) (closed : list Pot) (cur : Pot) :
  Forall (fun p => 0 <= currentBet p) players ->
  noShortAllIn players ->
  collectBets players (closed ++ [cur]) =
  Some (map (setCurrentBet 0) players,
        closed ++ [mkPot (amount cur + betsTotal players)
                         (bettorIds players ∪ contributors cur)]).
Proof.
  intros Hnn Hk. unfold collectBets.
  destruct (length (selected (map hasBet players) players) =? 0)%nat eqn:E.
  - assert (Hex : existsb hasBet players = false).
    { rewrite <- (selected_existsb (map hasBet players)) by apply covers_init.
      rewrite existsb_filter. apply Nat.eqb_eq in E.
      destruct (selected (map hasBet players) players); [done|discriminate E]. }
    rewrite (betsTotal_idle _ Hnn Hex), (bettorIds_idle _ Hex), pot_untouched.
    by rewrite <- (zeroed_idle _ Hnn Hex).
  - apply collectLoop_single; [apply covers_init|apply filter_length_le|done|done].
Qed.



(** ** The last player standing *)

Lemma fold_amounts (pots : list Pot) (t : Z) :
  fold_left (fun t pot_ => t + amount pot_) pots t = t + potsAmount pots.
Proof.
  revert t. induction pots as [|pot_ pots IH]; intros t; [unfold potsAmount; simpl; lia|].
  cbn [fold_left]. rewrite IH. unfold potsAmount. simpl. lia.
Qed.

Lemma endHand_last_standing (gs : GameState) (hs : HandState) (i : nat) (w : Player) :
  handState gs = Some hs ->
  Forall (fun p => 0 <= currentBet p) (players gs) ->
  located (fun p => negb (hasFolded p)) (players gs) = [(i, w)] ->
  exists gs' hs',
    endHand gs = (gs', Returned)
    /\ handState gs' = Some hs'
    /\ players gs' = alter (addChips (potsAmount (potManager hs) + betsTotal (players gs))) i
                       (map (setCurrentBet 0) (players gs))
    /\ phase hs' = showdown
    /\ winners hs' = [mkWinner (id w) (name w) None
                        (potsAmount (potManager hs) + betsTotal (players gs)) None].
Proof.
  intros Ehs Hnn Hone.
  destruct (collectBets_total (players gs) (potManager hs) Hnn)
    as (ps1 & pots1 & Hrun & _ & -> & Hsum & _).
  unfold endHand, collectRound. rewrite Ehs, Hrun, Hone. cbn [mbind option_bind].
  cbn [settle potManager setPotManager players setPlayers setHandState].
  rewrite fold_amounts.
  replace (0 + potsAmount pots1) with (potsAmount (potManager hs) + betsTotal (players gs))
    by lia.
  eexists _, _. split; [reflexivity|]. split; [reflexivity|]. done.
Qed.



(** ** Street changes and the dealer seat *)

Lemma atIndex_beyond {A : Type} (l : list A) (i : Z) :
  Z.of_nat (length l) <= i -> atIndex l i = None.
Proof.
  intros H. unfold atIndex. destruct (i <? 0) eqn:E; [done|].
  apply lookup_ge_None. lia.
Qed.

Lemma active_zeroed (ps : list Player) :
  List.filter active (map (setCurrentBet 0) ps) = map (setCurrentBet 0) (List.filter active ps).
Proof.
  induction ps as [|p ps IH]; [done|]. cbn [map List.filter].
  change (active (setCurrentBet 0 p)) with (active p).
  destruct (active p); cbn [map]; by rewrite IH.
Qed.

(** ** The displayed pot *)

Lemma bet_pair amount p a p1 : bet amount p = (a, p1) -> currentBet p1 = currentBet p + a.
Proof.
  intros E. pose proof (bet_currentBet amount p) as H1. pose proof (bet_fst amount p) as H2.
  rewrite E in H1, H2. cbn [fst snd] in H1, H2. lia.
Qed.

Lemma doCall_pot hs player p' hs' :
  doCall hs player = (p', hs') ->
  pot hs' - pot hs = currentBet p' - currentBet player /\ potManager hs' = potManager hs.
Proof.
  unfold doCall. destruct (hs_currentBet hs - currentBet player >? chips player).
  - destruct (bet (chips player) player) as [a p1] eqn:E. intros [= <- <-].
    pose proof (bet_pair _ _ _ _ E). cbn. split; [lia|done].
  - destruct (bet (hs_currentBet hs - currentBet player) player) as [a p1] eqn:E.
    intros [= <- <-]. pose proof (bet_pair _ _ _ _ E). cbn. split; [lia|done].
Qed.

Lemma applyAction_pot hs player action p' hs' raised :
  applyAction hs player action = Some (p', hs', raised) ->
  pot hs' - pot hs = currentBet p' - currentBet player /\ potManager hs' = potManager hs.
Proof.
  destruct action as [| | |amount]; unfold applyAction.
  - intros [= <- <- <-]. cbn. split; [lia|done].
  - destruct (currentBet player <? hs_currentBet hs); [done|].
    intros [= <- <- <-]. cbn. split; [lia|done].
  - destruct (doCall hs player) as [p1 hs1] eqn:E. intros [= <- <- <-].
    by apply doCall_pot.
  - destruct (amount <=? 0); [done|]. cbv zeta.
    destruct ((amount - (hs_currentBet hs - currentBet player) <? minRaiseFor (phase hs))
              && (amount <? chips player)).
    { destruct (isBot player); [|done].
      destruct (doCall hs player) as [p1 hs1] eqn:E. intros [= <- <- <-].
      by apply doCall_pot. }
    destruct (currentBet player + amount <=? hs_currentBet hs).
    { destruct (isBot player); [|done].
      destruct (doCall hs player) as [p1 hs1] eqn:E. intros [= <- <- <-].
      by apply doCall_pot. }
    destruct (currentBet player + amount >? chips player + currentBet player); [done|].
    destruct (bet amount player) as [a p1] eqn:E. intros [= <- <- <-].
    pose proof (bet_pair _ _ _ _ E). cbn. split; [lia|done].
Qed.

Lemma betsTotal_insert (l : list Player) (i : nat) (x y : Player) :
  l !! i = Some x -> betsTotal (<[i := y]> l) = betsTotal l + currentBet y - currentBet x.
Proof.
  unfold betsTotal. revert i. induction l as [|z l IH]; intros [|i] H; try done.
  - injection H as ->. simpl. lia.
  - simpl in *. rewrite (IH i H). lia.
Qed.

Lemma betsTotal_resetOthers i ps : betsTotal (resetOthers i ps) = betsTotal ps.
Proof.
  unfold betsTotal, resetOthers. rewrite map_map. f_equal. apply map_ext.
  intros p. by destruct (active p && negb (hasId i p)).
Qed.

Lemma potConsistent_intro gs0 ps hsF :
  pot hsF = betsTotal ps + potsAmount (potManager hsF) ->
  potConsistent (setHandState hsF (setPlayers ps gs0)).
Proof. intros H hs0 [= <-]. exact H. Qed.

Lemma handlePlayerAction_pot gs playerId_ action :
  potConsistent gs -> potConsistent (fst (handlePlayerAction gs playerId_ action)).
Proof.
  intros Hpot. unfold handlePlayerAction.
  destruct (handState gs) as [hs|] eqn:Ehs; [|done].
  destruct (atIndex (players gs) (findIndex (hasId playerId_) (players gs)))
    as [player|] eqn:Eplayer; [|done].
  destruct (atIndex (List.filter active (players gs)) (currentPlayerIndex hs))
    as [currentPlayer|]; [|done].
  destruct (negb (hasId playerId_ currentPlayer)); [done|].
  destruct (hasActed player && negb (isAllIn player)); [done|].
  destruct (applyAction hs player action) as [[[p' hs'] raised]|] eqn:Eact; [|done].
  apply atIndex_lookup in Eplayer.
  destruct (applyAction_pot _ _ _ _ _ _ Eact) as [Hp Hm].
  set (ps1 := <[Z.to_nat (findIndex (hasId playerId_) (players gs)) := p']> (players gs)).
  set (ps2 := if raised then resetOthers (id player) ps1 else ps1).
  assert (Hbets : betsTotal ps2 = betsTotal (players gs) + currentBet p' - currentBet player).
  { unfold ps2. destruct raised; [rewrite betsTotal_resetOthers|];
      by apply betsTotal_insert. }
  specialize (Hpot hs Ehs).
  assert (Hdone : forall hsF (c0 : completion),
            pot hsF = pot hs' -> potManager hsF = potManager hs' ->
            potConsistent (fst (setHandState hsF (setPlayers ps2 gs), c0))).
  { intros hsF c0 H1 H2. apply potConsistent_intro. rewrite Hbets, H1, H2, Hm. lia. }
  destruct (skipOut ps2 (length ps2) _) as [next| |]; [|by apply Hdone..].
  destruct (atIndex ps2 next); by apply Hdone.
Qed.

Lemma collectRound_pot gs hs gs1 hs1 :
  Forall (fun p => 0 <= currentBet p) (players gs) ->
  handState gs = Some hs -> collectRound gs hs = Some (gs1, hs1) ->
  potConsistent gs ->
  potConsistent gs1
  /\ handState gs1 = Some hs1
  /\ pot hs1 = pot hs
  /\ Forall (fun p => currentBet p = 0) (players gs1).
Proof.
  intros Hnn Ehs Hrun Hpot. unfold collectRound in Hrun.
  destruct (collectBets_total (players gs) (potManager hs) Hnn)
    as (ps1 & pots1 & Hc & Hz & -> & Hsum & _).
  rewrite Hc in Hrun. cbn in Hrun. injection Hrun as <- <-.
  split; [|done]. apply potConsistent_intro. cbn [pot potManager setPotManager].
  rewrite betsTotal_zeroed. specialize (Hpot hs Ehs). lia.
Qed.

Lemma betsTotal_none ps : Forall (fun p => currentBet p = 0) ps -> betsTotal ps = 0.
Proof.
  unfold betsTotal. induction 1 as [|p ps Hp _ IH]; [done|]. simpl. lia.
Qed.

Lemma nextStreet_pot gs hs cards_ deck_ phase_ :
  handState gs = Some hs -> Forall (fun p => currentBet p = 0) (players gs) ->
  potConsistent gs -> potConsistent (fst (nextStreet gs hs cards_ deck_ phase_)).
Proof.
  intros Ehs Hz Hpot. specialize (Hpot hs Ehs). rewrite (betsTotal_none _ Hz) in Hpot.
  set (ps2 := map (fun p => if active p then resetForNewBettingRound p else p) (players gs)).
  assert (Hbets : betsTotal ps2 = 0).
  { apply betsTotal_none. unfold ps2. apply Forall_map. eapply Forall_impl; [exact Hz|].
    intros p Hp. cbn beta. by destruct (active p). }
  assert (Hdone : forall hsF (c0 : completion),
            pot hsF = pot hs -> potManager hsF = potManager hs ->
            potConsistent (fst (setHandState hsF (setPlayers ps2 (setDeck deck_ gs)), c0))).
  { intros hsF c0 H1 H2. apply potConsistent_intro. rewrite Hbets, H1, H2. lia. }
  unfold nextStreet. fold ps2.
  destruct (atIndex _ (dealerIndex hs)) as [dealerId|]; [|by apply Hdone].
  destruct (seekIn ps2 (length ps2) _) as [next| |]; try by apply Hdone.
  destruct (atIndex ps2 next); by apply Hdone.
Qed.

Lemma processBettingRound_pot gs :
  Forall (fun p => 0 <= currentBet p) (players gs) -> settles gs = false ->
  potConsistent gs -> potConsistent (fst (processBettingRound gs)).
Proof.
  intros Hnn Hset Hpot. unfold processBettingRound. unfold settles in Hset.
  destruct (handState gs) as [hs|] eqn:Ehs; [|done].
  apply orb_false_iff in Hset as [Hmany Hriver]. rewrite Hmany.
  destruct (roundComplete hs (List.filter active (players gs))) eqn:Hcomplete; [|done].
  simpl in Hriver. apply bool_decide_eq_false in Hriver.
  destruct (collectRound gs hs) as [[gs1 hs1]|] eqn:Hrun; [|done].
  destruct (collectRound_pot gs hs gs1 hs1 Hnn Ehs Hrun Hpot) as (Hpot1 & Ehs1 & _ & Hz).
  assert (Hphase : phase hs1 <> river).
  { unfold collectRound in Hrun. destruct (collectBets _ _) as [[? ?]|]; [|done].
    cbn in Hrun. by injection Hrun as <- <-. }
  destruct (advancePhase_some hs1 (deck gs1) Hphase) as ([[cards_ deck_] phase_] & ->).
  by apply nextStreet_pot.
Qed.

Lemma engineStep_pot gs gs' :
  wellFormed gs -> engineStep gs gs' -> potConsistent gs -> potConsistent gs'.
Proof.
  intros [Hps _] Hstep Hpot.
  assert (Hnn : Forall (fun p => 0 <= currentBet p) (players gs)).
  { eapply Forall_impl; [exact Hps|]. by intros p [_ ?]. }
  destruct Hstep as [gs playerId_ action|gs Hset|gs hs gs1 hs1 Ehs Hrun].
  - by apply handlePlayerAction_pot.
  - by apply processBettingRound_pot.
  - by destruct (collectRound_pot gs hs gs1 hs1 Hnn Ehs Hrun Hpot).
Qed.

Lemma locatedFrom_seats {A : Type} (f : A -> bool) (l : list A) (i : nat) :
  NoDup (map fst (locatedFrom f i l)).
Proof.
  revert i. induction l as [|y l IH]; intros i; simpl; [constructor|].
  destruct (f y); [|apply IH]. cbn [map fst]. constructor; [|apply IH].
  intros Hin. apply list_elem_of_fmap in Hin as ([k x] & Hk & Hin). cbn in Hk. subst k.
  destruct (locatedFrom_lookup f l (S i) i x Hin) as [Hle _]. lia.
Qed.

Lemma located_distinct {A : Type} (f : A -> bool) (l : list A) (a b : Z) k x k' x' :
  atIndex (located f l) a = Some (k, x) -> atIndex (located f l) b = Some (k', x') ->
  a <> b -> k <> k'.
Proof.
  unfold atIndex. destruct (a <? 0) eqn:Ea; [done|]. destruct (b <? 0) eqn:Eb; [done|].
  intros Ha Hb Hab ->. apply Hab.
  assert (Z.to_nat a = Z.to_nat b); [|lia].
  apply (NoDup_lookup (map fst (located f l)) _ _ k').
  - apply locatedFrom_seats.
  - by rewrite list_lookup_fmap, Ha.
  - by rewrite list_lookup_fmap, Hb.
Qed.

Lemma atIndex_range {A : Type} (l : list A) (i : Z) (x : A) :
  atIndex l i = Some x -> 0 <= i < Z.of_nat (length l).
Proof.
  unfold atIndex. destruct (i <? 0) eqn:E; [done|]. intros H.
  apply lookup_lt_Some in H. lia.
Qed.

Lemma betsTotal_alter (g : Player -> Player) (l : list Player) (i : nat) (x : Player) :
  l !! i = Some x -> betsTotal (alter g i l) = betsTotal l + currentBet (g x) - currentBet x.
Proof.
  unfold betsTotal. revert i. induction l as [|z l IH]; intros [|i] H; try done.
  - injection H as ->. simpl. lia.
  - change (alter g (S i) (z :: l)) with (z :: alter g i l).
    cbn [map sumZ]. rewrite (IH i H). lia.
Qed.

Lemma startHand_pot gs shuffled :
  Forall (fun p => 0 <= chips p) (players gs) -> handStarts gs ->
  potConsistent (fst (startHand gs shuffled)).
Proof.
  intros Hnn [Hseats Hfunded]. unfold startHand. rewrite Hseats.
  pose proof (dealHands_fields (map resetForNewHand (players gs)) shuffled) as Hdealt.
  destruct (dealHands (map resetForNewHand (players gs)) shuffled) as [ps2 deck_].
  cbn [fst] in Hdealt.
  assert (Hlen : length (located (fun p => 0 <? chips p) ps2)
                 = length (located (fun p => 0 <? chips p) (players gs))).
  { by apply dealt_reset_located. }
  rewrite Hlen, Hfunded.
  destruct (dealt_reset_seated _ _ Hnn Hdealt) as [Hps2 _].
  assert (Hbets2 : betsTotal ps2 = 0).
  { apply betsTotal_none. eapply Forall_impl; [exact Hps2|]. by intros p [_ ?]. }
  set (actives := located (fun p => 0 <? chips p) ps2) in *.
  set (n := Z.of_nat (length (located (fun p => 0 <? chips p) (players gs)))).
  set (dealer := Z.rem (gs_dealerIndex gs + 1) n).
  set (sb := Z.rem (dealer + 1) n). set (bb := Z.rem (sb + 1) n).
  assert (Hn : 2 <= n).
  { unfold n. apply Nat.ltb_ge in Hfunded. lia. }
  destruct (atIndex actives sb) as [[sbSeat sbPlayer]|] eqn:Esb.
  2:{ apply (potConsistent_intro (setDealerIndex dealer (setDeck deck_ gs)) ps2).
      rewrite Hbets2. reflexivity. }
  destruct (atIndex actives bb) as [[bbSeat bbPlayer]|] eqn:Ebb.
  2:{ apply (potConsistent_intro (setDealerIndex dealer (setDeck deck_ gs)) ps2).
      rewrite Hbets2. reflexivity. }
  assert (Hsbbb : sb <> bb).
  { pose proof (atIndex_range _ _ _ Esb) as Hr. rewrite Hlen in Hr. fold n in Hr.
    unfold bb. destruct (decide (sb + 1 = n)) as [He|Hne].
    - rewrite He, Z.rem_same by lia. lia.
    - rewrite Z.rem_small by lia. lia. }
  pose proof (located_distinct _ _ _ _ _ _ _ _ Esb Ebb Hsbbb) as Hseats2.
  assert (Hsb : ps2 !! sbSeat = Some sbPlayer).
  { apply atIndex_lookup, list_elem_of_lookup_2, located_lookup in Esb. done. }
  assert (Hbb : ps2 !! bbSeat = Some bbPlayer).
  { apply atIndex_lookup, list_elem_of_lookup_2, located_lookup in Ebb. done. }
  assert (Hsbc : 0 <= chips sbPlayer).
  { by destruct (Forall_lookup_1 _ _ _ _ Hps2 Hsb) as [[? _] _]. }
  assert (Hbbc : 0 <= chips bbPlayer).
  { by destruct (Forall_lookup_1 _ _ _ _ Hps2 Hbb) as [[? _] _]. }
  assert (Hsb0 : currentBet sbPlayer = 0).
  { by destruct (Forall_lookup_1 _ _ _ _ Hps2 Hsb) as [_ ?]. }
  assert (Hbb0 : currentBet bbPlayer = 0).
  { by destruct (Forall_lookup_1 _ _ _ _ Hps2 Hbb) as [_ ?]. }
  apply (potConsistent_intro (setDealerIndex dealer (setDeck deck_ gs))
           (alter (fun p => snd (bet (Z.min 20 (chips bbPlayer)) p)) bbSeat
              (alter (fun p => snd (bet (Z.min 10 (chips sbPlayer)) p)) sbSeat ps2))).
  cbn [pot potManager].
  rewrite (betsTotal_alter _ _ bbSeat bbPlayer)
    by (by rewrite list_lookup_alter_ne).
  rewrite (betsTotal_alter _ _ sbSeat sbPlayer) by done.
  rewrite !bet_currentBet, Hbets2. unfold potsAmount, newPots. cbn. lia.
Qed.

Lemma reachable_pot start gs :
  wellFormed start -> potConsistent start -> reachable start gs -> potConsistent gs.
Proof.
  intros Hwf Hpot. induction 1 as [|gs gs' Hreach IH Hstep]; [done|].
  destruct (reachable_sound start gs Hwf Hreach) as [Hwf' _].
  by apply (engineStep_pot gs gs').
Qed.

(** ** Going round the table *)

Lemma atIndex_in_range {A : Type} (l : list A) (i : Z) :
  0 <= i < Z.of_nat (length l) -> exists x, atIndex l i = Some x.
Proof.
  intros H. unfold atIndex. destruct (i <? 0) eqn:E; [lia|].
  apply lookup_lt_is_Some. lia.
Qed.

Lemma rem_step (x n : Z) : 0 <= x -> 0 < n -> Z.rem (x mod n + 1) n = (x + 1) mod n.
Proof.
  intros Hx Hn. pose proof (Z.mod_pos_bound x n Hn).
  rewrite Z.rem_mod_nonneg by lia. by rewrite Zplus_mod_idemp_l.
Qed.

Lemma seekIn_first (ps : list Player) (fuel : nat) (x : Z) (t0 : nat) :
  0 <= x -> (t0 <= fuel)%nat ->
  (exists p, atIndex ps ((x + Z.of_nat t0) mod Z.of_nat (length ps)) = Some p
             /\ outOfHand p = false) ->
  exists t : nat,
    (t <= t0)%nat
    /\ seekIn ps fuel (x mod Z.of_nat (length ps))
       = Found ((x + Z.of_nat t) mod Z.of_nat (length ps))
    /\ (exists p, atIndex ps ((x + Z.of_nat t) mod Z.of_nat (length ps)) = Some p
                  /\ outOfHand p = false)
    /\ forall t' : nat, (t' < t)%nat ->
         exists p, atIndex ps ((x + Z.of_nat t') mod Z.of_nat (length ps)) = Some p
                   /\ outOfHand p = true.
Proof.
  set (n := Z.of_nat (length ps)).
  revert x t0. induction fuel as [|fuel IH]; intros x t0 Hx Ht0 (p0 & Hp0 & Hin0).
  - assert (t0 = 0%nat) as -> by lia. exists 0%nat.
    split; [lia|]. split; [|split; [by exists p0|intros; lia]].
    cbn [seekIn]. rewrite Z.add_0_r in *. rewrite Hp0, Hin0. done.
  - assert (Hn : 0 < n).
    { apply atIndex_range in Hp0. fold n in Hp0. lia. }
    destruct (atIndex_in_range ps (x mod n)) as [p Hp].
    { apply Z.mod_pos_bound. done. }
    destruct (outOfHand p) eqn:Hout.
    + destruct t0 as [|t0].
      { rewrite Z.add_0_r in Hp0. fold n in Hp0. rewrite Hp in Hp0.
        injection Hp0 as <-. congruence. }
      destruct (IH (x + 1) t0) as (t & Ht & Hseek & Hfound & Hbefore); [lia|lia| |].
      { exists p0. split; [|done]. rewrite <- Hp0. f_equal. f_equal. lia. }
      exists (S t). split; [lia|]. split; [|split].
      * cbn [seekIn]. rewrite Hp, Hout. fold n. rewrite rem_step by done.
        fold n in Hseek. rewrite Hseek. do 2 f_equal. lia.
      * destruct Hfound as (q & Hq & Hqin). exists q. split; [|done].
        rewrite <- Hq. f_equal. f_equal. lia.
      * intros [|t'] Ht'.
        -- exists p. by rewrite Z.add_0_r.
        -- destruct (Hbefore t') as (q & Hq & Hqout); [lia|].
           exists q. split; [|done]. rewrite <- Hq. f_equal. f_equal. lia.
    + exists 0%nat. split; [lia|]. rewrite Z.add_0_r. fold n.
      split; [|split; [by exists p|intros; lia]].
      cbn [seekIn]. by rewrite Hp, Hout.
Qed.

Lemma seat_reachable (n x : Z) (j : nat) :
  0 < n -> Z.of_nat j < n ->
  exists t0 : nat, Z.of_nat t0 < n /\ (x + Z.of_nat t0) mod n = Z.of_nat j.
Proof.
  intros Hn Hj. exists (Z.to_nat ((Z.of_nat j - x) mod n)).
  pose proof (Z.mod_pos_bound (Z.of_nat j - x) n Hn) as Hb.
  rewrite Z2Nat.id by lia. split; [lia|].
  rewrite Zplus_mod_idemp_r. replace (x + (Z.of_nat j - x)) with (Z.of_nat j) by lia.
  apply Z.mod_small. lia.
Qed.

Lemma findIndexFrom_found {A : Type} (f : A -> bool) (l : list A) (i : Z) :
  (exists x, x ∈ l /\ f x = true) ->
  exists k : nat, findIndexFrom f i l = i + Z.of_nat k
                  /\ (exists y, l !! k = Some y /\ f y = true).
Proof.
  revert i. induction l as [|z l IH]; intros i (x & Hx & Hfx).
  - by apply elem_of_nil in Hx.
  - cbn [findIndexFrom]. destruct (f z) eqn:Ez.
    + exists 0%nat. split; [lia|]. by exists z.
    + apply elem_of_cons in Hx as [->|Hx]; [congruence|].
      destruct (IH (i + 1)) as (k & Hk & y & Hy & Hfy); [by exists x|].
      exists (S k). split; [lia|]. by exists y.
Qed.

Lemma findIndex_found {A : Type} (f : A -> bool) (l : list A) :
  (exists x, x ∈ l /\ f x = true) ->
  0 <= findIndex f l < Z.of_nat (length l)
  /\ exists y, atIndex l (findIndex f l) = Some y /\ f y = true.
Proof.
  intros H. destruct (findIndexFrom_found f l 0 H) as (k & Hk & y & Hy & Hfy).
  unfold findIndex. rewrite Hk. pose proof (lookup_lt_Some _ _ _ Hy). split; [lia|].
  exists y. split; [|done]. unfold atIndex.
  destruct (0 + Z.of_nat k <? 0) eqn:E; [lia|].
  by replace (Z.to_nat (0 + Z.of_nat k)) with k by lia.
Qed.

Lemma findIndexFrom_map {A B : Type} (f : B -> bool) (g : A -> B) (l : list A) (i : Z) :
  findIndexFrom f i (map g l) = findIndexFrom (fun x => f (g x)) i l.
Proof.
  revert i. induction l as [|z l IH]; intros i; [done|].
  cbn [map findIndexFrom]. by rewrite IH.
Qed.

Lemma same_id_same_player (l : list Player) (x y : Player) :
  NoDup (map id l) -> x ∈ l -> y ∈ l -> id x = id y -> x = y.
Proof.
  intros Hnd Hx Hy Hid.
  apply list_elem_of_lookup in Hx as (i & Hi). apply list_elem_of_lookup in Hy as (j & Hj).
  assert (i = j) as ->.
  { apply (NoDup_lookup (map id l) i j (id x)); [done| |].
    - by rewrite list_lookup_fmap, Hi.
    - by rewrite list_lookup_fmap, Hj, Hid. }
  congruence.
Qed.

Lemma atIndex_elem {A : Type} (l : list A) (i : Z) (x : A) : atIndex l i = Some x -> x ∈ l.
Proof. intros H. apply atIndex_lookup in H. by eapply list_elem_of_lookup_2. Qed.

Lemma atIndex_map {A B : Type} (g : A -> B) (l : list A) (i : Z) :
  atIndex (map g l) i = g <$> atIndex l i.
Proof. unfold atIndex. destruct (i <? 0); [done|]. apply list_lookup_fmap. Qed.

Lemma active_in_hand (p : Player) : active p = true -> outOfHand p = false.
Proof.
  unfold active, outOfHand. intros H. apply andb_true_iff in H as [H1 H2].
  apply negb_true_iff in H1. apply Z.ltb_lt in H2. rewrite H1. cbn. apply Z.eqb_neq. lia.
Qed.

Lemma in_hand_active (p : Player) : 0 <= chips p -> outOfHand p = false -> active p = true.
Proof.
  unfold active, outOfHand. intros Hc H. apply orb_false_iff in H as [H1 H2].
  apply Z.eqb_neq in H2. rewrite H1. cbn. apply Z.ltb_lt. lia.
Qed.

Lemma atIndex_nat {A : Type} (l : list A) (j : nat) (x : A) :
  l !! j = Some x -> atIndex l (Z.of_nat j) = Some x.
Proof.
  intros H. unfold atIndex. destruct (Z.of_nat j <? 0) eqn:E; [apply Z.ltb_lt in E; lia|].
  by rewrite Nat2Z.id.
Qed.

Lemma filter_map_same {A : Type} (f : A -> bool) (g : A -> A) (l : list A) :
  (forall x, f (g x) = f x) -> List.filter f (map g l) = map g (List.filter f l).
Proof.
  intros H. induction l as [|x l IH]; [done|]. cbn [map List.filter].
  rewrite H. destruct (f x); cbn [map]; by rewrite IH.
Qed.

Lemma elem_of_filter_list {A : Type} (f : A -> bool) (l : list A) (x : A) :
  x ∈ List.filter f l <-> x ∈ l /\ f x = true.
Proof. rewrite !list_elem_of_In. apply filter_In. Qed.

(** ** Street changes *)

Lemma nextStreet_turn (gs : GameState) (hs : HandState) (cards_ : list (option Card))
    (deck_ : list Card) (phase_ : Phase) (dealer : Player) :
  Forall (fun p => 0 <= chips p) (players gs) ->
  NoDup (map id (players gs)) ->
  atIndex (List.filter active (players gs)) (dealerIndex hs) = Some dealer ->
  let ps2 := map (fun p => if active p then resetForNewBettingRound p else p) (players gs) in
  exists next nextPlayer idx,
    nextStreet gs hs cards_ deck_ phase_
    = (setHandState
         (setCurrentPlayerIndex idx
            (setStreetBet 0 (setPhase phase_ (setCommunityCards cards_ hs))))
         (setPlayers ps2 (setDeck deck_ gs)), Returned)
    /\ firstInHandAfter ps2 (findIndex (hasId (id dealer)) ps2) next
    /\ atIndex ps2 next = Some nextPlayer
    /\ atIndex (List.filter active ps2) idx = Some nextPlayer.
Proof.
  intros Hchips Hnd Hdealer.
  set (restart := fun p => if active p then resetForNewBettingRound p else p).
  intros ps2. change (map restart (players gs)) in (value of ps2).
  assert (Hid : forall p, id (restart p) = id p) by (intros p; unfold restart; by destruct (active p)).
  assert (Hact : forall p, active (restart p) = active p)
    by (intros p; unfold restart; by destruct (active p) eqn:E).
  assert (Hids : map id ps2 = map id (players gs)).
  { unfold ps2. rewrite map_map. by apply map_ext. }
  assert (Hfilter : List.filter active ps2 = map restart (List.filter active (players gs))).
  { by apply filter_map_same. }
  assert (Hchips2 : Forall (fun p => 0 <= chips p) ps2).
  { unfold ps2. apply Forall_map. eapply Forall_impl; [exact Hchips|].
    intros p Hp. cbn beta. unfold restart. by destruct (active p). }
  assert (Hndealer : restart dealer ∈ ps2 /\ active (restart dealer) = true).
  { apply atIndex_elem, elem_of_filter_list in Hdealer as [Hin Ha].
    split; [by apply list_elem_of_fmap_2|by rewrite Hact]. }
  destruct Hndealer as [Hdin Hdact].
  destruct (findIndex_found (hasId (id dealer)) ps2) as [Hd _].
  { exists (restart dealer). split; [done|]. unfold hasId. rewrite Hid.
    by apply bool_decide_eq_true. }
  set (d := findIndex (hasId (id dealer)) ps2) in *.
  set (n := Z.of_nat (length ps2)) in *.
  apply list_elem_of_lookup in Hdin as (j & Hj).
  destruct (seat_reachable n (d + 1) j) as (t0 & Ht0 & Hseat);
    [lia|apply lookup_lt_Some in Hj; lia|].
  destruct (seekIn_first ps2 (length ps2) (d + 1) t0) as (t & Ht & Hseek & Hfound & Hbefore);
    [lia|lia| |].
  { exists (restart dealer). fold n. rewrite Hseat.
    split; [by apply atIndex_nat|by apply active_in_hand]. }
  fold n in Hseek, Hfound, Hbefore. destruct Hfound as (nextPlayer & Hnp & Hin).
  assert (Hnact : active nextPlayer = true).
  { apply in_hand_active; [|done].
    apply atIndex_elem in Hnp. by apply (proj1 (Forall_forall _ _) Hchips2). }
  assert (Hturn : atIndex (List.filter active ps2)
                    (findIndexFrom (fun i => bool_decide (i = id nextPlayer)) 0
                       (map id (List.filter active (players gs)))) = Some nextPlayer).
  { replace (map id (List.filter active (players gs))) with (map id (List.filter active ps2))
      by (rewrite Hfilter, map_map; by apply map_ext).
    rewrite findIndexFrom_map.
    destruct (findIndex_found (fun x => bool_decide (id x = id nextPlayer))
                (List.filter active ps2)) as [_ (y & Hy & Hidy)].
    { exists nextPlayer. split; [|by apply bool_decide_eq_true].
      apply elem_of_filter_list. split; [by eapply atIndex_elem|done]. }
    unfold findIndex in Hy. rewrite Hy. f_equal.
    apply bool_decide_eq_true in Hidy.
    apply (same_id_same_player ps2); [by rewrite Hids| |by eapply atIndex_elem|done].
    apply atIndex_elem, elem_of_filter_list in Hy. tauto. }
  exists ((d + 1 + Z.of_nat t) mod n), nextPlayer,
    (findIndexFrom (fun i => bool_decide (i = id nextPlayer)) 0
       (map id (List.filter active (players gs)))).
  split; [|split; [|split; [done|done]]].
  - unfold nextStreet. cbv zeta. rewrite atIndex_map, Hdealer. cbn [fmap option_fmap option_map].
    fold restart. fold ps2. fold d. fold n.
    rewrite (Z.rem_mod_nonneg (d + 1) n) by lia.
    rewrite Hseek, Hnp. done.
  - exists t. split; [lia|]. split; [done|]. split; [by exists nextPlayer|]. exact Hbefore.
Qed.

Lemma advancePhase_next (hs : HandState) (deckCards : list Card) :
  phase hs <> river -> phase hs <> showdown ->
  exists cards_ deck_ phase_,
    advancePhase hs deckCards = Some (cards_, deck_, phase_)
    /\ phase_ = phase (fst (nextPhase hs))
    /\ (length (communityCards hs) = getPhaseCardCount hs ->
        length cards_ = getPhaseCardCount (setPhase phase_ hs)).
Proof.
  intros Hr Hs. unfold advancePhase, nextPhase, getPhaseCardCount.
  destruct (phase hs) eqn:E; try done.
  - pose proof (dealCards_shape 3 deckCards) as Hshape.
    destruct (dealCards 3 deckCards) as [cs d]. eexists _, _, _. split; [done|].
    split; [done|]. intros _. cbn. injection Hshape as -> _.
    rewrite length_app, length_fmap, length_reverse, length_drop, length_replicate. lia.
  - destruct (deal deckCards) as [c d]. eexists _, _, _. split; [done|].
    split; [done|]. intros H. cbn. rewrite length_app, H. done.
  - destruct (deal deckCards) as [c d]. eexists _, _, _. split; [done|].
    split; [done|]. intros H. cbn. rewrite length_app, H. done.
Qed.

Lemma street_change_run (gs : GameState) (hs : HandState) (dealer : Player) :
  handState gs = Some hs ->
  Forall seated (players gs) ->
  NoDup (map id (players gs)) ->
  (2 <= length (List.filter active (players gs)))%nat ->
  roundComplete hs (List.filter active (players gs)) = true ->
  phase hs <> river -> phase hs <> showdown ->
  atIndex (List.filter active (players gs)) (dealerIndex hs) = Some dealer ->
  exists gs' hs' next nextPlayer,
    processBettingRound gs = (gs', Returned)
    /\ handState gs' = Some hs'
    /\ players gs' = map (fun p => if active p then resetForNewBettingRound p
                                   else setCurrentBet 0 p) (players gs)
    /\ phase hs' = phase (fst (nextPhase hs))
    /\ hs_currentBet hs' = 0
    /\ (length (communityCards hs) = getPhaseCardCount hs ->
        length (communityCards hs') = getPhaseCardCount hs')
    /\ pot hs' = pot hs
    /\ potsAmount (potManager hs') = potsAmount (potManager hs) + betsTotal (players gs)
    /\ firstInHandAfter (players gs') (findIndex (hasId (id dealer)) (players gs')) next
    /\ atIndex (players gs') next = Some nextPlayer
    /\ atIndex (List.filter active (players gs')) (currentPlayerIndex hs') = Some nextPlayer.
Proof.
  intros Ehs Hseated Hnd Hmany Hcomplete Hriver Hshow Hdealer.
  assert (Hnn : Forall (fun p => 0 <= currentBet p) (players gs)).
  { eapply Forall_impl; [exact Hseated|]. by intros p [_ ?]. }
  destruct (collectBets_total (players gs) (potManager hs) Hnn)
    as (ps1 & pots1 & Hrun & _ & -> & Hsum & _).
  set (hs1 := setPotManager pots1 hs).
  set (gs1 := setHandState hs1 (setPlayers (map (setCurrentBet 0) (players gs)) gs)).
  destruct (advancePhase_next hs1 (deck gs1) Hriver Hshow)
    as (cards_ & deck_ & phase_ & Hadv & Hphase & Hcount).
  destruct (nextStreet_turn gs1 hs1 cards_ deck_ phase_ (setCurrentBet 0 dealer))
    as (next & nextPlayer & idx & Hnext & Hfirst & Hnp & Hturn).
  { apply Forall_map. eapply Forall_impl; [exact Hseated|]. by intros p [? _]. }
  { cbn [players gs1 setHandState setPlayers]. rewrite map_map. exact Hnd. }
  { cbn [players gs1 setHandState setPlayers dealerIndex hs1 setPotManager].
    rewrite active_zeroed, atIndex_map, Hdealer. done. }
  cbn [players gs1 setHandState setPlayers] in Hnext, Hfirst, Hnp, Hturn.
  rewrite map_map in Hnext, Hfirst, Hnp, Hturn.
  cbn [id setCurrentBet] in Hfirst.
  eexists _, _, next, nextPlayer. split.
  { unfold processBettingRound. rewrite Ehs, Hcomplete.
    destruct (length (List.filter active (players gs)) <=? 1)%nat eqn:E;
      [apply Nat.leb_le in E; lia|].
    unfold collectRound. rewrite Hrun. cbn [mbind option_bind].
    fold hs1. fold gs1. rewrite Hadv. exact Hnext. }
  split; [reflexivity|]. split; [reflexivity|].
  split.
  { rewrite Hphase. unfold nextPhase. cbn [phase hs1 setPotManager].
    by destruct (phase hs). }
  split; [reflexivity|].
  split; [exact Hcount|]. split; [reflexivity|].
  split.
  { change (potsAmount pots1 = potsAmount (potManager hs) + betsTotal (players gs)). lia. }
  split; [exact Hfirst|]. split; [exact Hnp|exact Hturn].
Qed.

(** X14.  A street change before the river, in a room whose players have
    distinct ids and whose [dealerIndex] designates one of the players still
    active: [processBettingRound] returns normally; every bet is zero and
    the pots hold the bets collected; the active players' [hasActed] is
    reset and nothing else about a player changes; the phase is the one
    [HandState.nextPhase] gives, the street bet is zero and the displayed pot
    is unchanged; the community cards number what [getPhaseCardCount] says
    of the new phase if they did so before; and the turn goes to the first
    seat after the designated dealer's, going round the table, whose player
    has not folded and has chips. *)
Theorem street_change_postcondition (gs : GameState) (hs : HandState) (dealer : Player) :
  handState gs = Some hs ->
  Forall seated (players gs) ->
  NoDup (map id (players gs)) ->
  (2 <= length (List.filter active (players gs)))%nat ->
  roundComplete hs (List.filter active (players gs)) = true ->
  phase hs <> river -> phase hs <> showdown ->
  atIndex (List.filter active (players gs)) (dealerIndex hs) = Some dealer ->
  exists gs' hs' next nextPlayer,
    processBettingRound gs = (gs', Returned)
    /\ handState gs' = Some hs'
    /\ players gs' = map (fun p => if active p then resetForNewBettingRound p
                                   else setCurrentBet 0 p) (players gs)
    /\ phase hs' = phase (fst (nextPhase hs))
    /\ hs_currentBet hs' = 0
    /\ (length (communityCards hs) = getPhaseCardCount hs ->
        length (communityCards hs') = getPhaseCardCount hs')
    /\ pot hs' = pot hs
    /\ potsAmount (potManager hs') = potsAmount (potManager hs) + betsTotal (players gs)
    /\ firstInHandAfter (players gs') (findIndex (hasId (id dealer)) (players gs')) next
    /\ atIndex (players gs') next = Some nextPlayer
    /\ atIndex (List.filter active (players gs')) (currentPlayerIndex hs') = Some nextPlayer.
Proof. exact (street_change_run gs hs dealer). Qed.

Lemma street_change_postcondition_witness :
  exists gs' hs', processBettingRound afterCheck = (gs', Returned)
                  /\ handState gs' = Some hs' /\ phase hs' = flop.
Proof.
  edestruct (street_change_postcondition afterCheck)
    as (gs' & hs' & next & nextPlayer & Hrun & Ehs' & _ & Hphase & _).
  - reflexivity.
  - repeat constructor; vm_compute; discriminate.
  - apply (bool_decide_unpack _). vm_compute. exact I.
  - vm_compute. lia.
  - vm_compute. reflexivity.
  - discriminate.
  - discriminate.
  - reflexivity.
  - exists gs', hs'. split; [exact Hrun|]. split; [exact Ehs'|exact Hphase].
Defined.

(** ** A street change without the dealer's seat *)

Lemma advancePhase_any (hs : HandState) (deckCards : list Card) :
  phase hs <> river ->
  exists cards_ deck_ phase_,
    advancePhase hs deckCards = Some (cards_, deck_, phase_)
    /\ phase_ = phase (fst (nextPhase hs))
    /\ (phase hs <> showdown ->
        length (communityCards hs) = getPhaseCardCount hs ->
        length cards_ = getPhaseCardCount (setPhase phase_ hs)).
Proof.
  intros Hr. destruct (decide (phase hs = showdown)) as [Hs|Hs].
  - exists (communityCards hs), deckCards, showdown.
    unfold advancePhase, nextPhase. rewrite Hs. done.
  - destruct (advancePhase_next hs deckCards Hr Hs) as (cards_ & deck_ & phase_ & H1 & H2 & H3).
    exists cards_, deck_, phase_. split; [done|]. split; [done|]. intros _. exact H3.
Qed.

Lemma street_change_stops (gs : GameState) (hs : HandState) :
  handState gs = Some hs ->
  Forall (fun p => 0 <= currentBet p) (players gs) ->
  (2 <= length (List.filter active (players gs)))%nat ->
  roundComplete hs (List.filter active (players gs)) = true ->
  phase hs <> river ->
  Z.of_nat (length (List.filter active (players gs))) <= dealerIndex hs ->
  exists gs' hs',
    processBettingRound gs = (gs', Threw)
    /\ handState gs' = Some hs'
    /\ players gs' = map (fun p => if active p then resetForNewBettingRound p
                                   else setCurrentBet 0 p) (players gs)
    /\ potsAmount (potManager hs') = potsAmount (potManager hs) + betsTotal (players gs)
    /\ pot hs' = pot hs
    /\ phase hs' = phase (fst (nextPhase hs))
    /\ hs_currentBet hs' = 0
    /\ (phase hs <> showdown ->
        length (communityCards hs) = getPhaseCardCount hs ->
        length (communityCards hs') = getPhaseCardCount hs')
    /\ currentPlayerIndex hs' = currentPlayerIndex hs.
Proof.
  intros Ehs Hnn Hmany Hcomplete Hphase Hdealer.
  destruct (collectBets_total (players gs) (potManager hs) Hnn)
    as (ps1 & pots1 & Hrun & _ & -> & Hsum & _).
  set (hs1 := setPotManager pots1 hs).
  set (gs1 := setHandState hs1 (setPlayers (map (setCurrentBet 0) (players gs)) gs)).
  destruct (advancePhase_any hs1 (deck gs1) Hphase)
    as (cards_ & deck_ & phase_ & Hadv & Hnext & Hcount).
  eexists _, _. split.
  { unfold processBettingRound. rewrite Ehs, Hcomplete.
    destruct (length (List.filter active (players gs)) <=? 1)%nat eqn:E;
      [apply Nat.leb_le in E; lia|].
    unfold collectRound. rewrite Hrun. cbn [mbind option_bind].
    fold hs1. fold gs1. rewrite Hadv.
    unfold nextStreet. cbn [players gs1 setPlayers setHandState].
    rewrite atIndex_beyond; [reflexivity|].
    rewrite length_map, active_zeroed, length_map. exact Hdealer. }
  split; [reflexivity|]. split.
  { cbn [players gs1 setPlayers setHandState setDeck]. rewrite map_map.
    apply map_ext. intros p. change (active (setCurrentBet 0 p)) with (active p).
    by destruct (active p), p. }
  split.
  { change (potsAmount pots1 = potsAmount (potManager hs) + betsTotal (players gs)). lia. }
  split; [reflexivity|]. split.
  { rewrite Hnext. unfold nextPhase. cbn [phase hs1 setPotManager]. by destruct (phase hs). }
  split; [reflexivity|]. split; [exact Hcount|reflexivity].
Qed.

(** X12.  A street change reads the dealer through [dealerIndex], an index
    into the players that had chips when the hand started.  When the betting
    round is complete before the river and [dealerIndex] is not below the
    number of players still active (not folded, with chips), as after a fold,
    [processBettingRound] ends in a [TypeError], and it does so after the
    bets are collected and the next street is dealt: in the state it leaves,
    every bet is zero and the pots hold the bets collected, the active
    players' [hasActed] is reset, the phase is the one that follows, the
    street bet is zero, the community cards number what
    [getPhaseCardCount] says of the new phase if they did so before, and
    the turn index is the one of the street that ended. *)
Theorem street_change_needs_dealer_seat (gs : GameState) (hs : HandState) :
  handState gs = Some hs ->
  Forall (fun p => 0 <= currentBet p) (players gs) ->
  (2 <= length (List.filter active (players gs)))%nat ->
  roundComplete hs (List.filter active (players gs)) = true ->
  phase hs <> river ->
  Z.of_nat (length (List.filter active (players gs))) <= dealerIndex hs ->
  exists gs' hs',
    processBettingRound gs = (gs', Threw)
    /\ handState gs' = Some hs'
    /\ players gs' = map (fun p => if active p then resetForNewBettingRound p
                                   else setCurrentBet 0 p) (players gs)
    /\ potsAmount (potManager hs') = potsAmount (potManager hs) + betsTotal (players gs)
    /\ pot hs' = pot hs
    /\ phase hs' = phase (fst (nextPhase hs))
    /\ hs_currentBet hs' = 0
    /\ (phase hs <> showdown ->
        length (communityCards hs) = getPhaseCardCount hs ->
        length (communityCards hs') = getPhaseCardCount hs')
    /\ currentPlayerIndex hs' = currentPlayerIndex hs.
Proof. exact (street_change_stops gs hs). Qed.

Lemma street_change_needs_dealer_seat_witness :
  exists gs' hs',
    processBettingRound dealerFolded = (gs', Threw)
    /\ handState gs' = Some hs'
    /\ map currentBet (players gs') = [0; 0; 0]
    /\ potsAmount (potManager hs') = 40
    /\ phase hs' = flop
    /\ length (communityCards hs') = 3%nat.
Proof.
  set (hs := mkHandState preflop [] 40 20 2 0 1 0 true [] [mkPot 0 ∅]).
  assert (Ehs : handState dealerFolded = Some hs) by reflexivity.
  edestruct (street_change_needs_dealer_seat dealerFolded hs Ehs)
    as (gs' & hs' & Hrun & Ehs' & Hps & Hpots & _ & Hphase & _ & Hcards & _).
  - repeat constructor; vm_compute; discriminate.
  - vm_compute. lia.
  - vm_compute. reflexivity.
  - discriminate.
  - vm_compute. discriminate.
  - exists gs', hs'. split; [exact Hrun|]. split; [exact Ehs'|].
    split; [rewrite Hps; reflexivity|]. split; [exact Hpots|]. split; [exact Hphase|].
    rewrite Hcards; [|discriminate|reflexivity].
    unfold getPhaseCardCount. rewrite Hphase. reflexivity.
Defined.

(** ** Whose turn it is after an action *)

Lemma seekIn_skipOut (ps : list Player) (fuel : nat) (x next : Z) :
  seekIn ps fuel x = Found next -> skipOut ps fuel x = Found next.
Proof.
  revert x. induction fuel as [|fuel IH]; intros x; cbn [seekIn skipOut];
    destruct (atIndex ps x) as [p|]; try done; destruct (outOfHand p); try done.
  apply IH.
Qed.

Lemma skipOut_all_out (ps : list Player) (attempts : nat) (x : Z) :
  (forall p, p ∈ ps -> outOfHand p = true) ->
  0 <= x < Z.of_nat (length ps) ->
  exists next p, skipOut ps attempts x = Found next
                 /\ atIndex ps next = Some p /\ outOfHand p = true.
Proof.
  intros Hall. revert x. induction attempts as [|a IH]; intros x Hx;
    destruct (atIndex_in_range ps x Hx) as [p Hp];
    pose proof (Hall p (atIndex_elem _ _ _ Hp)) as Hout;
    cbn [skipOut]; rewrite Hp, Hout.
  - by exists x, p.
  - apply IH. rewrite Z.rem_mod_nonneg by lia. apply Z.mod_pos_bound. lia.
Qed.

Lemma findIndexFrom_none {A : Type} (f : A -> bool) (l : list A) (i : Z) :
  (forall x, x ∈ l -> f x = false) -> findIndexFrom f i l = -1.
Proof.
  revert i. induction l as [|z l IH]; intros i H; [done|]. cbn [findIndexFrom].
  rewrite (H z) by (by left). apply IH. intros x Hx. apply H. by right.
Qed.

Lemma findIndex_hasId (i : string) (l l' : list Player) :
  map id l = map id l' -> findIndex (hasId i) l = findIndex (hasId i) l'.
Proof.
  intros H. unfold findIndex, hasId.
  transitivity (findIndexFrom (fun s => bool_decide (s = i)) 0 (map id l)).
  - symmetry. apply (findIndexFrom_map (fun s => bool_decide (s = i)) id).
  - rewrite H. apply (findIndexFrom_map (fun s => bool_decide (s = i)) id).
Qed.

Lemma applyAction_actor hs player action p' hs' raised :
  0 <= chips player ->
  applyAction hs player action = Some (p', hs', raised) ->
  id p' = id player /\ 0 <= chips p'.
Proof.
  intros Hc.
  assert (Hsnd : forall a, id (snd (bet a player)) = id player
                           /\ 0 <= chips (snd (bet a player))).
  { intros a. split; [|rewrite bet_chips; lia].
    unfold bet. cbv zeta. cbn [snd]. by destruct (_ =? 0). }
  assert (Hbet : forall a x q, bet a player = (x, q) ->
            id (setHasActed true q) = id player /\ 0 <= chips (setHasActed true q)).
  { intros a x q E. specialize (Hsnd a). rewrite E in Hsnd. exact Hsnd. }
  assert (Hcall : forall q h, doCall hs player = (q, h) -> id q = id player /\ 0 <= chips q).
  { unfold doCall. intros q h.
    destruct (hs_currentBet hs - currentBet player >? chips player).
    - destruct (bet (chips player) player) as [x q1] eqn:E. intros [= <- <-]. by eapply Hbet.
    - destruct (bet _ player) as [x q1] eqn:E. intros [= <- <-]. by eapply Hbet. }
  destruct action as [| | |amount]; unfold applyAction.
  - intros [= <- <- <-]. by split.
  - destruct (currentBet player <? hs_currentBet hs); [done|]. intros [= <- <- <-]. by split.
  - destruct (doCall hs player) as [q h] eqn:E. intros [= <- <- <-]. by eapply Hcall.
  - destruct (amount <=? 0); [done|]. cbv zeta.
    destruct ((amount - (hs_currentBet hs - currentBet player) <? minRaiseFor (phase hs))
              && (amount <? chips player)).
    { destruct (isBot player); [|done].
      destruct (doCall hs player) as [q h] eqn:E. intros [= <- <- <-]. by eapply Hcall. }
    destruct (currentBet player + amount <=? hs_currentBet hs).
    { destruct (isBot player); [|done].
      destruct (doCall hs player) as [q h] eqn:E. intros [= <- <- <-]. by eapply Hcall. }
    destruct (currentBet player + amount >? chips player + currentBet player); [done|].
    destruct (bet amount player) as [x q] eqn:E. intros [= <- <- <-]. by eapply Hbet.
Qed.

Lemma afterAction_facts (ps : list Player) (seat : Z) (player actor : Player) (raised : bool) :
  atIndex ps seat = Some player -> id actor = id player -> 0 <= chips actor ->
  Forall (fun p => 0 <= chips p) ps ->
  map id (afterAction ps seat actor raised) = map id ps
  /\ length (afterAction ps seat actor raised) = length ps
  /\ Forall (fun p => 0 <= chips p) (afterAction ps seat actor raised).
Proof.
  intros Hseat Hid Hc Hps. apply atIndex_lookup in Hseat.
  assert (H1 : map id (<[Z.to_nat seat := actor]> ps) = map id ps)
    by (by apply (map_insert_same id _ _ player)).
  assert (H2 : Forall (fun p => 0 <= chips p) (<[Z.to_nat seat := actor]> ps))
    by (by apply Forall_insert).
  unfold afterAction. cbv zeta. destruct raised.
  - unfold resetOthers. split; [|split].
    + rewrite map_map, <- H1. apply map_ext. intros p. by destruct (_ && _).
    + by rewrite length_map, length_insert.
    + apply Forall_map. eapply Forall_impl; [exact H2|]. intros p Hp. cbn beta.
      by destruct (_ && _).
  - split; [done|]. split; [apply length_insert|done].
Qed.

Lemma action_turn (gs : GameState) (hs : HandState) (playerId_ : string) (action : Action)
    (player currentPlayer p' : Player) (hs' : HandState) (raised : bool) :
  handState gs = Some hs ->
  Forall (fun p => 0 <= chips p) (players gs) ->
  NoDup (map id (players gs)) ->
  atIndex (players gs) (findIndex (hasId playerId_) (players gs)) = Some player ->
  atIndex (List.filter active (players gs)) (currentPlayerIndex hs) = Some currentPlayer ->
  id currentPlayer = playerId_ ->
  hasActed player && negb (isAllIn player) = false ->
  applyAction hs player action = Some (p', hs', raised) ->
  let seat := findIndex (hasId playerId_) (players gs) in
  let ps2 := afterAction (players gs) seat p' raised in
  exists idx,
    handlePlayerAction gs playerId_ action
    = (setHandState (setCurrentPlayerIndex idx hs') (setPlayers ps2 gs), Returned)
    /\ ((exists p, p ∈ ps2 /\ outOfHand p = false) ->
        exists next nextPlayer,
          firstInHandAfter ps2 seat next
          /\ atIndex ps2 next = Some nextPlayer
          /\ atIndex (List.filter active ps2) idx = Some nextPlayer)
    /\ ((forall p, p ∈ ps2 -> outOfHand p = true) -> idx = 0).
Proof.
  intros Ehs Hchips Hnd Hplayer Hcur Hcurid Hacted Hact seat ps2.
  pose proof (Forall_lookup_1 _ _ _ _ Hchips (atIndex_lookup _ _ _ Hplayer)) as Hpc.
  destruct (applyAction_actor _ _ _ _ _ _ Hpc Hact) as [Hid Hc'].
  destruct (afterAction_facts (players gs) seat player p' raised Hplayer Hid Hc' Hchips)
    as (Hids & Hlen & Hchips2). fold ps2 in Hids, Hlen, Hchips2.
  pose proof (atIndex_range _ _ _ Hplayer) as Hseat. fold seat in Hseat.
  set (n := Z.of_nat (length ps2)).
  assert (Hn : 0 <= seat < n) by (unfold n; rewrite Hlen; exact Hseat).
  assert (Hrun : forall next nextPlayer,
            skipOut ps2 (length ps2) ((seat + 1) mod n) = Found next ->
            atIndex ps2 next = Some nextPlayer ->
            handlePlayerAction gs playerId_ action
            = (setHandState
                 (setCurrentPlayerIndex
                    (if findIndex (hasId (id nextPlayer)) (List.filter active ps2) <? 0
                     then 0 else findIndex (hasId (id nextPlayer)) (List.filter active ps2))
                    hs')
                 (setPlayers ps2 gs), Returned)).
  { intros next nextPlayer Hskip Hnp. unfold handlePlayerAction.
    rewrite Ehs, Hplayer, Hcur. unfold hasId at 1. rewrite bool_decide_eq_true_2 by done.
    cbn [negb]. rewrite Hacted, Hact. cbv zeta.
    assert (Hps2 : (if raised
                    then resetOthers (id player)
                           (<[Z.to_nat (findIndex (hasId playerId_) (players gs)) := p']>
                              (players gs))
                    else <[Z.to_nat (findIndex (hasId playerId_) (players gs)) := p']>
                           (players gs)) = ps2).
    { unfold ps2, afterAction. cbv zeta. by rewrite Hid. }
    rewrite Hps2. rewrite Hcurid.
    rewrite (findIndex_hasId playerId_ ps2 (players gs) Hids). fold seat. fold n.
    rewrite (Z.rem_mod_nonneg (seat + 1) n) by lia.
    rewrite Hskip, Hnp. done. }
  destruct (existsb (fun p => negb (outOfHand p)) ps2) eqn:Hex.
  - apply existsb_exists in Hex as (q & Hq & Hqin). apply negb_true_iff in Hqin.
    apply list_elem_of_In, list_elem_of_lookup in Hq as (j & Hj).
    destruct (seat_reachable n (seat + 1) j) as (t0 & Ht0 & Hreach);
      [lia|apply lookup_lt_Some in Hj; unfold n; lia|].
    destruct (seekIn_first ps2 (length ps2) (seat + 1) t0)
      as (t & Ht & Hseek & Hfound & Hbefore); [lia|unfold n in Ht0; lia| |].
    { exists q. fold n. rewrite Hreach. split; [by apply atIndex_nat|done]. }
    fold n in Hseek, Hfound, Hbefore. destruct Hfound as (nextPlayer & Hnp & Hin).
    apply seekIn_skipOut in Hseek.
    assert (Hnact : active nextPlayer = true).
    { apply in_hand_active; [|done].
      apply atIndex_elem in Hnp. by apply (proj1 (Forall_forall _ _) Hchips2). }
    destruct (findIndex_found (hasId (id nextPlayer)) (List.filter active ps2))
      as [Hidx (y & Hy & Hidy)].
    { exists nextPlayer. split; [|by apply bool_decide_eq_true].
      apply elem_of_filter_list. split; [by eapply atIndex_elem|done]. }
    eexists. split; [exact (Hrun _ _ Hseek Hnp)|]. split.
    + intros _. exists ((seat + 1 + Z.of_nat t) mod n), nextPlayer.
      split; [|split; [done|]].
      * exists t. split; [unfold n in Ht0; lia|]. split; [done|].
        split; [by exists nextPlayer|exact Hbefore].
      * destruct (findIndex (hasId (id nextPlayer)) (List.filter active ps2) <? 0) eqn:E;
          [apply Z.ltb_lt in E; lia|].
        rewrite Hy. f_equal. apply bool_decide_eq_true in Hidy.
        apply (same_id_same_player ps2); [by rewrite Hids| |by eapply atIndex_elem|done].
        apply atIndex_elem, elem_of_filter_list in Hy. tauto.
    + intros Hall. apply atIndex_elem in Hnp. rewrite (Hall _ Hnp) in Hin. done.
  - assert (Hall : forall p, p ∈ ps2 -> outOfHand p = true).
    { intros p Hp. apply list_elem_of_In in Hp.
      destruct (outOfHand p) eqn:E; [done|].
      assert (existsb (fun p => negb (outOfHand p)) ps2 = true); [|congruence].
      apply existsb_exists. exists p. by rewrite E. }
    destruct (skipOut_all_out ps2 (length ps2) ((seat + 1) mod n) Hall)
      as (next & nextPlayer & Hskip & Hnp & Hout).
    { apply Z.mod_pos_bound. lia. }
    assert (Hnone : findIndex (hasId (id nextPlayer)) (List.filter active ps2) = -1).
    { apply findIndexFrom_none. intros x Hx. apply elem_of_filter_list in Hx as [Hx Ha].
      apply active_in_hand in Ha. rewrite (Hall x Hx) in Ha. done. }
    eexists. split; [exact (Hrun _ _ Hskip Hnp)|]. split.
    + intros (p & Hp & Hpin). rewrite (Hall p Hp) in Hpin. done.
    + intros _. by rewrite Hnone.
Qed.

(** X15.  An accepted action of the player whose turn it is, in a room
    whose players have distinct ids and non-negative chips:
    [handlePlayerAction] returns normally, replaces the actor, resets the
    other active players' [hasActed] after a raise, and gives the turn to the
    first seat after the actor's, going round the table, whose player has not
    folded and has chips.  When no such player is left the turn index is
    0. *)
Theorem turn_passes_to_next_in_hand (gs : GameState) (hs : HandState) (playerId_ : string)
    (action : Action) (player currentPlayer p' : Player) (hs' : HandState) (raised : bool) :
  handState gs = Some hs ->
  Forall (fun p => 0 <= chips p) (players gs) ->
  NoDup (map id (players gs)) ->
  atIndex (players gs) (findIndex (hasId playerId_) (players gs)) = Some player ->
  atIndex (List.filter active (players gs)) (currentPlayerIndex hs) = Some currentPlayer ->
  id currentPlayer = playerId_ ->
  hasActed player && negb (isAllIn player) = false ->
  applyAction hs player action = Some (p', hs', raised) ->
  let seat := findIndex (hasId playerId_) (players gs) in
  let ps2 := afterAction (players gs) seat p' raised in
  exists idx,
    handlePlayerAction gs playerId_ action
    = (setHandState (setCurrentPlayerIndex idx hs') (setPlayers ps2 gs), Returned)
    /\ ((exists p, p ∈ ps2 /\ outOfHand p = false) ->
        exists next nextPlayer,
          firstInHandAfter ps2 seat next
          /\ atIndex ps2 next = Some nextPlayer
          /\ atIndex (List.filter active ps2) idx = Some nextPlayer)
    /\ ((forall p, p ∈ ps2 -> outOfHand p = true) -> idx = 0).
Proof. exact (action_turn gs hs playerId_ action player currentPlayer p' hs' raised). Qed.

Lemma turn_passes_to_next_in_hand_witness :
  exists gs', handlePlayerAction firstHand "A" Call = (gs', Returned).
Proof.
  edestruct turn_passes_to_next_in_hand with (gs := firstHand) (playerId_ := "A") (action := Call)
    as (idx & Hrun & _).
  - reflexivity.
  - repeat constructor; vm_compute; discriminate.
  - apply (bool_decide_unpack _). vm_compute. exact I.
  - reflexivity.
  - reflexivity.
  - reflexivity.
  - reflexivity.
  - cbv. reflexivity.
  - eexists. exact Hrun.
Defined.

(** ** What a settlement pays *)

Lemma payable_nil seats bound : 0 <= bound -> payable seats bound [].
Proof. intros H. split; [constructor|done]. Qed.

Lemma payable_app seats b1 b2 L1 L2 :
  payable seats b1 L1 -> payable seats b2 L2 -> payable seats (b1 + b2) (L1 ++ L2).
Proof.
  intros [H1 S1] [H2 S2]. split; [by apply Forall_app|].
  rewrite map_app, sumZ_app. lia.
Qed.

Lemma sumZ_const {A : Type} (s : Z) (f : A -> nat) (l : list A) :
  sumZ (map snd (map (fun w => (f w, s)) l)) = Z.of_nat (length l) * s.
Proof. induction l as [|x l IH]; [done|]. cbn [map sumZ snd length]. rewrite IH. lia. Qed.

Lemma settlePot_bounded evaluations ws c (indexedPot : nat * Pot) :
  0 <= amount (snd indexedPot) ->
  exists L ws' c',
    (forall ps, settlePot evaluations (ps, ws, c) indexedPot = (applyPayouts L ps, ws', c'))
    /\ payable (map seat evaluations) (amount (snd indexedPot)) L.
Proof.
  destruct indexedPot as [potIndex_ pot_]. cbn [snd]. intros Hpot. unfold settlePot.
  destruct (negb (bool_decide (c = Returned)));
    [exists [], ws, c; split; [done|by apply payable_nil]|].
  destruct (amount pot_ =? 0); [exists [], ws, c; split; [done|by apply payable_nil]|].
  destruct (mapM entryScore _) as [[|s0 scores]|];
    [exists [], ws, c; split; [done|by apply payable_nil]|
    |exists [], ws, Threw; split; [done|by apply payable_nil]].
  set (eligible := List.filter (fun e => bool_decide (seatId e ∈ contributors pot_))
                     evaluations).
  set (winners_ := List.filter
                     (fun e => bool_decide (entryScore e = Some (Math_max s0 scores)))
                     eligible).
  set (k := Z.of_nat (length winners_)).
  eexists _, _, _. split; [intros ps; rewrite fold_payWinner; reflexivity|].
  fold winners_. fold k.
  assert (Hshare : 0 <= amount pot_ / k /\ k * (amount pot_ / k) <= amount pot_).
  { destruct (decide (k = 0)) as [->|Hk].
    - rewrite Z.div_0_r. lia.
    - split; [apply Z.div_pos; lia|apply Z.mul_div_le; lia]. }
  split.
  - apply Forall_map. apply Forall_forall. intros w Hw. cbn [fst snd].
    split; [tauto|]. apply list_elem_of_fmap_2.
    apply list_elem_of_In, filter_In in Hw as [Hw _].
    apply filter_In in Hw as [Hw _]. by apply list_elem_of_In.
  - rewrite sumZ_const. fold k. tauto.
Qed.

Lemma settlePots_bounded evaluations (indexedPots : list (nat * Pot)) ws c :
  Forall (fun ip : nat * Pot => 0 <= amount (snd ip)) indexedPots ->
  exists L ws' c',
    (forall ps, fold_left (settlePot evaluations) indexedPots (ps, ws, c)
                = (applyPayouts L ps, ws', c'))
    /\ payable (map seat evaluations) (potsAmount (map snd indexedPots)) L.
Proof.
  intros Hpots. revert ws c. induction Hpots as [|ip rest Hip _ IH]; intros ws c.
  - exists [], ws, c. split; [done|]. by apply payable_nil.
  - destruct (settlePot_bounded evaluations ws c ip Hip) as (L1 & ws1 & c1 & H1 & P1).
    destruct (IH ws1 c1) as (L2 & ws2 & c2 & H2 & P2).
    exists (L1 ++ L2), ws2, c2. split.
    + intros ps. cbn [fold_left]. by rewrite H1, H2, applyPayouts_app.
    + unfold potsAmount. cbn [map sumZ]. by apply payable_app.
Qed.

Lemma indexed_snd {A : Type} (l : list A) : map snd (indexed l) = l.
Proof.
  unfold indexed. generalize 0%nat. induction l as [|x l IH]; intros s; [done|].
  cbn [length seq combine map snd]. by rewrite IH.
Qed.

Lemma evaluations_seats community refs evaluations :
  mapM (evaluateSeat community) refs = Some evaluations ->
  map seat evaluations = map fst refs.
Proof.
  intros H. apply mapM_Some in H.
  induction H as [|r e refs evaluations Hr _ IH]; [done|].
  cbn [map]. rewrite IH. f_equal. unfold evaluateSeat in Hr.
  destruct (evaluateDealt _); [|done]. cbn in Hr. by injection Hr as <-.
Qed.

Lemma locatedFrom_passes {A : Type} (f : A -> bool) (l : list A) i k x :
  (k, x) ∈ locatedFrom f i l -> f x = true.
Proof.
  revert i. induction l as [|y l IH]; intros i H; simpl in H.
  - by apply elem_of_nil in H.
  - destruct (f y) eqn:E; [|by eapply IH].
    apply elem_of_cons in H as [[= -> ->]|H]; [done|by eapply IH].
Qed.

Lemma gain_nonneg seats bound L i : payable seats bound L -> 0 <= gain L i.
Proof.
  intros [H _]. unfold gain. induction H as [|[k s] L [Hs _] _ IH]; [done|].
  cbn [List.filter fst]. destruct (k =? i)%nat; [|done]. cbn [map sumZ snd] in *. lia.
Qed.

Lemma gain_elsewhere seats bound L i : payable seats bound L -> i ∉ seats -> gain L i = 0.
Proof.
  intros [H _] Hi. unfold gain. induction H as [|[k s] L [_ Hk] _ IH]; [done|].
  cbn [List.filter fst] in *. destruct (k =? i)%nat eqn:E; [|done].
  apply Nat.eqb_eq in E. by subst k.
Qed.

Lemma chipsTotal_alter s k ps :
  0 <= s -> chipsTotal (alter (addChips s) k ps) <= chipsTotal ps + s.
Proof.
  intros Hs. unfold chipsTotal. revert k. induction ps as [|p ps IH]; intros k.
  - destruct k; cbn [alter list_alter map sumZ]; lia.
  - destruct k as [|k].
    + cbn [alter list_alter map sumZ addChips chips setChips]. lia.
    + change (alter (addChips s) (S k) (p :: ps)) with (p :: alter (addChips s) k ps).
      cbn [map sumZ]. specialize (IH k). lia.
Qed.

Lemma chipsTotal_payouts seats bound L ps :
  payable seats bound L -> chipsTotal (applyPayouts L ps) <= chipsTotal ps + bound.
Proof.
  intros [H Hsum]. assert (chipsTotal (applyPayouts L ps) <= chipsTotal ps + sumZ (map snd L));
    [|lia]. clear Hsum. revert ps.
  induction H as [|[k s] L [Hs _] _ IH]; intros ps;
    [change (applyPayouts [] ps) with ps; cbn [map sumZ]; lia|].
  change (applyPayouts ((k, s) :: L) ps) with (applyPayouts L (alter (addChips s) k ps)).
  specialize (IH (alter (addChips s) k ps)).
  pose proof (chipsTotal_alter s k ps Hs). cbn [map sumZ snd] in *. lia.
Qed.

Lemma collectLoop_nonneg fuel mask players pots ps' pots' :
  covers mask players ->
  (length (List.filter hasBet players) <= fuel)%nat ->
  Forall (fun p => 0 <= currentBet p) players ->
  Forall (fun pot_ => 0 <= amount pot_) pots ->
  collectLoop fuel mask players pots = Some (ps', pots') ->
  Forall (fun pot_ => 0 <= amount pot_) pots'.
Proof.
  revert players pots. induction fuel as [|fuel IH]; intros players pots Hcov Hfuel Hnn Hpots.
  - assert (Hex : existsb hasBet players = false).
    { rewrite existsb_filter. destruct (List.filter hasBet players); [done|simpl in Hfuel; lia]. }
    rewrite collectLoop_idle by (by rewrite (selected_existsb _ _ Hcov)).
    by intros [= <- <-].
  - destruct (existsb hasBet players) eqn:Hex.
    2:{ rewrite collectLoop_idle by (by rewrite (selected_existsb _ _ Hcov)).
        by intros [= <- <-]. }
    cbn [collectLoop]. rewrite (selected_existsb _ _ Hcov), Hex.
    destruct (collectPass_exact mask players pots Hcov Hex)
      as (m & closed & cur & Hm & (q & Hq & Hqm) & Hle & Hsplit & Hpass).
    rewrite Hpass. cbv zeta.
    assert (Hshape : Forall (fun pot_ => 0 <= amount pot_) closed /\ 0 <= amount cur).
    { destruct (splitCurrent_spec pots) as [[-> E]|(c & u & -> & E)];
        rewrite E in Hsplit; injection Hsplit as <- <-.
      - split; [constructor|done].
      - apply Forall_app in Hpots as [H1 H2]. split; [done|]. by inversion H2. }
    destruct Hshape as [Hclosed Hcur].
    assert (Hpaid : 0 < paid (Some m) players).
    { apply (paid_positive m players q); try done. apply hasBet_true. lia. }
    apply IH.
    + by apply covers_payIn.
    + pose proof (bettors_lt m players q Hm Hq Hqm). lia.
    + by apply nonneg_payIn.
    + destruct (_ && _); apply Forall_app; split; try done;
        repeat constructor; cbn [amount emptyPot]; lia.
Qed.

Lemma collectBets_nonneg players pots ps' pots' :
  Forall (fun p => 0 <= currentBet p) players ->
  Forall (fun pot_ => 0 <= amount pot_) pots ->
  collectBets players pots = Some (ps', pots') ->
  Forall (fun pot_ => 0 <= amount pot_) pots'.
Proof.
  intros Hnn Hpots. unfold collectBets.
  destruct (length (selected (map hasBet players) players) =? 0)%nat.
  - by intros [= <- <-].
  - apply collectLoop_nonneg; [apply covers_init|apply filter_length_le|done|done].
Qed.

Lemma potsAmount_nonneg pots : Forall (fun pot_ => 0 <= amount pot_) pots -> 0 <= potsAmount pots.
Proof. unfold potsAmount. induction 1 as [|p pots Hp _ IH]; cbn [map sumZ]; lia. Qed.

Lemma settle_bounded community (refs : list (nat * Player)) ps pots old :
  Forall (fun pot_ => 0 <= amount pot_) pots ->
  exists L ws c,
    settle community refs ps pots old = (applyPayouts L ps, ws, c)
    /\ payable (map fst refs) (potsAmount pots) L.
Proof.
  intros Hpots. unfold settle.
  assert (Hshow : forall evaluations,
            map seat evaluations = map fst refs ->
            exists L ws c,
              fold_left (settlePot evaluations) (indexed pots) (ps, [], Returned)
              = (applyPayouts L ps, ws, c)
              /\ payable (map fst refs) (potsAmount pots) L).
  { intros evaluations Hseats.
    destruct (settlePots_bounded evaluations (indexed pots) [] Returned)
      as (L & ws & c & HL & HP).
    { apply Forall_forall. intros ip Hip.
      assert (Hin : snd ip ∈ pots).
      { rewrite <- (indexed_snd pots). by apply list_elem_of_fmap_2. }
      by apply (proj1 (Forall_forall _ _) Hpots). }
    rewrite indexed_snd, Hseats in HP. exists L, ws, c. by rewrite HL. }
  assert (Hmany : exists L ws c,
            match mapM (evaluateSeat community) refs with
            | Some evaluations =>
                fold_left (settlePot evaluations) (indexed pots) (ps, [], Returned)
            | None => (ps, old, Threw)
            end = (applyPayouts L ps, ws, c)
            /\ payable (map fst refs) (potsAmount pots) L).
  { destruct (mapM (evaluateSeat community) refs) as [evaluations|] eqn:Eev.
    - apply Hshow. by apply (evaluations_seats community).
    - exists [], old, Threw. split; [done|]. by apply payable_nil, potsAmount_nonneg. }
  destruct refs as [|[only winner] [|r2 refs]]; [exact Hmany| |exact Hmany].
  eexists [(only, fold_left (fun t pot_ => t + amount pot_) pots 0)], _, Returned.
  split; [reflexivity|]. rewrite fold_amounts.
  pose proof (potsAmount_nonneg pots Hpots). split.
  - constructor; [|constructor]. cbn [fst snd map]. split; [lia|]. by left.
  - cbn [map snd sumZ]. lia.
Qed.

Lemma endHand_payouts (gs : GameState) (hs : HandState) :
  handState gs = Some hs ->
  Forall (fun p => 0 <= currentBet p) (players gs) ->
  Forall (fun pot_ => 0 <= amount pot_) (potManager hs) ->
  Forall2 (fun p p' => p' = setChips (chips p') (setCurrentBet 0 p)
                       /\ chips p <= chips p'
                       /\ (hasFolded p = true -> chips p' = chips p))
    (players gs) (players (fst (endHand gs)))
  /\ chipsTotal (players (fst (endHand gs)))
     <= chipsTotal (players gs) + potsAmount (potManager hs) + betsTotal (players gs).
Proof.
  intros Ehs Hnn Hpots.
  destruct (collectBets_total (players gs) (potManager hs) Hnn)
    as (ps1 & pots1 & Hrun & _ & -> & Hsum & _).
  pose proof (collectBets_nonneg _ _ _ _ Hnn Hpots Hrun) as Hpots1.
  set (refs := located (fun p => negb (hasFolded p)) (players gs)).
  destruct (settle_bounded (communityCards hs) refs (map (setCurrentBet 0) (players gs))
              pots1 (winners hs) Hpots1) as (L & ws & c & Hsettle & HP).
  assert (Hplayers : players (fst (endHand gs))
                     = applyPayouts L (map (setCurrentBet 0) (players gs))).
  { unfold endHand, collectRound. rewrite Ehs, Hrun. cbn [mbind option_bind].
    fold refs.
    cbn [communityCards players potManager winners setPotManager setHandState setPlayers].
    rewrite Hsettle. by destruct c. }
  rewrite Hplayers. split.
  - apply Forall2_same_length_lookup_2.
    + by rewrite applyPayouts_length, length_map.
    + intros i p p' Hp Hp'. rewrite applyPayouts_lookup in Hp'.
      change (map (setCurrentBet 0) (players gs)) with (setCurrentBet 0 <$> players gs) in Hp'.
      rewrite list_lookup_fmap, Hp in Hp'. cbn in Hp'. injection Hp' as <-.
      split; [reflexivity|]. cbn [chips addChips setChips setCurrentBet].
      pose proof (gain_nonneg _ _ _ i HP). split; [lia|].
      intros Hfolded. rewrite (gain_elsewhere _ _ _ i HP); [lia|].
      intros Hin. apply list_elem_of_fmap in Hin as ([k x] & Hk & Hin). cbn in Hk. subst k.
      pose proof (located_lookup _ _ _ _ Hin) as Hx.
      pose proof (locatedFrom_passes _ _ _ _ _ Hin) as Hpass.
      rewrite Hp in Hx. injection Hx as <-. rewrite Hfolded in Hpass. done.
  - pose proof (chipsTotal_payouts _ _ _ (map (setCurrentBet 0) (players gs)) HP) as H.
    rewrite chipsTotal_zeroed in H. lia.
Qed.



(** ** Leaving the table *)

Lemma sumZ_delete {A : Type} (f : A -> Z) (l : list A) (i : nat) (x : A) :
  l !! i = Some x -> sumZ (map f (delete i l)) = sumZ (map f l) - f x.
Proof.
  revert i. induction l as [|y l IH]; intros [|i] H; try done.
  - injection H as ->. cbn. lia.
  - change (delete (S i) (y :: l)) with (y :: delete i l). cbn [map sumZ].
    rewrite (IH i H). lia.
Qed.

Lemma disconnect_seat (gs gs' : GameState) (socketId : string) (leaver : Player) :
  atIndex (players gs) (findIndex (hasId socketId) (players gs)) = Some leaver ->
  disconnect gs socketId = Some gs' ->
  gs' = setPlayers (delete (Z.to_nat (findIndex (hasId socketId) (players gs))) (players gs)) gs.
Proof.
  intros Hleaver. unfold disconnect. rewrite Hleaver. cbv zeta.
  destruct (length _ =? 0)%nat; [done|]. by intros [= <-].
Qed.

Lemma disconnect_drops (gs gs' : GameState) (hs : HandState) (socketId : string)
    (leaver : Player) :
  handState gs = Some hs ->
  potConsistent gs ->
  atIndex (players gs) (findIndex (hasId socketId) (players gs)) = Some leaver ->
  disconnect gs socketId = Some gs' ->
  handState gs' = Some hs
  /\ players gs' = delete (Z.to_nat (findIndex (hasId socketId) (players gs))) (players gs)
  /\ pot hs = betsTotal (players gs') + potsAmount (potManager hs) + currentBet leaver
  /\ totalChips gs' = totalChips gs - chips leaver - currentBet leaver.
Proof.
  intros Ehs Hpot Hleaver Hrun.
  rewrite (disconnect_seat gs gs' socketId leaver Hleaver Hrun).
  apply atIndex_lookup in Hleaver.
  split; [done|]. split; [done|]. cbn [players setPlayers]. split.
  - unfold betsTotal. rewrite (sumZ_delete currentBet _ _ _ Hleaver).
    specialize (Hpot hs Ehs). unfold betsTotal in Hpot. lia.
  - unfold totalChips, potsOf, chipsTotal, betsTotal. cbn [players handState setPlayers].
    rewrite (sumZ_delete currentBet _ _ _ Hleaver), (sumZ_delete chips _ _ _ Hleaver). lia.
Qed.

(** X17.  When a player leaves during a hand the player is removed from the
    table with chips and outstanding bet: the bet is moved to no pot.  Where
    the displayed pot was the sum of the bets and the pots, it now exceeds
    them by the bet of the player who left, and the chips in play have
    dropped by that player's chips and bet. *)
Theorem disconnect_drops_the_outstanding_bet (gs gs' : GameState) (hs : HandState)
    (socketId : string) (leaver : Player) :
  handState gs = Some hs ->
  potConsistent gs ->
  atIndex (players gs) (findIndex (hasId socketId) (players gs)) = Some leaver ->
  disconnect gs socketId = Some gs' ->
  handState gs' = Some hs
  /\ players gs' = delete (Z.to_nat (findIndex (hasId socketId) (players gs))) (players gs)
  /\ pot hs = betsTotal (players gs') + potsAmount (potManager hs) + currentBet leaver
  /\ totalChips gs' = totalChips gs - chips leaver - currentBet leaver.
Proof. exact (disconnect_drops gs gs' hs socketId leaver). Qed.

Lemma disconnect_drops_the_outstanding_bet_witness :
  exists gs' hs,
    disconnect raisedPot "B" = Some gs'
    /\ handState gs' = Some hs
    /\ pot hs = betsTotal (players gs') + potsAmount (potManager hs) + 20.
Proof.
  edestruct disconnect_drops_the_outstanding_bet with (gs := raisedPot) (socketId := "B")
    as (Ehs' & _ & Hpot & _).
  - reflexivity.
  - intros hs0 E. injection E as <-. vm_compute. reflexivity.
  - reflexivity.
  - reflexivity.
  - eexists _, _. split; [reflexivity|]. split; [exact Ehs'|exact Hpot].
Defined.

Lemma filter_delete_length {A : Type} (f : A -> bool) (l : list A) (i : nat) (x : A) :
  l !! i = Some x -> f x = true ->
  S (length (List.filter f (delete i l))) = length (List.filter f l).
Proof.
  revert i. induction l as [|y l IH]; intros [|i] H Hx; try done.
  - injection H as ->. cbn [delete list_delete List.filter]. by rewrite Hx.
  - change (delete (S i) (y :: l)) with (y :: delete i l). cbn [List.filter].
    destruct (f y); cbn [length]; by rewrite <- (IH i H Hx).
Qed.

Lemma stale_turn (gs gs' : GameState) (hs : HandState) (socketId : string) (leaver : Player)
    (playerId_ : string) (action : Action) (player : Player) :
  handState gs = Some hs ->
  atIndex (players gs) (findIndex (hasId socketId) (players gs)) = Some leaver ->
  active leaver = true ->
  Z.of_nat (length (List.filter active (players gs))) - 1 <= currentPlayerIndex hs ->
  disconnect gs socketId = Some gs' ->
  atIndex (players gs') (findIndex (hasId playerId_) (players gs')) = Some player ->
  handlePlayerAction gs' playerId_ action = (gs', Threw).
Proof.
  intros Ehs Hleaver Hactive Hlast Hrun Hplayer.
  pose proof (disconnect_seat gs gs' socketId leaver Hleaver Hrun) as Hgs'.
  apply atIndex_lookup in Hleaver.
  pose proof (filter_delete_length active _ _ _ Hleaver Hactive) as Hlen.
  unfold handlePlayerAction. rewrite Hplayer.
  assert (Ehs' : handState gs' = Some hs) by (by rewrite Hgs').
  rewrite Ehs'. rewrite atIndex_beyond; [done|].
  rewrite Hgs'. cbn [players setPlayers]. lia.
Qed.

(** X18.  Nothing re-seats the turn when a player leaves.  When an active
    player disconnects while the turn index designates the last of the
    active players, the index is left beyond the remaining active players,
    and every action then submitted by a seated player ends in a
    [TypeError] and changes nothing. *)
Theorem disconnect_leaves_a_stale_turn (gs gs' : GameState) (hs : HandState)
    (socketId : string) (leaver : Player) (playerId_ : string) (action : Action)
    (player : Player) :
  handState gs = Some hs ->
  atIndex (players gs) (findIndex (hasId socketId) (players gs)) = Some leaver ->
  active leaver = true ->
  Z.of_nat (length (List.filter active (players gs))) - 1 <= currentPlayerIndex hs ->
  disconnect gs socketId = Some gs' ->
  atIndex (players gs') (findIndex (hasId playerId_) (players gs')) = Some player ->
  handlePlayerAction gs' playerId_ action = (gs', Threw).
Proof. exact (stale_turn gs gs' hs socketId leaver playerId_ action player). Qed.

Lemma disconnect_leaves_a_stale_turn_witness :
  exists gs', disconnect threeHanded "C" = Some gs'
              /\ handlePlayerAction gs' "A" Call = (gs', Threw).
Proof.
  eexists. split; [reflexivity|].
  eapply disconnect_leaves_a_stale_turn with (gs := threeHanded) (socketId := "C").
  - reflexivity.
  - reflexivity.
  - reflexivity.
  - vm_compute. discriminate.
  - reflexivity.
  - reflexivity.
Defined.

(** ** Settling with fewer than five cards *)

Lemma mapM_invalid community (refs : list (nat * Player)) :
  Forall (fun r => (length (hand (snd r)) + length community < 5)%nat) refs ->
  mapM (evaluateSeat community) refs = Some (map invalidEntry refs).
Proof.
  intros H. apply mapM_Some. induction H as [|r refs Hr _ IH]; [constructor|].
  cbn [map]. constructor; [|exact IH].
  unfold evaluateSeat, evaluateDealt. rewrite length_app.
  assert ((length (hand (snd r)) + length community <? 5)%nat = true) as ->
    by (by apply Nat.ltb_lt).
  reflexivity.
Qed.

Lemma Math_max_zeros (scores : list Z) :
  Forall (fun s => s = 0) scores -> Math_max 0 scores = 0.
Proof.
  unfold Math_max. induction 1 as [|s scores -> _ IH]; [done|]. cbn [fold_left]. exact IH.
Qed.

Lemma filter_invalid (f : string -> bool) (refs : list (nat * Player)) :
  List.filter (fun e => f (seatId e)) (map invalidEntry refs)
  = map invalidEntry (List.filter (fun r => f (id (snd r))) refs).
Proof.
  induction refs as [|r refs IH]; [done|]. cbn [map List.filter seatId invalidEntry].
  destruct (f (id (snd r))); cbn [map]; by rewrite IH.
Qed.

Lemma filter_all {A : Type} (f : A -> bool) (l : list A) :
  Forall (fun x => f x = true) l -> List.filter f l = l.
Proof. induction 1 as [|x l Hx _ IH]; [done|]. cbn [List.filter]. by rewrite Hx, IH. Qed.

Lemma settlePot_invalid (refs : list (nat * Player)) ps ws (ip : nat * Pot) :
  exists ws',
    settlePot (map invalidEntry refs) (ps, ws, Returned) ip
    = (applyPayouts (equalShares refs [snd ip]) ps, ws', Returned).
Proof.
  destruct ip as [potIndex_ pot_]. unfold settlePot, equalShares.
  cbn [snd flat_map]. rewrite app_nil_r. cbn [negb]. rewrite bool_decide_eq_true_2 by done.
  cbn [negb]. destruct (amount pot_ =? 0); [by exists ws|]. cbv zeta.
  pose proof (filter_invalid (fun s => bool_decide (s ∈ contributors pot_)) refs) as Hf.
  cbv beta in Hf. rewrite Hf. clear Hf.
  set (eligible := List.filter (fun r : nat * Player =>
                                  bool_decide (id (snd r) ∈ contributors pot_)) refs).
  assert (Hscores : mapM entryScore (map invalidEntry eligible)
                    = Some (map (fun _ => 0) eligible)).
  { apply mapM_Some. induction eligible as [|r l IH]; constructor; done. }
  rewrite Hscores. destruct eligible as [|r l] eqn:E; [by exists ws|].
  cbn [map]. rewrite Math_max_zeros by (apply Forall_map, Forall_forall; done).
  rewrite (filter_all _ (invalidEntry r :: map invalidEntry l)).
  2:{ change (invalidEntry r :: map invalidEntry l) with (map invalidEntry (r :: l)).
      apply Forall_map, Forall_forall. intros x _. by apply bool_decide_eq_true. }
  change (invalidEntry r :: map invalidEntry l) with (map invalidEntry (r :: l)).
  rewrite fold_payWinner. rewrite length_map, !map_map. cbn [seat invalidEntry].
  eexists. reflexivity.
Qed.

Lemma equalShares_cons refs pot_ pots :
  equalShares refs (pot_ :: pots) = equalShares refs [pot_] ++ equalShares refs pots.
Proof. unfold equalShares. cbn [flat_map]. by rewrite app_nil_r. Qed.

Lemma settlePots_invalid (refs : list (nat * Player)) (ips : list (nat * Pot)) ps ws :
  exists ws',
    fold_left (settlePot (map invalidEntry refs)) ips (ps, ws, Returned)
    = (applyPayouts (equalShares refs (map snd ips)) ps, ws', Returned).
Proof.
  revert ps ws. induction ips as [|ip ips IH]; intros ps ws; [by exists ws|].
  destruct (settlePot_invalid refs ps ws ip) as (ws1 & H1).
  destruct (IH (applyPayouts (equalShares refs [snd ip]) ps) ws1) as (ws2 & H2).
  exists ws2. cbn [fold_left map].
  rewrite H1, H2, (equalShares_cons refs (snd ip) (map snd ips)), applyPayouts_app. done.
Qed.

Lemma settle_contested community (refs : list (nat * Player)) ps pots old :
  (2 <= length refs)%nat ->
  settle community refs ps pots old
  = match mapM (evaluateSeat community) refs with
    | Some evaluations => fold_left (settlePot evaluations) (indexed pots) (ps, [], Returned)
    | None => (ps, old, Threw)
    end.
Proof.
  intros H. unfold settle.
  destruct refs as [|[k1 x1] [|r2 refs]]; cbn in H; try lia; reflexivity.
Qed.

Lemma endHand_short_board (gs : GameState) (hs : HandState) :
  handState gs = Some hs ->
  Forall (fun p => 0 <= currentBet p) (players gs) ->
  (2 <= length (located (fun p => negb (hasFolded p)) (players gs)))%nat ->
  Forall (fun p => hasFolded p = false ->
                   (length (hand p) + length (communityCards hs) < 5)%nat) (players gs) ->
  exists pots1 gs' hs',
    collectBets (players gs) (potManager hs)
    = Some (map (setCurrentBet 0) (players gs), pots1)
    /\ endHand gs = (gs', Returned)
    /\ handState gs' = Some hs'
    /\ phase hs' = showdown
    /\ players gs'
       = applyPayouts
           (equalShares (located (fun p => negb (hasFolded p)) (players gs)) pots1)
           (map (setCurrentBet 0) (players gs)).
Proof.
  intros Ehs Hnn Hmany Hshort.
  destruct (collectBets_total (players gs) (potManager hs) Hnn)
    as (ps1 & pots1 & Hrun & _ & -> & _).
  set (refs := located (fun p => negb (hasFolded p)) (players gs)) in *.
  assert (Hrefs : Forall (fun r => (length (hand (snd r)) + length (communityCards hs) < 5)%nat)
                    refs).
  { apply Forall_forall. intros [k x] Hin. cbn [snd].
    pose proof (located_lookup _ _ _ _ Hin) as Hx.
    pose proof (locatedFrom_passes _ _ _ _ _ Hin) as Hpass.
    apply negb_true_iff in Hpass.
    exact (Forall_lookup_1 _ _ _ _ Hshort Hx Hpass). }
  destruct (settlePots_invalid refs (indexed pots1) (map (setCurrentBet 0) (players gs)) [])
    as (ws & Hsettle).
  rewrite indexed_snd in Hsettle.
  exists pots1. eexists _, _. split; [exact Hrun|].
  unfold endHand, collectRound. rewrite Ehs, Hrun. cbn [mbind option_bind]. fold refs.
  cbn [communityCards players potManager winners setPotManager setHandState setPlayers].
  rewrite (settle_contested _ _ _ _ _ Hmany), (mapM_invalid _ _ Hrefs), Hsettle.
  split; [reflexivity|]. split; [reflexivity|]. split; reflexivity.
Qed.

(** X19.  [endHand] evaluates the hands on the community cards dealt so far.
    When it runs with at least two players not folded and fewer than five
    cards for each of them (as when the betting ends before the flop because
    at most one player has chips left), every hand is [Invalid] with score 0,
    and each pot that holds chips is divided evenly among its contributors
    who have not folded, whatever cards they hold. *)
Theorem short_board_splits_the_pots (gs : GameState) (hs : HandState) :
  handState gs = Some hs ->
  Forall (fun p => 0 <= currentBet p) (players gs) ->
  (2 <= length (located (fun p => negb (hasFolded p)) (players gs)))%nat ->
  Forall (fun p => hasFolded p = false ->
                   (length (hand p) + length (communityCards hs) < 5)%nat) (players gs) ->
  exists pots1 gs' hs',
    collectBets (players gs) (potManager hs)
    = Some (map (setCurrentBet 0) (players gs), pots1)
    /\ endHand gs = (gs', Returned)
    /\ handState gs' = Some hs'
    /\ phase hs' = showdown
    /\ players gs'
       = applyPayouts
           (equalShares (located (fun p => negb (hasFolded p)) (players gs)) pots1)
           (map (setCurrentBet 0) (players gs)).
Proof. exact (endHand_short_board gs hs). Qed.

Lemma short_board_splits_the_pots_witness :
  exists gs', processBettingRound allInPreflop = (gs', Returned)
              /\ map chips (players gs') = [1000; 1000].
Proof.
  edestruct short_board_splits_the_pots with (gs := allInPreflop)
    as (pots1 & gs' & hs' & Hcollect & Hrun & _ & _ & Hplayers).
  - reflexivity.
  - repeat constructor; vm_compute; discriminate.
  - vm_compute. lia.
  - repeat constructor; intros _; vm_compute; lia.
  - exists gs'. split; [exact Hrun|]. rewrite Hplayers.
    injection Hcollect as <-. vm_compute. reflexivity.
Defined.

(** ** The turn timer *)

Lemma forcedAction_applies hs cp :
  applyAction hs cp (forcedAction hs cp) = Some (timedOut hs cp, hs, false).
Proof.
  unfold forcedAction, timedOut, applyAction.
  destruct (hs_currentBet hs <=? currentBet cp) eqn:E; [|done].
  apply Z.leb_le in E.
  destruct (currentBet cp <? hs_currentBet hs) eqn:E'; [apply Z.ltb_lt in E'; lia|done].
Qed.

Lemma timeout_run (gs : GameState) (hs : HandState) (cp : Player) :
  handState gs = Some hs ->
  Forall (fun p => 0 <= chips p) (players gs) ->
  NoDup (map id (players gs)) ->
  atIndex (List.filter active (players gs)) (currentPlayerIndex hs) = Some cp ->
  hasActed cp && negb (isAllIn cp) = false ->
  exists gs' hs',
    handlePlayerAction gs (id cp) (forcedAction hs cp) = (gs', Returned)
    /\ handState gs' = Some hs'
    /\ players gs' = <[Z.to_nat (findIndex (hasId (id cp)) (players gs)) := timedOut hs cp]>
                       (players gs)
    /\ players gs !! Z.to_nat (findIndex (hasId (id cp)) (players gs)) = Some cp
    /\ map chips (players gs') = map chips (players gs)
    /\ map currentBet (players gs') = map currentBet (players gs)
    /\ pot hs' = pot hs
    /\ potManager hs' = potManager hs
    /\ hs_currentBet hs' = hs_currentBet hs.
Proof.
  intros Ehs Hchips Hnd Hcur Hacted.
  assert (Hin : cp ∈ players gs).
  { apply atIndex_elem, elem_of_filter_list in Hcur. tauto. }
  destruct (findIndex_found (hasId (id cp)) (players gs)) as [_ (y & Hy & Hidy)].
  { exists cp. split; [done|]. by apply bool_decide_eq_true. }
  assert (y = cp) as ->.
  { apply bool_decide_eq_true in Hidy.
    apply (same_id_same_player (players gs)); [done|by eapply atIndex_elem|done|done]. }
  destruct (action_turn gs hs (id cp) (forcedAction hs cp) cp cp (timedOut hs cp) hs false
              Ehs Hchips Hnd Hy Hcur eq_refl Hacted (forcedAction_applies hs cp))
    as (idx & Hrun & _).
  unfold afterAction in Hrun. cbv zeta in Hrun.
  pose proof (atIndex_lookup _ _ _ Hy) as Hseat.
  eexists _, _. split; [exact Hrun|]. split; [reflexivity|]. split; [reflexivity|].
  split; [exact Hseat|]. cbn [players setPlayers setHandState].
  split; [|split; [|done]].
  - apply (map_insert_same chips _ _ cp); [done|].
    unfold timedOut. by destruct (_ <=? _).
  - apply (map_insert_same currentBet _ _ cp); [done|].
    unfold timedOut. by destruct (_ <=? _).
Qed.

(** X20.  When the turn timer runs out for the player to act, the action it
    submits (a check when the player's bet matches the street's bet, a fold
    otherwise) is always accepted: the player is marked as having acted, and
    as folded unless the check was possible; nobody's chips or bet change,
    and the pot, the pots and the street's bet are as before. *)
Theorem timeout_moves_no_chips (gs : GameState) (hs : HandState) (cp : Player) :
  handState gs = Some hs ->
  Forall (fun p => 0 <= chips p) (players gs) ->
  NoDup (map id (players gs)) ->
  atIndex (List.filter active (players gs)) (currentPlayerIndex hs) = Some cp ->
  hasActed cp && negb (isAllIn cp) = false ->
  exists gs' hs',
    handlePlayerAction gs (id cp) (forcedAction hs cp) = (gs', Returned)
    /\ handState gs' = Some hs'
    /\ players gs' = <[Z.to_nat (findIndex (hasId (id cp)) (players gs)) := timedOut hs cp]>
                       (players gs)
    /\ players gs !! Z.to_nat (findIndex (hasId (id cp)) (players gs)) = Some cp
    /\ map chips (players gs') = map chips (players gs)
    /\ map currentBet (players gs') = map currentBet (players gs)
    /\ pot hs' = pot hs
    /\ potManager hs' = potManager hs
    /\ hs_currentBet hs' = hs_currentBet hs.
Proof. exact (timeout_run gs hs cp). Qed.

Lemma timeout_moves_no_chips_witness :
  exists gs', handlePlayerAction firstHand "A" Fold = (gs', Returned)
              /\ map chips (players gs') = map chips (players firstHand).
Proof.
  edestruct timeout_moves_no_chips with (gs := firstHand)
    as (gs' & hs' & Hrun & _ & _ & _ & Hchips & _).
  - reflexivity.
  - repeat constructor; vm_compute; discriminate.
  - apply (bool_decide_unpack _). vm_compute. exact I.
  - reflexivity.
  - reflexivity.
  - exists gs'. split; [exact Hrun|exact Hchips].
Defined.

(** ** Seats of a room *)

Lemma ids_delete (ps : list Player) (i : nat) :
  map id (delete i ps) `sublist_of` map id ps.
Proof.
  revert i. induction ps as [|p ps IH]; intros [|i]; cbn; try done.
  - by apply sublist_cons.
  - by apply sublist_skip.
Qed.

Lemma seats_delete (ps : list Player) (i : nat) :
  (length ps <= 7)%nat /\ NoDup (map id ps) ->
  (length (delete i ps) <= 7)%nat /\ NoDup (map id (delete i ps)).
Proof.
  intros [Hlen Hnd]. split.
  - pose proof (sublist_length _ _ (ids_delete ps i)) as H.
    rewrite !length_map in H. lia.
  - exact (sublist_NoDup _ _ Hnd (ids_delete ps i)).
Qed.

Lemma seats_push (ps : list Player) (p : Player) :
  (length ps <= 7)%nat /\ NoDup (map id ps) ->
  (7 <=? length ps)%nat = false -> id p ∉ map id ps ->
  (length (ps ++ [p]) <= 7)%nat /\ NoDup (map id (ps ++ [p])).
Proof.
  intros [Hlen Hnd] Hroom Hfresh. apply Nat.leb_gt in Hroom. split.
  - rewrite length_app. cbn. lia.
  - rewrite map_app. apply NoDup_app. split; [done|]. split.
    + intros x Hx Hx'. cbn in Hx'. apply list_elem_of_singleton in Hx'. by subst x.
    + cbn. apply NoDup_singleton.
Qed.

Lemma seatChange_keeps (gs gs' : GameState) :
  seatChange gs gs' ->
  (length (players gs) <= 7)%nat /\ NoDup (map id (players gs)) ->
  (length (players gs') <= 7)%nat /\ NoDup (map id (players gs')).
Proof.
  intros Hstep Hinv. destruct Hstep as [gs socketId playerName|gs botId botName Hfresh
                                       |gs botId|gs socketId gs' Hleave].
  - unfold joinRoom. destruct (bool_decide (playerName = "")); [done|].
    destruct (7 <=? length (players gs))%nat eqn:Hroom; [done|].
    destruct (existsb (hasId socketId) (players gs)) eqn:Hin; [done|].
    apply seats_push; [done|done|]. cbn [id newPlayer].
    intros Hx. apply list_elem_of_fmap in Hx as (p & Hp & Hpin).
    assert (existsb (hasId socketId) (players gs) = true); [|congruence].
    apply existsb_exists. exists p. split; [by apply list_elem_of_In|].
    by apply bool_decide_eq_true.
  - unfold addBotToRoom. destruct (7 <=? length (players gs))%nat eqn:Hroom; [done|].
    by apply seats_push.
  - unfold removeBotFromRoom. cbv zeta. destruct (atIndex _ _); [|done].
    by apply seats_delete.
  - unfold disconnect in Hleave. cbv zeta in Hleave.
    destruct (atIndex _ _); [|by injection Hleave as <-].
    destruct (length _ =? 0)%nat; [done|]. injection Hleave as <-. by apply seats_delete.
Qed.

Lemma seats_reach (room gs : GameState) :
  rtc seatChange room gs ->
  (length (players room) <= 7)%nat /\ NoDup (map id (players room)) ->
  (length (players gs) <= 7)%nat /\ NoDup (map id (players gs)).
Proof.
  induction 1 as [|a b c Hab _ IH]; [done|]. intros Hinv.
  apply IH. by apply (seatChange_keeps a b).
Qed.

Lemma seats_invariant (socketId playerName : string) (room gs : GameState) :
  createRoom socketId playerName = Some room ->
  rtc seatChange room gs ->
  (length (players gs) <= 7)%nat /\ NoDup (map id (players gs)).
Proof.
  intros Hroom Hreach. apply (seats_reach room gs Hreach).
  unfold createRoom in Hroom. destruct (bool_decide _); [done|].
  injection Hroom as <-. cbn. split; [lia|apply NoDup_singleton].
Qed.

(** X21.  A room never seats more than seven players, and its players have
    distinct ids, through every sequence of joins, added bots (under ids no
    player of the room has, as [generateBotId] numbers them), removed bots
    and departures that follows its creation. *)
Theorem room_seats_at_most_seven (socketId playerName : string) (room gs : GameState) :
  createRoom socketId playerName = Some room ->
  rtc seatChange room gs ->
  (length (players gs) <= 7)%nat /\ NoDup (map id (players gs)).
Proof. exact (seats_invariant socketId playerName room gs). Qed.

Lemma room_seats_at_most_seven_witness :
  (length (players (joinRoom (mkGameState [newPlayer "A" "Alice" 1000] false None [] 0)
                      "B" "Bob")) <= 7)%nat.
Proof.
  assert (Hroom : createRoom "A" "Alice"
                  = Some (mkGameState [newPlayer "A" "Alice" 1000] false None [] 0))
    by reflexivity.
  apply (room_seats_at_most_seven "A" "Alice" _ _ Hroom).
  apply rtc_once. apply change_join.
Defined.

(** ** The category of five cards *)

Lemma patternsAll_categorised : patternsAll categorised = true.
Proof. vm_compute. reflexivity. Qed.

(** X22.  [evaluateFiveCards] names the category of five cards as poker
    defines it from how often each rank occurs, whether the ranks form a run
    (A-5-4-3-2 included) and whether the cards share a suit: a run in one
    suit is a Straight Flush (Royal Flush when ace-high), then four of a
    rank, three and two of a rank, one suit, a run, three of a rank, two
    pairs, one pair, and High Card otherwise. *)
Theorem category_is_recognised (cs : list Card) (e : Evaluation) :
  length cs = 5%nat ->
  evaluateFiveCards cs = Some e ->
  hand_rank e = category (every_first (map suit cs)) (rankValues (cards e)).
Proof.
  intros Hlen He.
  pose proof (patternsAll_spec categorised cs patternsAll_categorised Hlen) as H.
  unfold categorised in H. rewrite He, rankValues_ranks in H.
  rewrite <- (evaluateFiveCards_cards cs e He) in H.
  change (verdict <$> Some e) with (Some (hand_rank e, score e)) in H. cbv beta iota in H.
  by apply bool_decide_eq_true in H.
Qed.

Lemma category_is_recognised_witness :
  hand_rank (mkEval Straight 4000005
               [card RA C_; card R5 C_; card R4 S_; card R3 H_; card R2 D_])
  = category (every_first (map suit wheel))
      (rankValues [card RA C_; card R5 C_; card R4 S_; card R3 H_; card R2 D_]).
Proof.
  assert (Hlen : length wheel = 5%nat) by reflexivity.
  assert (He : evaluateFiveCards wheel
               = Some (mkEval Straight 4000005
                         [card RA C_; card R5 C_; card R4 S_; card R3 H_; card R2 D_]))
    by (vm_compute; reflexivity).
  exact (category_is_recognised wheel _ Hlen He).
Defined.

(** ** Hands played in integers

    A hand that starts from safe integers and is played with integer
    amounts stays within the safe integers up to its payout. *)

Lemma potsNonneg_intro gs0 ps hsF :
  Forall (fun pot_ => 0 <= amount pot_) (potManager hsF) ->
  potsNonneg (setHandState hsF (setPlayers ps gs0)).
Proof. intros H hs0 [= <-]. exact H. Qed.

Lemma handlePlayerAction_potsNonneg gs playerId_ action :
  potsNonneg gs -> potsNonneg (fst (handlePlayerAction gs playerId_ action)).
Proof.
  intros Hpot. unfold handlePlayerAction.
  destruct (handState gs) as [hs|] eqn:Ehs; [|done].
  destruct (atIndex (players gs) (findIndex (hasId playerId_) (players gs)))
    as [player|] eqn:Eplayer; [|done].
  destruct (atIndex (List.filter active (players gs)) (currentPlayerIndex hs))
    as [currentPlayer|]; [|done].
  destruct (negb (hasId playerId_ currentPlayer)); [done|].
  destruct (hasActed player && negb (isAllIn player)); [done|].
  destruct (applyAction hs player action) as [[[p' hs'] raised]|] eqn:Eact; [|done].
  destruct (applyAction_pot _ _ _ _ _ _ Eact) as [_ Hm].
  specialize (Hpot hs Ehs). rewrite <- Hm in Hpot.
  set (ps2 := if raised then _ else _).
  destruct (skipOut ps2 (length ps2) _) as [next| |];
    [|by apply potsNonneg_intro..].
  destruct (atIndex ps2 next); by apply potsNonneg_intro.
Qed.

Lemma collectRound_potsNonneg gs hs gs1 hs1 :
  Forall (fun p => 0 <= currentBet p) (players gs) ->
  handState gs = Some hs -> collectRound gs hs = Some (gs1, hs1) ->
  potsNonneg gs ->
  potsNonneg gs1 /\ handState gs1 = Some hs1.
Proof.
  intros Hnn Ehs Hrun Hpot. unfold collectRound in Hrun.
  destruct (collectBets (players gs) (potManager hs)) as [[ps1 pots1]|] eqn:Hc; [|done].
  cbn in Hrun. injection Hrun as <- <-. split; [|done].
  apply potsNonneg_intro. cbn [potManager setPotManager].
  exact (collectBets_nonneg _ _ _ _ Hnn (Hpot hs Ehs) Hc).
Qed.

Lemma nextStreet_potsNonneg gs hs cards_ deck_ phase_ :
  handState gs = Some hs -> potsNonneg gs ->
  potsNonneg (fst (nextStreet gs hs cards_ deck_ phase_)).
Proof.
  intros Ehs Hpot. specialize (Hpot hs Ehs). unfold nextStreet.
  set (ps2 := map _ (players gs)).
  assert (Hdone : forall hsF (c0 : completion),
            potManager hsF = potManager hs ->
            potsNonneg (fst (setHandState hsF (setPlayers ps2 (setDeck deck_ gs)), c0))).
  { intros hsF c0 H. apply potsNonneg_intro. by rewrite H. }
  destruct (atIndex _ (dealerIndex hs)) as [dealerId|]; [|by apply Hdone].
  destruct (seekIn ps2 (length ps2) _) as [next| |]; try by apply Hdone.
  destruct (atIndex ps2 next); by apply Hdone.
Qed.

Lemma processBettingRound_potsNonneg gs :
  Forall (fun p => 0 <= currentBet p) (players gs) -> settles gs = false ->
  potsNonneg gs -> potsNonneg (fst (processBettingRound gs)).
Proof.
  intros Hnn Hset Hpot. unfold processBettingRound. unfold settles in Hset.
  destruct (handState gs) as [hs|] eqn:Ehs; [|done].
  apply orb_false_iff in Hset as [Hmany Hriver]. rewrite Hmany.
  destruct (roundComplete hs (List.filter active (players gs))) eqn:Hcomplete; [|done].
  simpl in Hriver. apply bool_decide_eq_false in Hriver.
  destruct (collectRound gs hs) as [[gs1 hs1]|] eqn:Hrun; [|done].
  destruct (collectRound_potsNonneg gs hs gs1 hs1 Hnn Ehs Hrun Hpot) as (Hpot1 & Ehs1).
  assert (Hphase : phase hs1 <> river).
  { unfold collectRound in Hrun. destruct (collectBets _ _) as [[? ?]|]; [|done].
    cbn in Hrun. by injection Hrun as <- <-. }
  destruct (advancePhase_some hs1 (deck gs1) Hphase) as ([[cards_ deck_] phase_] & ->).
  by apply nextStreet_potsNonneg.
Qed.

Lemma engineStep_potsNonneg gs gs' :
  wellFormed gs -> engineStep gs gs' -> potsNonneg gs -> potsNonneg gs'.
Proof.
  intros [Hps _] Hstep Hpot.
  assert (Hnn : Forall (fun p => 0 <= currentBet p) (players gs)).
  { eapply Forall_impl; [exact Hps|]. by intros p [_ ?]. }
  destruct Hstep as [gs playerId_ action|gs Hset|gs hs gs1 hs1 Ehs Hrun].
  - by apply handlePlayerAction_potsNonneg.
  - by apply processBettingRound_potsNonneg.
  - by destruct (collectRound_potsNonneg gs hs gs1 hs1 Hnn Ehs Hrun Hpot).
Qed.

Lemma reachable_potsNonneg start gs :
  wellFormed start -> potsNonneg start -> reachable start gs -> potsNonneg gs.
Proof.
  intros Hwf Hpot. induction 1 as [|gs gs' Hreach IH Hstep]; [done|].
  destruct (reachable_sound start gs Hwf Hreach) as [Hwf' _].
  by apply (engineStep_potsNonneg gs gs').
Qed.

Lemma startHand_potsNonneg gs shuffled :
  handStarts gs -> potsNonneg (fst (startHand gs shuffled)).
Proof.
  intros [Hseats Hfunded]. unfold startHand. rewrite Hseats.
  pose proof (dealHands_fields (map resetForNewHand (players gs)) shuffled) as Hdealt.
  destruct (dealHands (map resetForNewHand (players gs)) shuffled) as [ps2 deck_].
  cbn [fst] in Hdealt.
  assert (Hlen : length (located (fun p => 0 <? chips p) ps2)
                 = length (located (fun p => 0 <? chips p) (players gs))).
  { by apply dealt_reset_located. }
  rewrite Hlen, Hfunded.
  assert (Hnew : Forall (fun pot_ => 0 <= amount pot_) newPots)
    by (repeat constructor; done).
  destruct (atIndex _ _) as [[sbSeat sbPlayer]|].
  2:{ intros hs [= <-]. exact Hnew. }
  destruct (atIndex _ _) as [[bbSeat bbPlayer]|].
  2:{ intros hs [= <-]. exact Hnew. }
  intros hs [= <-]. exact Hnew.
Qed.

Lemma sumZ_nonneg xs : Forall (fun x => 0 <= x) xs -> 0 <= sumZ xs.
Proof. induction 1 as [|x xs Hx _ IH]; simpl; lia. Qed.

Lemma sumZ_bound xs x : Forall (fun x => 0 <= x) xs -> In x xs -> 0 <= x <= sumZ xs.
Proof.
  induction 1 as [|y xs Hy Hxs IH]; intros Hin; [done|].
  pose proof (sumZ_nonneg xs Hxs). simpl. destruct Hin as [->|Hin]; [lia|].
  specialize (IH Hin). lia.
Qed.

(** In a state whose chips, bets and pot amounts are not negative, each of
    them is at most the total. *)
Lemma ledger_bounded gs :
  wellFormed gs -> potsNonneg gs -> safeInteger (totalChips gs) -> safeLedger gs.
Proof.
  intros [Hps _] Hpots [_ Hsafe].
  assert (Hc : Forall (fun x => 0 <= x) (map chips (players gs))).
  { apply Forall_map. eapply Forall_impl; [exact Hps|]. by intros p [? _]. }
  assert (Hb : Forall (fun x => 0 <= x) (map currentBet (players gs))).
  { apply Forall_map. eapply Forall_impl; [exact Hps|]. by intros p [_ ?]. }
  assert (Ha : Forall (fun x => 0 <= x) (map amount (potsOf gs))).
  { apply Forall_map. unfold potsOf. destruct (handState gs) as [hs|] eqn:E; [|constructor].
    by apply Hpots. }
  pose proof (sumZ_nonneg _ Hc) as Hc0. pose proof (sumZ_nonneg _ Hb) as Hb0.
  pose proof (sumZ_nonneg _ Ha) as Ha0.
  unfold totalChips, chipsTotal, betsTotal, potsAmount in Hsafe.
  split.
  - apply List.Forall_forall. intros p Hp.
    pose proof (sumZ_bound _ _ Hc (in_map chips _ _ Hp)).
    pose proof (sumZ_bound _ _ Hb (in_map currentBet _ _ Hp)).
    unfold safeInteger. lia.
  - apply List.Forall_forall. intros pot_ Hp.
    pose proof (sumZ_bound _ _ Ha (in_map amount _ _ Hp)).
    unfold safeInteger. lia.
Qed.

Lemma hand_in_integers (room : GameState) (shuffled : list Card) (gs : GameState) :
  Forall (fun p => 0 <= chips p) (players room) ->
  safeInteger (chipsTotal (players room)) ->
  handStarts room ->
  reachable (fst (startHand room shuffled)) gs ->
  totalChips gs = chipsTotal (players room) /\ safeLedger gs.
Proof.
  intros Hnn Hsafe Hstart Hreach.
  destruct (startHand_sound room shuffled Hnn Hstart) as [Hwf Htotal].
  destruct (reachable_sound _ gs Hwf Hreach) as [Hwf' H].
  pose proof (reachable_potsNonneg _ gs Hwf (startHand_potsNonneg room shuffled Hstart) Hreach)
    as Hpots.
  split; [by rewrite H|]. apply ledger_bounded; [done|done|]. by rewrite H, Htotal.
Qed.

Lemma displayed_pot_in_integers
    (room : GameState) (shuffled : list Card) (gs : GameState) (hs : HandState) :
  Forall (fun p => 0 <= chips p) (players room) ->
  safeInteger (chipsTotal (players room)) ->
  handStarts room ->
  reachable (fst (startHand room shuffled)) gs ->
  handState gs = Some hs ->
  pot hs = betsTotal (players gs) + potsAmount (potManager hs)
  /\ safeInteger (pot hs)
  /\ safeLedger gs.
Proof.
  intros Hnn Hsafe Hstart Hreach Ehs.
  destruct (startHand_sound room shuffled Hnn Hstart) as [Hwf Htotal].
  destruct (reachable_sound _ gs Hwf Hreach) as [Hwf' Hsum].
  pose proof (reachable_potsNonneg _ gs Hwf (startHand_potsNonneg room shuffled Hstart) Hreach)
    as Hpots.
  pose proof (reachable_pot _ gs Hwf (startHand_pot room shuffled Hnn Hstart) Hreach hs Ehs)
    as Hpot.
  split; [exact Hpot|]. split.
  - destruct Hwf' as [Hps _].
    assert (Hc : 0 <= chipsTotal (players gs)).
    { apply sumZ_nonneg, Forall_map. eapply Forall_impl; [exact Hps|]. by intros p [? _]. }
    assert (Hb : 0 <= betsTotal (players gs)).
    { apply sumZ_nonneg, Forall_map. eapply Forall_impl; [exact Hps|]. by intros p [_ ?]. }
    pose proof (potsAmount_nonneg _ (Hpots hs Ehs)) as Ha.
    rewrite Htotal in Hsum. unfold totalChips, potsOf in Hsum. rewrite Ehs in Hsum.
    destruct Hsafe as [_ Hsafe]. unfold safeInteger. lia.
  - apply ledger_bounded; [done|done|]. by rewrite Hsum, Htotal.
Qed.

(** X23.  Chip conservation up to the payout, for a hand played in
    integers: the room's chips are non-negative integers whose sum is a safe
    integer, and the amounts submitted are integers.  Once the hand has
    started (blind posting is the step from the room to the started hand),
    in every state reached by submitted actions, by street transitions into
    the flop, turn and river with their bet collection, and by the bet
    collection that opens settlement, the players' chips, the players'
    current bets and the pot amounts add up to the chips the seats held when
    the hand started, and each of them is a safe integer: the hand stays
    within the numbers on which the sums and differences of doubles are
    exact. *)
Theorem chip_conservation (room : GameState) (shuffled : list Card) (gs : GameState) :
  Forall (fun p => 0 <= chips p) (players room) ->
  safeInteger (chipsTotal (players room)) ->
  handStarts room ->
  reachable (fst (startHand room shuffled)) gs ->
  totalChips gs = chipsTotal (players room) /\ safeLedger gs.
Proof. exact (hand_in_integers room shuffled gs). Qed.

Lemma chip_conservation_witness :
  Forall (fun p => 0 <= chips p) (players lobby)
  /\ safeInteger (chipsTotal (players lobby))
  /\ handStarts lobby
  /\ reachable (fst (startHand lobby initialize)) onFlop
  /\ totalChips onFlop = 2000.
Proof.
  assert (H1 : Forall (fun p => 0 <= chips p) (players lobby)).
  { repeat constructor; simpl; lia. }
  assert (Hs : safeInteger (chipsTotal (players lobby))) by (split; reflexivity).
  assert (H2 : handStarts lobby) by (split; reflexivity).
  assert (H3 : reachable (fst (startHand lobby initialize)) onFlop).
  { apply (reach_step _ afterCheck);
      [|exact (step_round afterCheck ltac:(vm_compute; reflexivity))].
    apply (reach_step _ afterCall); [|exact (step_action afterCall "B" Check)].
    apply (reach_step _ firstHand); [apply reach_start|exact (step_action firstHand "A" Call)]. }
  split; [exact H1|]. split; [exact Hs|]. split; [exact H2|]. split; [exact H3|].
  exact (proj1 (chip_conservation lobby initialize onFlop H1 Hs H2 H3)).
Defined.

(** X13.  For a hand played in integers (the room's chips are non-negative
    integers whose sum is a safe integer, and the amounts submitted are
    integers): in every state the hand reaches before its settlement (by
    submitted actions, street changes and bet collections, from the posting
    of the blinds on) the pot total that the hand state shows,
    [handState.pot], is the sum of the players' outstanding bets and of the
    amounts held by the pots; it is a safe integer, as are all chips, bets
    and pot amounts. *)
Theorem displayed_pot_is_bets_plus_pots
    (room : GameState) (shuffled : list Card) (gs : GameState) (hs : HandState) :
  Forall (fun p => 0 <= chips p) (players room) ->
  safeInteger (chipsTotal (players room)) ->
  handStarts room ->
  reachable (fst (startHand room shuffled)) gs ->
  handState gs = Some hs ->
  pot hs = betsTotal (players gs) + potsAmount (potManager hs)
  /\ safeInteger (pot hs)
  /\ safeLedger gs.
Proof. exact (displayed_pot_in_integers room shuffled gs hs). Qed.

Lemma displayed_pot_is_bets_plus_pots_witness :
  exists hs, handState riverChecked = Some hs
             /\ pot hs = betsTotal (players riverChecked) + potsAmount (potManager hs).
Proof.
  assert (H1 : Forall (fun p => 0 <= chips p) (players lobby)).
  { repeat constructor; simpl; lia. }
  assert (Hs : safeInteger (chipsTotal (players lobby))) by (split; reflexivity).
  assert (H2 : handStarts lobby) by (split; reflexivity).
  eexists. split; [reflexivity|].
  apply (displayed_pot_is_bets_plus_pots lobby initialize riverChecked _ H1 Hs H2
           riverChecked_reachable).
  reflexivity.
Defined.

(** ** The ladder of pots

    One pass of [collectBets] lowers every bet by the smallest of them; seen
    from the bets on entry, the passes cut the bets at increasing levels,
    and a pot is closed at the level of an all-in player's bet. *)

Lemma Forall_In {A : Type} (P : A -> Prop) (l : list A) (x : A) :
  Forall P l -> In x l -> P x.
Proof. intros H Hx. by apply (proj1 (List.Forall_forall P l) H). Qed.

Lemma payIn_bet m p :
  0 < m -> 0 <= currentBet p ->
  currentBet (payIn (Some m) p) = Z.max 0 (currentBet p - m).
Proof.
  intros Hm Hp. rewrite payIn_currentBet. destruct (hasBet p) eqn:E.
  - cbn [contribution]. lia.
  - apply hasBet_false in E. lia.
Qed.

Lemma payIn_id minBet p : id (payIn minBet p) = id p.
Proof. unfold payIn. by destruct (hasBet p). Qed.

Lemma payIn_isAllIn minBet p : isAllIn (payIn minBet p) = isAllIn p.
Proof. unfold payIn. by destruct (hasBet p). Qed.

Lemma slice_shift m lo hi p :
  0 < m -> 0 <= lo -> 0 <= currentBet p ->
  slice lo hi (payIn (Some m) p) = slice (lo + m) (hi + m) p.
Proof. intros Hm Hlo Hp. unfold slice. rewrite payIn_bet by done. lia. Qed.

Lemma slice_first m c p :
  0 < m -> 0 <= c -> 0 <= currentBet p ->
  slice 0 (c + m) p =
  (if hasBet p then contribution (Some m) p else 0) + slice 0 c (payIn (Some m) p).
Proof.
  intros Hm Hc Hp. unfold slice. rewrite payIn_bet by done.
  destruct (hasBet p) eqn:E.
  - cbn [contribution]. lia.
  - apply hasBet_false in E. lia.
Qed.

Lemma sliceTotal_shift m lo hi players :
  0 < m -> 0 <= lo -> Forall (fun p => 0 <= currentBet p) players ->
  sliceTotal lo hi (map (payIn (Some m)) players) = sliceTotal (lo + m) (hi + m) players.
Proof.
  intros Hm Hlo Hnn. unfold sliceTotal.
  induction Hnn as [|p players Hp _ IH]; [done|].
  cbn [map sumZ]. by rewrite IH, slice_shift.
Qed.

Lemma sliceTotal_first m c players :
  0 < m -> 0 <= c -> Forall (fun p => 0 <= currentBet p) players ->
  sliceTotal 0 (c + m) players =
  paid (Some m) players + sliceTotal 0 c (map (payIn (Some m)) players).
Proof.
  intros Hm Hc Hnn. unfold sliceTotal.
  induction Hnn as [|p players Hp _ IH]; [done|].
  rewrite paid_cons. cbn [map sumZ]. rewrite IH, (slice_first m c p) by done. lia.
Qed.

Lemma above_cons lo p players :
  above lo (p :: players) =
  (if lo <? currentBet p then {[ id p ]} else ∅) ∪ above lo players.
Proof.
  unfold above. cbn [List.filter].
  destruct (lo <? currentBet p); cbn [map list_to_set foldr]; set_solver.
Qed.

Lemma above_shift m lo players :
  0 < m -> 0 <= lo -> Forall (fun p => 0 <= currentBet p) players ->
  above lo (map (payIn (Some m)) players) = above (lo + m) players.
Proof.
  intros Hm Hlo Hnn. induction Hnn as [|p players Hp _ IH]; [done|].
  cbn [map]. rewrite !above_cons, IH, payIn_id, payIn_bet by done.
  destruct (lo <? Z.max 0 (currentBet p - m)) eqn:E1;
    destruct (lo + m <? currentBet p) eqn:E2; try done;
    [apply Z.ltb_lt in E1; apply Z.ltb_ge in E2|apply Z.ltb_ge in E1; apply Z.ltb_lt in E2]; lia.
Qed.

Lemma above_zero players : above 0 players = bettorIds players.
Proof. reflexivity. Qed.

Lemma above_elem lo p players :
  In p players -> lo < currentBet p -> id p ∈ above lo players.
Proof.
  intros Hin Hp. unfold above. apply elem_of_list_to_set.
  apply list_elem_of_In, in_map, filter_In. split; [done|]. by apply Z.ltb_lt.
Qed.

Lemma layer_shift m lo hi players :
  0 < m -> 0 <= lo -> Forall (fun p => 0 <= currentBet p) players ->
  layer (map (payIn (Some m)) players) (lo, hi) = layer players (lo + m, hi + m).
Proof.
  intros Hm Hlo Hnn. unfold layer. cbn [fst snd].
  by rewrite sliceTotal_shift, above_shift.
Qed.

Lemma bands_shift m lo levels :
  bands (lo + m) (map (fun c => c + m) levels) =
  map (fun b => (fst b + m, snd b + m)) (bands lo levels).
Proof.
  revert lo. induction levels as [|c levels IH]; intros lo; [done|].
  cbn [map bands fst snd]. by rewrite IH.
Qed.

Lemma bands_lower lo levels :
  StronglySorted Z.lt (lo :: levels) -> Forall (fun b => lo <= fst b /\ fst b < snd b) (bands lo levels).
Proof.
  revert lo. induction levels as [|c levels IH]; intros lo Hs; [constructor|].
  cbn [bands]. apply StronglySorted_inv in Hs as [Hs Hall].
  apply Forall_cons in Hall as [Hc Hall].
  constructor; [cbn [fst snd]; lia|].
  eapply Forall_impl; [exact (IH c Hs)|]. intros [a b]. cbn [fst snd]. lia.
Qed.

Lemma layers_shift m lo levels players :
  0 < m -> 0 <= lo -> Forall (fun p => 0 <= currentBet p) players ->
  StronglySorted Z.lt (lo :: levels) ->
  map (layer (map (payIn (Some m)) players)) (bands lo levels) =
  map (layer players) (bands (lo + m) (map (fun c => c + m) levels)).
Proof.
  intros Hm Hlo Hnn Hs. rewrite bands_shift, map_map.
  pose proof (bands_lower lo levels Hs) as Hb.
  induction Hb as [|[a b] bs [Ha _] _ IH]; [done|].
  cbn [map fst snd] in *. rewrite IH. f_equal. apply layer_shift; [done|lia|done].
Qed.

Lemma sorted_shift m levels :
  0 < m -> StronglySorted Z.lt (0 :: levels) ->
  StronglySorted Z.lt (m :: map (fun c => c + m) levels)
  /\ StronglySorted Z.lt (0 :: map (fun c => c + m) levels).
Proof.
  intros Hm Hs.
  assert (H1 : StronglySorted Z.lt (m :: map (fun c => c + m) levels)).
  { change (m :: map (fun c => c + m) levels) with ((fun c => c + m) <$> (0 :: levels)).
    apply (StronglySorted_fmap _ Z.lt Z.lt); [|done]. intros x y. lia. }
  split; [done|].
  apply StronglySorted_inv in H1 as [H1 Hall]. constructor; [done|].
  eapply Forall_impl; [exact Hall|]. intros c. cbn beta. lia.
Qed.

Lemma isLevel_shift m players c :
  0 < m -> Forall (fun p => 0 <= currentBet p) players ->
  isLevel (map (payIn (Some m)) players) c <-> isLevel players (c + m) /\ 0 < c.
Proof.
  intros Hm Hnn.
  assert (Hall : forall c, 0 <= c ->
            (Forall (fun q => currentBet q <= c) (map (payIn (Some m)) players)
             <-> Forall (fun q => currentBet q <= c + m) players)).
  { intros c0 Hc0. rewrite Forall_map. rewrite !List.Forall_forall. split; intros H q Hq.
    - specialize (H q Hq). cbn beta in H. rewrite payIn_bet in H; [lia|done|].
      by apply (Forall_In _ _ _ Hnn).
    - specialize (H q Hq). cbn beta. rewrite payIn_bet; [lia|done|].
      by apply (Forall_In _ _ _ Hnn). }
  split.
  - intros (Hc & p1 & Hin & Hbet & Hwhy). split; [|done]. split; [lia|].
    apply in_map_iff in Hin as (p & <- & Hp).
    assert (Hpn : 0 <= currentBet p) by (by apply (Forall_In _ _ _ Hnn)).
    rewrite payIn_bet in Hbet by done. rewrite payIn_isAllIn in Hwhy.
    exists p. split; [done|]. split; [lia|].
    destruct Hwhy as [Hwhy|Hwhy]; [by left|right]. apply Hall; [lia|done].
  - intros [(_ & p & Hp & Hbet & Hwhy) Hc]. split; [done|].
    assert (Hpn : 0 <= currentBet p) by (by apply (Forall_In _ _ _ Hnn)).
    exists (payIn (Some m) p). split; [by apply in_map|].
    rewrite payIn_bet by done. rewrite payIn_isAllIn. split; [lia|].
    destruct Hwhy as [Hwhy|Hwhy]; [by left|right]. apply Hall; [lia|done].
Qed.

Lemma isLevel_min m players c :
  (forall p, In p players -> hasBet p = true -> m <= currentBet p) ->
  isLevel players c -> m <= c.
Proof.
  intros Hle (Hc & p & Hp & Hbet & _). subst c. apply Hle; [done|]. by apply hasBet_true.
Qed.

Lemma capped_iff m players :
  0 < m ->
  (forall p, In p players -> hasBet p = true -> m <= currentBet p) ->
  existsb capped (map (payIn (Some m)) (List.filter hasBet players)) = true
  <-> exists p, In p players /\ currentBet p = m /\ isAllIn p = true.
Proof.
  intros Hm Hle. rewrite existsb_exists. split.
  - intros (p1 & Hin & Hcap). apply in_map_iff in Hin as (p & <- & Hp).
    apply filter_In in Hp as [Hp Hb]. unfold capped in Hcap.
    apply andb_true_iff in Hcap as [Hall Hz]. rewrite payIn_isAllIn in Hall.
    apply Z.eqb_eq in Hz. rewrite payIn_currentBet, Hb in Hz. cbn [contribution] in Hz.
    pose proof (Hle p Hp Hb). exists p. repeat split; [done|lia|done].
  - intros (p & Hp & Hbet & Hall).
    assert (Hb : hasBet p = true) by (apply hasBet_true; lia).
    exists (payIn (Some m) p). split.
    + apply in_map. by apply filter_In.
    + unfold capped. rewrite payIn_isAllIn, Hall, payIn_currentBet, Hb.
      cbn [contribution]. apply Z.eqb_eq. lia.
Qed.

Lemma remaining_iff m players :
  0 < m -> Forall (fun p => 0 <= currentBet p) players ->
  existsb hasBet (map (payIn (Some m)) players) = false
  <-> Forall (fun q => currentBet q <= m) players.
Proof.
  intros Hm Hnn. split.
  - intros Hex. apply List.Forall_forall. intros q Hq.
    assert (Hqn : 0 <= currentBet q) by (by apply (Forall_In _ _ _ Hnn)).
    destruct (decide (currentBet q <= m)) as [|Hgt]; [done|]. exfalso.
    assert (existsb hasBet (map (payIn (Some m)) players) = true); [|congruence].
    apply existsb_exists. exists (payIn (Some m) q). split; [by apply in_map|].
    apply hasBet_true. rewrite payIn_bet by done. lia.
  - intros Hall. apply not_true_is_false. intros Hex.
    apply existsb_exists in Hex as (q1 & Hin & Hb).
    apply in_map_iff in Hin as (q & <- & Hq).
    assert (Hqn : 0 <= currentBet q) by (by apply (Forall_In _ _ _ Hnn)).
    apply hasBet_true in Hb. rewrite payIn_bet in Hb by done.
    pose proof (Forall_In _ _ _ Hall Hq). cbn beta in *. lia.
Qed.

Lemma mergePot_empty pot : mergePot emptyPot pot = pot.
Proof. destruct pot as [a c]. unfold mergePot. apply pot_eq; simpl; [lia|set_solver]. Qed.

Lemma slices_shift m lo levels p :
  0 < m -> 0 <= lo -> 0 <= currentBet p ->
  StronglySorted Z.lt (lo :: levels) ->
  sumZ (map (fun b => slice (fst b) (snd b) (payIn (Some m) p)) (bands lo levels)) =
  sumZ (map (fun b => slice (fst b) (snd b) p)
          (bands (lo + m) (map (fun c => c + m) levels))).
Proof.
  intros Hm Hlo Hp Hs. rewrite bands_shift, map_map.
  pose proof (bands_lower lo levels Hs) as Hb.
  induction Hb as [|[a b] bs [Ha _] _ IH]; [done|].
  cbn [map fst snd sumZ] in *. rewrite IH. f_equal. apply slice_shift; [done|lia|done].
Qed.

Lemma idle_bet players p :
  Forall (fun p => 0 <= currentBet p) players ->
  existsb hasBet players = false -> In p players -> currentBet p = 0.
Proof.
  intros Hnn Hex Hp.
  pose proof (Forall_In _ _ _ Hnn Hp) as Hpn. cbn beta in Hpn.
  destruct (decide (currentBet p = 0)) as [|Hne]; [done|]. exfalso.
  assert (existsb hasBet players = true); [|congruence].
  apply existsb_exists. exists p. split; [done|]. apply hasBet_true. lia.
Qed.

Lemma idle_no_level players c :
  Forall (fun p => 0 <= currentBet p) players ->
  existsb hasBet players = false -> ~ isLevel players c.
Proof.
  intros Hnn Hex (Hc & p & Hp & Hbet & _).
  pose proof (idle_bet players p Hnn Hex Hp). lia.
Qed.

Lemma collectLoop_ladder fuel mask players closed cur :
  covers mask players ->
  (length (List.filter hasBet players) <= fuel)%nat ->
  Forall (fun p => 0 <= currentBet p) players ->
  exists levels,
    StronglySorted Z.lt (0 :: levels)
    /\ (forall c, In c levels <-> isLevel players c)
    /\ (existsb hasBet players = true -> levels <> [])
    /\ (forall p, In p players ->
          sumZ (map (fun b => slice (fst b) (snd b) p) (bands 0 levels)) = currentBet p)
    /\ collectLoop fuel mask players (closed ++ [cur]) =
       Some (map (setCurrentBet 0) players,
             closed ++ pile cur (map (layer players) (bands 0 levels))).
Proof.
  revert players closed cur.
  induction fuel as [|fuel IH]; intros players closed cur Hcov Hfuel Hnn.
  { assert (Hex : existsb hasBet players = false).
    { rewrite existsb_filter. destruct (List.filter hasBet players); [done|simpl in Hfuel; lia]. }
    exists []. split; [repeat constructor|]. split.
    { intros c. split; [done|]. intros H. by apply (idle_no_level players c Hnn Hex). }
    split; [congruence|]. split.
    { intros p Hp. by rewrite (idle_bet players p Hnn Hex Hp). }
    rewrite collectLoop_idle by (by rewrite (selected_existsb _ _ Hcov)).
    by rewrite <- (zeroed_idle _ Hnn Hex). }
  destruct (existsb hasBet players) eqn:Hex.
  2:{ exists []. split; [repeat constructor|]. split.
      { intros c. split; [done|]. intros H. by apply (idle_no_level players c Hnn Hex). }
      split; [congruence|]. split.
      { intros p Hp. by rewrite (idle_bet players p Hnn Hex Hp). }
      rewrite collectLoop_idle by (by rewrite (selected_existsb _ _ Hcov)).
      by rewrite <- (zeroed_idle _ Hnn Hex). }
  cbn [collectLoop]. rewrite (selected_existsb _ _ Hcov), Hex.
  destruct (collectPass_exact mask players (closed ++ [cur]) Hcov Hex)
    as (m & closed' & cur' & Hm & (q & Hq & Hqm) & Hle & Hsplit & Hpass).
  rewrite splitCurrent_snoc in Hsplit. injection Hsplit as <- <-.
  rewrite Hpass. cbv zeta. clear Hpass.
  set (players1 := map (payIn (Some m)) players).
  assert (Hcov1 : covers mask players1) by (by apply covers_payIn).
  assert (Hfuel1 : (length (List.filter hasBet players1) <= fuel)%nat).
  { pose proof (bettors_lt m players q Hm Hq Hqm). unfold players1. lia. }
  assert (Hnn1 : Forall (fun p => 0 <= currentBet p) players1) by (by apply nonneg_payIn).
  assert (Hzero : map (setCurrentBet 0) players1 = map (setCurrentBet 0) players).
  { unfold players1. rewrite map_map. apply map_ext. intros p. apply payIn_zeroed. }
  assert (Hfirst : mkPot (amount cur + paid (Some m) players)
                         (bettorIds players ∪ contributors cur)
                   = mergePot cur (layer players (0, m))).
  { unfold mergePot, layer. cbn [fst snd amount contributors]. apply pot_eq; [|done].
    f_equal. unfold sliceTotal, paid. clear -Hm Hnn.
    induction Hnn as [|p players Hp _ IH]; [done|]. cbn [List.filter map sumZ].
    rewrite <- IH. unfold slice. destruct (hasBet p) eqn:E; cbn [map sumZ contribution].
    - lia.
    - apply hasBet_false in E. lia. }
  assert (Hqb : hasBet q = true) by (apply hasBet_true; lia).
  destruct (existsb hasBet players1) eqn:Hrem.
  - (* bets remain after this pass *)
    destruct (existsb capped (map (payIn (Some m)) (List.filter hasBet players))) eqn:Hcap;
      cbn [andb].
    + (* the pot is capped: a new pot is opened *)
      destruct (IH players1 (closed ++ [mkPot (amount cur + paid (Some m) players)
                                              (bettorIds players ∪ contributors cur)])
                  emptyPot Hcov1 Hfuel1 Hnn1)
        as (levels1 & Hs1 & Hlev1 & Hne1 & Hsum1 & Hloop1).
      exists (m :: map (fun c => c + m) levels1).
      destruct (sorted_shift m levels1 Hm Hs1) as [Hs2 Hs3].
      split; [constructor; [done|]; constructor; [lia|];
              by apply StronglySorted_inv in Hs3 as [_ ?]|].
      split.
      { intros c. cbn [In]. rewrite in_map_iff. split.
        - intros [<-|(c1 & <- & Hc1)].
          + apply (capped_iff m players Hm Hle) in Hcap as (p & Hp & Hbet & Hall).
            split; [done|]. exists p. auto.
          + apply Hlev1 in Hc1. by apply (isLevel_shift m players c1 Hm Hnn) in Hc1 as [? _].
        - intros Hc. pose proof (isLevel_min m players c Hle Hc) as Hmc.
          destruct (decide (c = m)) as [->|Hne]; [by left|right].
          exists (c - m). split; [lia|]. apply Hlev1.
          apply (isLevel_shift m players (c - m) Hm Hnn).
          replace (c - m + m) with c by lia. split; [done|lia]. }
      split; [done|]. split.
      { intros p Hp.
        assert (Hpn : 0 <= currentBet p) by (by apply (Forall_In _ _ _ Hnn)).
        cbn [bands map sumZ fst snd].
        rewrite <- (Z.add_0_l m) at 2.
        rewrite <- (slices_shift m 0 levels1 p Hm ltac:(lia) Hpn Hs1).
        rewrite (Hsum1 (payIn (Some m) p)) by (by apply in_map).
        rewrite payIn_bet by done. unfold slice. lia. }
      rewrite <- !app_assoc in Hloop1. cbn [app] in Hloop1.
      rewrite Hloop1, Hzero. f_equal. f_equal. f_equal.
      rewrite Hfirst. cbn [bands map pile]. f_equal.
      specialize (Hne1 Hrem). destruct levels1 as [|c1 rest]; [done|].
      rewrite <- (Z.add_0_l m) at 1.
      rewrite <- (layers_shift m 0 (c1 :: rest) players Hm ltac:(lia) Hnn Hs1).
      cbn [bands map pile]. by rewrite mergePot_empty.
    + (* no all-in player is paid up: the pot stays current *)
      destruct (IH players1 closed (mkPot (amount cur + paid (Some m) players)
                                          (bettorIds players ∪ contributors cur))
                  Hcov1 Hfuel1 Hnn1)
        as (levels1 & Hs1 & Hlev1 & Hne1 & Hsum1 & Hloop1).
      specialize (Hne1 Hrem). destruct levels1 as [|c1 rest]; [done|].
      exists (map (fun c => c + m) (c1 :: rest)).
      destruct (sorted_shift m (c1 :: rest) Hm Hs1) as [Hs2 Hs3].
      split; [done|]. split.
      { intros c. rewrite in_map_iff. split.
        - intros (c0 & <- & Hc0).
          apply Hlev1 in Hc0. by apply (isLevel_shift m players c0 Hm Hnn) in Hc0 as [? _].
        - intros Hc. pose proof (isLevel_min m players c Hle Hc) as Hmc.
          destruct (decide (c = m)) as [->|Hne].
          + exfalso. destruct Hc as (_ & p & Hp & Hbet & [Hall|Hall]).
            * assert (existsb capped (map (payIn (Some m)) (List.filter hasBet players)) = true);
                [|congruence].
              apply (capped_iff m players Hm Hle). by exists p.
            * apply (remaining_iff m players Hm Hnn) in Hall. fold players1 in Hall. congruence.
          + exists (c - m). split; [lia|]. apply Hlev1.
            apply (isLevel_shift m players (c - m) Hm Hnn).
            replace (c - m + m) with c by lia. split; [done|lia]. }
      split; [done|]. split.
      { intros p Hp.
        assert (Hpn : 0 <= currentBet p) by (by apply (Forall_In _ _ _ Hnn)).
        specialize (Hsum1 (payIn (Some m) p) ltac:(by apply in_map)).
        cbn [bands map sumZ fst snd] in Hsum1 |- *.
        assert (Hc1 : 0 < c1).
        { apply StronglySorted_inv in Hs1 as [_ Hall]. by apply Forall_cons in Hall as [? _]. }
        assert (Hs1' : StronglySorted Z.lt (c1 :: rest)) by (by apply StronglySorted_inv in Hs1 as [? _]).
        rewrite (slices_shift m c1 rest p Hm ltac:(lia) Hpn Hs1') in Hsum1.
        rewrite payIn_bet in Hsum1 by done. unfold slice in Hsum1 at 1.
        rewrite payIn_bet in Hsum1 by done. unfold slice at 1. lia. }
      rewrite Hloop1, Hzero. f_equal. f_equal. f_equal.
      assert (Hc1 : 0 < c1).
      { apply StronglySorted_inv in Hs1 as [_ Hall]. by apply Forall_cons in Hall as [? _]. }
      assert (Hs1' : StronglySorted Z.lt (c1 :: rest)) by (by apply StronglySorted_inv in Hs1 as [? _]).
      cbn [bands map pile]. f_equal.
      * unfold mergePot, layer. cbn [fst snd amount contributors]. apply pot_eq.
        -- rewrite (sliceTotal_first m c1 players Hm ltac:(lia) Hnn). fold players1. lia.
        -- rewrite !above_zero. pose proof (bettorIds_payIn m players). fold players1 in H.
           set_solver.
      * apply (layers_shift m c1 rest players Hm ltac:(lia) Hnn Hs1').
  - (* the pass took every bet *)
    rewrite andb_false_r.
    exists [m]. split; [repeat constructor; lia|]. split.
    { intros c. cbn [In]. split.
      - intros [<-|[]]. split; [done|]. exists q. split; [done|]. split; [done|]. right.
        by apply (remaining_iff m players Hm Hnn).
      - intros Hc. left. pose proof (isLevel_min m players c Hle Hc).
        destruct Hc as (_ & p & Hp & Hbet & _).
        apply (remaining_iff m players Hm Hnn) in Hrem.
        pose proof (Forall_In _ _ _ Hrem Hp). cbn beta in *. lia. }
    split; [done|]. split.
    { intros p Hp.
      assert (Hpn : 0 <= currentBet p) by (by apply (Forall_In _ _ _ Hnn)).
      apply (remaining_iff m players Hm Hnn) in Hrem.
      pose proof (Forall_In _ _ _ Hrem Hp). cbn beta in *.
      cbn [bands map sumZ fst snd]. unfold slice. lia. }
    rewrite collectLoop_idle by (by rewrite (selected_existsb _ _ Hcov1)).
    rewrite (zeroed_idle _ Hnn1 Hrem), Hzero. f_equal. f_equal. f_equal.
    by rewrite Hfirst.
Qed.

Lemma collectLoop_fresh fuel mask players :
  collectLoop fuel mask players [] = 
  if existsb hasBet (selected mask players)
  then collectLoop fuel mask players [emptyPot]
  else Some (players, []).
Proof. destruct fuel; cbn [collectLoop]; by destruct (existsb hasBet (selected mask players)). Qed.

(** The pots after [collectBets]: the bets are cut at the levels, the lowest
    layer joins the pot that was current and every further layer is a new
    pot. *)
Lemma collectBets_ladder (players : list Player) (pots : list Pot) :
  Forall (fun p => 0 <= currentBet p) players ->
  exists pots' levels,
    collectBets players pots = Some (map (setCurrentBet 0) players, pots')
    /\ StronglySorted Z.lt (0 :: levels)
    /\ (forall c, In c levels <-> isLevel players c)
    /\ (forall p, In p players ->
          sumZ (map (fun b => slice (fst b) (snd b) p) (bands 0 levels)) = currentBet p)
    /\ (levels = [] -> pots' = pots)
    /\ length pots' = Nat.max (length pots) (entryPot pots + length levels)
    /\ (forall k, (k < entryPot pots)%nat -> pots' !! k = pots !! k)
    /\ (forall k lo hi, bands 0 levels !! k = Some (lo, hi) ->
          exists pot', pots' !! (entryPot pots + k)%nat = Some pot'
            /\ amount pot' = amountAt pots (entryPot pots + k) + sliceTotal lo hi players
            /\ contributors pot' =
               contributorsAt pots (entryPot pots + k) ∪ above lo players).
Proof.
  intros Hnn. unfold collectBets.
  destruct (length (selected (map hasBet players) players) =? 0)%nat eqn:E.
  { assert (Hex : existsb hasBet players = false).
    { rewrite <- (selected_existsb (map hasBet players)) by apply covers_init.
      rewrite existsb_filter. apply Nat.eqb_eq in E.
      destruct (selected (map hasBet players) players); [done|discriminate E]. }
    exists pots, []. rewrite <- (zeroed_idle _ Hnn Hex).
    split; [done|]. split; [repeat constructor|]. split.
    { intros c. split; [done|]. intros H. by apply (idle_no_level players c Hnn Hex). }
    split; [intros p Hp; by rewrite (idle_bet players p Hnn Hex Hp)|].
    split; [done|]. split; [unfold entryPot; cbn [length]; lia|].
    split; [done|]. intros k lo hi H. done. }
  assert (Hex : existsb hasBet players = true).
  { destruct (existsb hasBet players) eqn:Hex; [done|]. exfalso.
    assert (selected (map hasBet players) players = []) as Hnone; [|by rewrite Hnone in E].
    clear -Hex. induction players as [|p players IH]; [done|].
    cbn [existsb] in Hex. apply orb_false_iff in Hex as [Hp Hex].
    cbn [map selected]. rewrite Hp. by apply IH. }
  assert (Hshape : exists closed cur,
            (pots = [] /\ closed = [] /\ cur = emptyPot \/ pots = closed ++ [cur])
            /\ collectLoop (length players) (map hasBet players) players pots
               = collectLoop (length players) (map hasBet players) players (closed ++ [cur])).
  { destruct (splitCurrent_spec pots) as [[-> _]|(closed & cur & -> & _)].
    - exists [], emptyPot. split; [by left|].
      rewrite collectLoop_fresh, (selected_existsb _ _ (covers_init players)), Hex. done.
    - exists closed, cur. split; [by right|done]. }
  destruct Hshape as (closed & cur & Hshape & ->).
  destruct (collectLoop_ladder (length players) (map hasBet players) players closed cur)
    as (levels & Hs & Hlev & Hne & Hsum & Hloop);
    [apply covers_init|apply filter_length_le|done|].
  specialize (Hne Hex). destruct levels as [|c1 rest]; [done|].
  cbn [bands map pile] in Hloop.
  eexists _, (c1 :: rest). split; [exact Hloop|].
  split; [done|]. split; [done|]. split; [done|]. split; [done|].
  assert (Hentry : entryPot pots = length closed
                   /\ amountAt pots (length closed) = amount cur
                   /\ contributorsAt pots (length closed) = contributors cur
                   /\ (forall j, amountAt pots (length closed + S j) = 0
                                 /\ contributorsAt pots (length closed + S j) = ∅)
                   /\ forall k, (k < length closed)%nat -> (closed ++ [cur]) !! k = pots !! k).
  { destruct Hshape as [(-> & -> & ->)| ->].
    - repeat split; try done. intros k Hk. simpl in Hk. lia.
    - unfold entryPot, amountAt, contributorsAt. rewrite length_app. cbn [length].
      split; [lia|]. rewrite !list_lookup_middle by done. split; [done|]. split; [done|].
      split; [|done]. intros j.
      rewrite lookup_ge_None_2; [done|]. rewrite length_app. cbn [length]. lia. }
  destruct Hentry as (He & Ha & Hc & Hbeyond & Hprefix). rewrite He.
  split.
  { rewrite length_app. cbn [length]. rewrite length_map.
    assert (length (bands c1 rest) = length rest) as ->.
    { clear. revert c1. induction rest as [|c rest IH]; intros c1; [done|].
      cbn [bands length]. by rewrite IH. }
    destruct Hshape as [(-> & -> & ->)| ->]; [cbn [length]; lia|].
    rewrite length_app. cbn [length]. lia. }
  split.
  { intros k Hk. rewrite lookup_app_l by done. rewrite <- Hprefix by done.
    by rewrite lookup_app_l. }
  intros k lo hi Hk. destruct k as [|j].
  - cbn [bands] in Hk. injection Hk as <- <-.
    rewrite Nat.add_0_r, list_lookup_middle by done.
    eexists. split; [done|]. rewrite Ha, Hc.
    unfold mergePot, layer. cbn [amount contributors fst snd]. split; [done|]. set_solver.
  - cbn [bands] in Hk. change ((bands c1 rest) !! j = Some (lo, hi)) in Hk.
    destruct (Hbeyond j) as [-> ->].
    rewrite lookup_app_r by lia.
    replace (length closed + S j - length closed)%nat with (S j) by lia.
    match goal with
    | |- context [ (?a :: ?l) !! S j ] => change ((a :: l) !! S j) with (l !! j)
    end.
    change (map (layer players) (bands c1 rest)) with (layer players <$> bands c1 rest).
    rewrite list_lookup_fmap, Hk. eexists. split; [done|].
    unfold layer. cbn [amount contributors fst snd]. split; [lia|set_solver].
Qed.

(** The contract of [collectBets], shared by the result below. *)
Lemma collectBets_contract (players : list Player) (pots : list Pot) :
  Forall (fun p => 0 <= currentBet p) players ->
  exists players' pots' levels,
    collectBets players pots = Some (players', pots')
    /\ Forall (fun p => currentBet p = 0) players'
    /\ players' = map (setCurrentBet 0) players
    /\ potsAmount pots' - potsAmount pots = betsTotal players
    /\ (forall p, In p players -> 0 < currentBet p ->
          exists pot', pots' !! entryPot pots = Some pot'
            /\ id p ∈ contributors pot'
            /\ amountAt pots (entryPot pots) < amount pot')
    /\ StronglySorted Z.lt (0 :: levels)
    /\ (forall c, In c levels <-> isLevel players c)
    /\ (forall p, In p players ->
          sumZ (map (fun b => slice (fst b) (snd b) p) (bands 0 levels)) = currentBet p)
    /\ (levels = [] -> pots' = pots)
    /\ length pots' = Nat.max (length pots) (entryPot pots + length levels)
    /\ (forall k, (k < entryPot pots)%nat -> pots' !! k = pots !! k)
    /\ (forall k lo hi, bands 0 levels !! k = Some (lo, hi) ->
          exists pot', pots' !! (entryPot pots + k)%nat = Some pot'
            /\ amount pot' = amountAt pots (entryPot pots + k) + sliceTotal lo hi players
            /\ contributors pot' =
               contributorsAt pots (entryPot pots + k) ∪ above lo players
            /\ forall p, In p players -> 0 < slice lo hi p -> id p ∈ contributors pot').
Proof.
  intros Hnn.
  destruct (collectBets_total players pots Hnn)
    as (ps' & pots' & Hrun & Hz & Hps & Hsum & Hentry).
  destruct (collectBets_ladder players pots Hnn)
    as (pots2 & levels & Hrun2 & Hs & Hlev & Hslices & Hidle & Hlen & Hprefix & Hbands).
  rewrite Hrun in Hrun2. injection Hrun2 as _ <-.
  exists ps', pots', levels.
  split; [done|]. split; [done|]. split; [done|]. split; [done|]. split; [done|].
  split; [done|]. split; [done|]. split; [done|]. split; [done|]. split; [done|].
  split; [done|].
  intros k lo hi Hk. destruct (Hbands k lo hi Hk) as (pot' & Hpot & Ha & Hc).
  exists pot'. split; [done|]. split; [done|]. split; [done|].
  intros p Hp Hslice. rewrite Hc. apply elem_of_union_r, above_elem; [done|].
  unfold slice in Hslice. lia.
Qed.



(** ** [Player.bet] in double arithmetic

    Binary64 arithmetic on safe integers.  A safe integer is held by the
    double whose mantissa is the integer shifted to 53 bits; adding,
    subtracting and comparing two such doubles gives what the integers give,
    as long as the result is a safe integer. *)

Lemma shiftLeft_S q k : shiftLeft q (S k) = xO (shiftLeft q k).
Proof. reflexivity. Qed.

Lemma shiftLeft_add q j k : shiftLeft (shiftLeft q j) k = shiftLeft q (k + j).
Proof. unfold shiftLeft. by rewrite Nat.iter_add. Qed.

Lemma iter_shiftLeft q d : Pos.iter xO q d = shiftLeft q (Pos.to_nat d).
Proof. unfold shiftLeft. by rewrite Pos2Nat.inj_iter. Qed.

Lemma bitLength_shiftLeft q k : bitLength (shiftLeft q k) = bitLength q + Z.of_nat k.
Proof.
  unfold bitLength. induction k as [|k IH]; [simpl; lia|].
  rewrite shiftLeft_S. cbn [digits2_pos]. rewrite Pos2Z.inj_succ, IH. lia.
Qed.

Lemma Zpos_shiftLeft q k : Zpos (shiftLeft q k) = Zpos q * 2 ^ Z.of_nat k.
Proof.
  induction k as [|k IH]; [simpl; lia|].
  rewrite shiftLeft_S, (Pos2Z.inj_xO (shiftLeft q k)), IH, Nat2Z.inj_succ, Z.pow_succ_r by lia. lia.
Qed.

Lemma bitLength_bounds q : 2 ^ (bitLength q - 1) <= Zpos q < 2 ^ bitLength q.
Proof.
  unfold bitLength. induction q as [q IH|q IH|]; cbn [digits2_pos].
  - rewrite Pos2Z.inj_succ, (Pos2Z.inj_xI q).
    replace (Z.succ (Zpos (digits2_pos q)) - 1) with (Z.succ (Zpos (digits2_pos q) - 1)) by lia.
    rewrite !Z.pow_succ_r by lia.
    set (a := 2 ^ (Zpos (digits2_pos q) - 1)) in *. set (b := 2 ^ Zpos (digits2_pos q)) in *.
    clearbody a b. lia.
  - rewrite Pos2Z.inj_succ, (Pos2Z.inj_xO q).
    replace (Z.succ (Zpos (digits2_pos q)) - 1) with (Z.succ (Zpos (digits2_pos q) - 1)) by lia.
    rewrite !Z.pow_succ_r by lia.
    set (a := 2 ^ (Zpos (digits2_pos q) - 1)) in *. set (b := 2 ^ Zpos (digits2_pos q)) in *.
    clearbody a b. lia.
  - simpl. lia.
Qed.

Lemma bitLength_pos q : 1 <= bitLength q.
Proof. unfold bitLength. lia. Qed.

Lemma bitLength_safe q : Zpos q < 2 ^ 53 -> bitLength q <= 53.
Proof.
  intros H. destruct (bitLength_bounds q) as [Hlo _].
  destruct (decide (bitLength q <= 53)) as [|Hgt]; [done|]. exfalso.
  assert (2 ^ 53 <= 2 ^ (bitLength q - 1)) by (apply Z.pow_le_mono_r; lia). lia.
Qed.

Lemma bitLength_mono q r : bitLength q < bitLength r -> (q < r)%positive.
Proof.
  intros H. destruct (bitLength_bounds q) as [_ Hq]. destruct (bitLength_bounds r) as [Hr _].
  assert (2 ^ bitLength q <= 2 ^ (bitLength r - 1)) by (apply Z.pow_le_mono_r; lia).
  apply Pos2Z.pos_lt_pos. lia.
Qed.

Lemma iter_pos_nat {A : Type} (f : A -> A) (n : positive) (x : A) :
  SpecFloat.iter_pos f n x = Nat.iter (Pos.to_nat n) f x.
Proof.
  revert x. induction n as [n IH|n IH|]; intros x; cbn [SpecFloat.iter_pos].
  - rewrite !IH, Pos2Nat.inj_xI, Nat.iter_succ_r.
    replace (2 * Pos.to_nat n)%nat with (Pos.to_nat n + Pos.to_nat n)%nat by lia.
    by rewrite Nat.iter_add.
  - rewrite !IH, Pos2Nat.inj_xO.
    replace (2 * Pos.to_nat n)%nat with (Pos.to_nat n + Pos.to_nat n)%nat by lia.
    by rewrite Nat.iter_add.
  - reflexivity.
Qed.

Lemma shr_shiftLeft (r : positive) (n : nat) :
  Nat.iter n shr_1 (Build_shr_record (Zpos (shiftLeft r n)) false false)
  = Build_shr_record (Zpos r) false false.
Proof.
  induction n as [|n IH]; [done|].
  rewrite Nat.iter_succ_r. rewrite shiftLeft_S. cbn [shr_1 orb]. exact IH.
Qed.

(** Rounding a mantissa of 53 significant bits followed by [n] zero bits. *)
Lemma binary_round_aux_exact (s : bool) (r : positive) (n : nat) (e : Z) :
  bitLength r = 53 -> -1074 <= e + Z.of_nat n <= 971 ->
  binary_round_aux prec emax s (Zpos (shiftLeft r n)) e loc_Exact
  = S754_finite s r (e + Z.of_nat n).
Proof.
  intros Hr He. unfold binary_round_aux.
  assert (Hfirst : shr_fexp prec emax (Zpos (shiftLeft r n)) e loc_Exact
                   = (Build_shr_record (Zpos r) false false, e + Z.of_nat n)).
  { unfold shr_fexp. cbn [Zdigits2 shr_record_of_loc].
    change (Zpos (digits2_pos (shiftLeft r n))) with (bitLength (shiftLeft r n)).
    rewrite bitLength_shiftLeft, Hr. unfold fexp, SpecFloat.emin, prec, emax.
    replace (Z.max (53 + Z.of_nat n + e - 53) (3 - 1024 - 53) - e) with (Z.of_nat n) by lia.
    unfold shr. destruct n as [|n].
    - cbn [Z.of_nat]. f_equal. lia.
    - change (Z.of_nat (S n)) with (Zpos (Pos.of_succ_nat n)). cbv iota beta.
      rewrite iter_pos_nat, SuccNat2Pos.id_succ, shr_shiftLeft. done. }
  rewrite Hfirst. cbn [shr_m loc_of_shr_record round_nearest_even].
  assert (Hsecond : shr_fexp prec emax (Zpos r) (e + Z.of_nat n) loc_Exact
                    = (Build_shr_record (Zpos r) false false, e + Z.of_nat n)).
  { unfold shr_fexp. cbn [Zdigits2 shr_record_of_loc].
    change (Zpos (digits2_pos r)) with (bitLength r). rewrite Hr.
    unfold fexp, SpecFloat.emin, prec, emax.
    replace (Z.max (53 + (e + Z.of_nat n) - 53) (3 - 1024 - 53) - (e + Z.of_nat n)) with 0 by lia.
    done. }
  rewrite Hsecond. cbn [shr_m]. unfold prec, emax.
  destruct (Z.leb_spec (e + Z.of_nat n) (1024 - 53)); [done|lia].
Qed.

Lemma binary_round_shiftLeft (s : bool) (q : positive) (k : nat) :
  bitLength q <= 53 ->
  binary_round prec emax s (shiftLeft q k) (- Z.of_nat k) = canonical s q.
Proof.
  intros Hq. pose proof (bitLength_pos q) as Hq1. unfold binary_round, canonical.
  change (Zpos (digits2_pos (shiftLeft q k))) with (bitLength (shiftLeft q k)). rewrite bitLength_shiftLeft.
  unfold fexp, SpecFloat.emin, prec, emax.
  replace (Z.max (bitLength q + Z.of_nat k + - Z.of_nat k - 53) (3 - 1024 - 53))
    with (bitLength q - 53) by lia.
  set (r := shiftLeft q (Z.to_nat (53 - bitLength q))).
  assert (Hr : bitLength r = 53) by (unfold r; rewrite bitLength_shiftLeft; lia).
  unfold shl_align.
  destruct (bitLength q - 53 - - Z.of_nat k) as [|p|d] eqn:E.
  - (* aligned *)
    assert (shiftLeft q k = shiftLeft r 0) as ->.
    { unfold r. rewrite shiftLeft_add. f_equal. lia. }
    rewrite (binary_round_aux_exact s r 0) by (done || lia). f_equal. lia.
  - (* to be shifted right *)
    assert (shiftLeft q k = shiftLeft r (Pos.to_nat p)) as ->.
    { unfold r. rewrite shiftLeft_add. f_equal. lia. }
    rewrite (binary_round_aux_exact s r (Pos.to_nat p)) by (done || lia). f_equal. lia.
  - rewrite iter_shiftLeft, shiftLeft_add.
    replace (Pos.to_nat d + k)%nat with (Z.to_nat (53 - bitLength q)) by lia.
    fold r. change r with (shiftLeft r 0).
    rewrite (binary_round_aux_exact s r 0) by (done || lia). f_equal. lia.
Qed.

Lemma Z2SF_pos q : bitLength q <= 53 -> Z2SF (Zpos q) = canonical false q.
Proof. intros H. exact (binary_round_shiftLeft false q 0 H). Qed.

Lemma Z2SF_neg q : bitLength q <= 53 -> Z2SF (Zneg q) = canonical true q.
Proof. intros H. exact (binary_round_shiftLeft true q 0 H). Qed.

Lemma Z2SF_zero : Z2SF 0 = S754_zero false.
Proof. reflexivity. Qed.

Lemma canonical_valid s q : bitLength q <= 53 -> valid_binary (canonical s q) = true.
Proof.
  intros H. pose proof (bitLength_pos q). unfold canonical, valid_binary, bounded, canonical_mantissa.
  change (Zpos (digits2_pos ?x)) with (bitLength x). rewrite bitLength_shiftLeft.
  unfold fexp, SpecFloat.emin, prec, emax. apply andb_true_iff. split.
  - apply Z.eqb_eq. lia.
  - apply Z.leb_le. lia.
Qed.

Lemma safe_bitLength z q : safeInteger z -> Z.abs z = Zpos q -> bitLength q <= 53.
Proof. unfold safeInteger. intros H E. apply bitLength_safe. lia. Qed.

Lemma Z2SF_valid z : safeInteger z -> valid_binary (Z2SF z) = true.
Proof.
  intros H. destruct z as [|q|q].
  - reflexivity.
  - rewrite Z2SF_pos by (by apply (safe_bitLength (Zpos q))). apply canonical_valid.
    by apply (safe_bitLength (Zpos q)).
  - rewrite Z2SF_neg by (by apply (safe_bitLength (Zneg q))). apply canonical_valid.
    by apply (safe_bitLength (Zneg q)).
Qed.

Lemma Prim2SF_Z2double z : safeInteger z -> Prim2SF (Z2double z) = Z2SF z.
Proof. intros H. apply Prim2SF_SF2Prim. by apply Z2SF_valid. Qed.

Lemma shl_align_fst mx ex ez :
  ez <= ex -> fst (shl_align mx ex ez) = shiftLeft mx (Z.to_nat (ex - ez)).
Proof.
  intros H. unfold shl_align. destruct (ez - ex) as [|p|d] eqn:E.
  - replace (ex - ez) with 0 by lia. done.
  - lia.
  - cbn [fst]. rewrite iter_shiftLeft. f_equal. lia.
Qed.

Lemma scaled_pos q K : Zpos q * 2 ^ Z.of_nat K = Zpos (shiftLeft q K).
Proof. by rewrite Zpos_shiftLeft. Qed.

Lemma scaled_neg q K : Zneg q * 2 ^ Z.of_nat K = Zneg (shiftLeft q K).
Proof.
  rewrite <- !Pos2Z.opp_pos, Zpos_shiftLeft. lia.
Qed.

Lemma normalize_scaled z K :
  safeInteger z ->
  binary_normalize prec emax (z * 2 ^ Z.of_nat K) (- Z.of_nat K) false = Z2SF z.
Proof.
  intros Hz. destruct z as [|q|q].
  - reflexivity.
  - rewrite scaled_pos. cbn [binary_normalize].
    rewrite binary_round_shiftLeft by (by apply (safe_bitLength (Zpos q))).
    symmetry. apply Z2SF_pos. by apply (safe_bitLength (Zpos q)).
  - rewrite scaled_neg. cbn [binary_normalize].
    rewrite binary_round_shiftLeft by (by apply (safe_bitLength (Zneg q))).
    symmetry. apply Z2SF_neg. by apply (safe_bitLength (Zneg q)).
Qed.

Lemma aligned sa qa sb qb :
  bitLength qa <= 53 -> bitLength qb <= 53 ->
  let ex := bitLength qa - 53 in
  let ey := bitLength qb - 53 in
  exists K : nat,
    Z.min ex ey = - Z.of_nat K
    /\ cond_Zopp sa (Zpos (fst (shl_align (shiftLeft qa (Z.to_nat (53 - bitLength qa))) ex
                                   (Z.min ex ey))))
       = signedValue sa qa * 2 ^ Z.of_nat K
    /\ cond_Zopp sb (Zpos (fst (shl_align (shiftLeft qb (Z.to_nat (53 - bitLength qb))) ey
                                   (Z.min ex ey))))
       = signedValue sb qb * 2 ^ Z.of_nat K.
Proof.
  intros Ha Hb ex ey. pose proof (bitLength_pos qa). pose proof (bitLength_pos qb).
  exists (Z.to_nat (- Z.min ex ey)). set (K := Z.to_nat (- Z.min ex ey)).
  split; [unfold K, ex, ey; lia|].
  rewrite !shl_align_fst by lia. rewrite !shiftLeft_add, !Zpos_shiftLeft.
  replace (Z.to_nat (ex - Z.min ex ey) + Z.to_nat (53 - bitLength qa))%nat with K
    by (unfold K, ex, ey; lia).
  replace (Z.to_nat (ey - Z.min ex ey) + Z.to_nat (53 - bitLength qb))%nat with K
    by (unfold K, ex, ey; lia).
  unfold signedValue. split; [destruct sa|destruct sb]; cbn [cond_Zopp]; lia.
Qed.

Lemma SFadd_canonical sa qa sb qb :
  bitLength qa <= 53 -> bitLength qb <= 53 ->
  safeInteger (signedValue sa qa + signedValue sb qb) ->
  SFadd prec emax (canonical sa qa) (canonical sb qb) = Z2SF (signedValue sa qa + signedValue sb qb).
Proof.
  intros Ha Hb Hsum. unfold canonical. cbn [SFadd].
  destruct (aligned sa qa sb qb Ha Hb) as (K & Hmin & Hx & Hy).
  rewrite Hx, Hy, Hmin, <- Z.mul_add_distr_r. by apply normalize_scaled.
Qed.

Lemma SFsub_canonical sa qa sb qb :
  bitLength qa <= 53 -> bitLength qb <= 53 ->
  safeInteger (signedValue sa qa - signedValue sb qb) ->
  SFsub prec emax (canonical sa qa) (canonical sb qb) = Z2SF (signedValue sa qa - signedValue sb qb).
Proof.
  intros Ha Hb Hsum. unfold canonical. cbn [SFsub].
  destruct (aligned sa qa sb qb Ha Hb) as (K & Hmin & Hx & Hy).
  rewrite Hx, Hy, Hmin, <- Z.mul_sub_distr_r. by apply normalize_scaled.
Qed.

Lemma Z2SF_canonical z :
  safeInteger z -> z <> 0 ->
  exists s q, Z2SF z = canonical s q /\ bitLength q <= 53 /\ signedValue s q = z.
Proof.
  intros Hz Hne. destruct z as [|q|q]; [done| |].
  - exists false, q. pose proof (safe_bitLength (Zpos q) q Hz eq_refl).
    split; [by apply Z2SF_pos|done].
  - exists true, q. pose proof (safe_bitLength (Zneg q) q Hz eq_refl).
    split; [by apply Z2SF_neg|done].
Qed.

Lemma SFadd_integers a b :
  safeInteger a -> safeInteger b -> safeInteger (a + b) ->
  SF64add (Z2SF a) (Z2SF b) = Z2SF (a + b).
Proof.
  intros Ha Hb Hab. unfold SF64add.
  destruct (decide (a = 0)) as [->|Hane].
  { rewrite Z2SF_zero, Z.add_0_l. destruct (decide (b = 0)) as [->|Hbne]; [done|].
    destruct (Z2SF_canonical b Hb Hbne) as (s & q & -> & _). done. }
  destruct (Z2SF_canonical a Ha Hane) as (sa & qa & Ea & Hqa & <-).
  destruct (decide (b = 0)) as [->|Hbne].
  { rewrite Z2SF_zero, Z.add_0_r, Ea. done. }
  destruct (Z2SF_canonical b Hb Hbne) as (sb & qb & Eb & Hqb & <-).
  rewrite Ea, Eb. by apply SFadd_canonical.
Qed.

Lemma SFsub_integers a b :
  safeInteger a -> safeInteger b -> safeInteger (a - b) ->
  SF64sub (Z2SF a) (Z2SF b) = Z2SF (a - b).
Proof.
  intros Ha Hb Hab. unfold SF64sub.
  destruct (decide (b = 0)) as [->|Hbne].
  { rewrite Z2SF_zero, Z.sub_0_r. destruct (decide (a = 0)) as [->|Hane]; [done|].
    destruct (Z2SF_canonical a Ha Hane) as (s & q & -> & _). done. }
  destruct (Z2SF_canonical b Hb Hbne) as (sb & qb & Eb & Hqb & <-).
  destruct (decide (a = 0)) as [->|Hane].
  { rewrite Z2SF_zero, Eb. unfold canonical. cbn [SFsub].
    assert (0 - signedValue sb qb = signedValue (negb sb) qb) as -> by (by destruct sb).
    destruct sb; cbn [negb signedValue cond_Zopp]; symmetry; [by apply Z2SF_pos|by apply Z2SF_neg]. }
  destruct (Z2SF_canonical a Ha Hane) as (sa & qa & Ea & Hqa & <-).
  rewrite Ea, Eb. by apply SFsub_canonical.
Qed.

Lemma shiftLeft_compare qa qb k : (shiftLeft qa k ?= shiftLeft qb k)%positive = (qa ?= qb)%positive.
Proof.
  rewrite !Pos2Z.inj_compare, !Zpos_shiftLeft.
  symmetry. apply Zmult_compare_compat_r. apply Z.lt_gt, Z.pow_pos_nonneg; lia.
Qed.

Lemma SFcompare_canonical sa qa sb qb :
  bitLength qa <= 53 -> bitLength qb <= 53 ->
  SFcompare (canonical sa qa) (canonical sb qb) = Some (signedValue sa qa ?= signedValue sb qb).
Proof.
  intros Ha Hb. unfold canonical. cbn [SFcompare].
  assert (Hcases : match bitLength qa - 53 ?= bitLength qb - 53 with
                   | Lt => (qa ?= qb)%positive = Lt
                   | Gt => (qa ?= qb)%positive = Gt
                   | Eq => Pos.compare_cont Eq (shiftLeft qa (Z.to_nat (53 - bitLength qa)))
                             (shiftLeft qb (Z.to_nat (53 - bitLength qb))) = (qa ?= qb)%positive
                   end).
  { destruct (Z.compare_spec (bitLength qa - 53) (bitLength qb - 53)) as [E|E|E].
    - replace (bitLength qb) with (bitLength qa) by lia. apply shiftLeft_compare.
    - apply Pos.compare_lt_iff, bitLength_mono. lia.
    - apply Pos.compare_gt_iff, bitLength_mono. lia. }
  unfold signedValue. f_equal.
  destruct sa, sb; cbn [cond_Zopp]; try reflexivity.
  - change (- Zpos qa ?= - Zpos qb) with (CompOpp (qa ?= qb)%positive).
    destruct (bitLength qa - 53 ?= bitLength qb - 53); by rewrite Hcases.
  - change (Zpos qa ?= Zpos qb) with (qa ?= qb)%positive.
    destruct (bitLength qa - 53 ?= bitLength qb - 53); by rewrite Hcases.
Qed.

Lemma SFcompare_integers a b :
  safeInteger a -> safeInteger b -> SFcompare (Z2SF a) (Z2SF b) = Some (a ?= b).
Proof.
  intros Ha Hb.
  destruct (decide (a = 0)) as [->|Hane].
  { rewrite Z2SF_zero. destruct (decide (b = 0)) as [->|Hbne]; [done|].
    destruct (Z2SF_canonical b Hb Hbne) as (s & q & -> & _ & <-). by destruct s. }
  destruct (Z2SF_canonical a Ha Hane) as (sa & qa & Ea & Hqa & <-).
  destruct (decide (b = 0)) as [->|Hbne].
  { rewrite Z2SF_zero, Ea. by destruct sa. }
  destruct (Z2SF_canonical b Hb Hbne) as (sb & qb & Eb & Hqb & <-).
  rewrite Ea, Eb. by apply SFcompare_canonical.
Qed.

Lemma add_integers a b :
  safeInteger a -> safeInteger b -> safeInteger (a + b) ->
  PrimFloat.add (Z2double a) (Z2double b) = Z2double (a + b).
Proof.
  intros Ha Hb Hab. apply Prim2SF_inj.
  rewrite FloatAxioms.add_spec, !Prim2SF_Z2double by done. by apply SFadd_integers.
Qed.

Lemma sub_integers a b :
  safeInteger a -> safeInteger b -> safeInteger (a - b) ->
  PrimFloat.sub (Z2double a) (Z2double b) = Z2double (a - b).
Proof.
  intros Ha Hb Hab. apply Prim2SF_inj.
  rewrite FloatAxioms.sub_spec, !Prim2SF_Z2double by done. by apply SFsub_integers.
Qed.

Lemma compare_integers a b :
  safeInteger a -> safeInteger b ->
  PrimFloat.compare (Z2double a) (Z2double b) =
  match a ?= b with Eq => FEq | Lt => FLt | Gt => FGt end.
Proof.
  intros Ha Hb. rewrite FloatAxioms.compare_spec, !Prim2SF_Z2double by done.
  by rewrite SFcompare_integers.
Qed.

Lemma safe_zero : safeInteger 0.
Proof. unfold safeInteger. lia. Qed.

Lemma eqb_zero a : safeInteger a -> PrimFloat.eqb (Z2double a) zero = (a =? 0).
Proof.
  intros Ha. change zero with (Z2double 0).
  rewrite FloatAxioms.eqb_spec, !Prim2SF_Z2double by (done || apply safe_zero).
  unfold SFeqb. rewrite SFcompare_integers by (done || apply safe_zero).
  destruct (Z.compare_spec a 0) as [->|H|H]; [done| |]; symmetry; apply Z.eqb_neq; lia.
Qed.



Lemma Z2double_exact z : safeInteger z -> exactValue (Z2double z) = Some (z * 2 ^ 1074).
Proof.
  intros Hz. unfold exactValue. rewrite Prim2SF_Z2double by done.
  destruct (decide (z = 0)) as [->|Hne]; [done|].
  destruct (Z2SF_canonical z Hz Hne) as (s & q & -> & Hq & <-).
  unfold canonical, signedValue. pose proof (bitLength_pos q).
  f_equal. rewrite Zpos_shiftLeft, Z2Nat.id by lia.
  replace (Zpos q * 2 ^ (53 - bitLength q) * 2 ^ (bitLength q - 53 + 1074))
    with (Zpos q * 2 ^ 1074).
  - by destruct s; cbn [cond_Zopp]; lia.
  - rewrite <- Z.mul_assoc, <- Z.pow_add_r by lia. do 2 f_equal. lia.
Qed.

Lemma Math_min_integers a b :
  safeInteger a -> safeInteger b ->
  Math_min_double (Z2double a) (Z2double b) = Z2double (Z.min a b).
Proof.
  intros Ha Hb. unfold Math_min_double. rewrite compare_integers by done.
  unfold Z.min. destruct (Z.compare_spec a b) as [->|H|H]; [|done..].
  by destruct (get_sign _).
Qed.

Lemma safe_min a b : safeInteger a -> safeInteger b -> safeInteger (Z.min a b).
Proof. unfold safeInteger. lia. Qed.

Lemma bet_double_integers (amount : Z) (p : Player) :
  safeBet amount p ->
  bet_double (Z2double amount) (doubles p) =
  (Z2double (fst (bet amount p)), doubles (snd (bet amount p))).
Proof.
  intros (Ha & Hc & Hb & Hc' & Hb').
  pose proof (safe_min _ _ Ha Hc) as Hw.
  unfold bet_double, doubles, bet. cbn [chipsD currentBetD isAllInD fst snd].
  rewrite Math_min_integers, sub_integers, add_integers, eqb_zero by done.
  cbn [chips currentBet setChips setCurrentBet].
  f_equal. by destruct (chips p - Z.min amount (chips p) =? 0).
Qed.

Lemma bet_ledger (amount : Z) (p : Player) :
  0 <= chips p ->
  let wagered := Z.min amount (chips p) in
  let p' := snd (bet amount p) in
  fst (bet amount p) = wagered
  /\ chips p' = chips p - wagered
  /\ 0 <= chips p'
  /\ currentBet p' = currentBet p + wagered
  /\ (chips p' = 0 -> isAllIn p' = true)
  /\ (chips p' <> 0 -> isAllIn p' = isAllIn p)
  /\ (isAllIn p = false -> (isAllIn p' = true <-> chips p' = 0))
  /\ id p' = id p /\ hasFolded p' = hasFolded p /\ hasActed p' = hasActed p.
Proof.
  intros Hc. unfold bet. simpl.
  destruct (chips p - Z.min amount (chips p) =? 0) eqn:E; simpl;
    repeat split; try lia; try done; intros; try lia; try congruence.
Qed.

Lemma doubles_hold (p : Player) :
  safeInteger (chips p) -> safeInteger (currentBet p) ->
  holdsInteger (chipsD (doubles p)) (chips p)
  /\ holdsInteger (currentBetD (doubles p)) (currentBet p).
Proof. intros Hc Hb. split; by apply Z2double_exact. Qed.

Lemma bet_in_doubles (amount : Z) (p : Player) :
  0 <= chips p -> safeBet amount p ->
  let wagered := Z.min amount (chips p) in
  let p' := snd (bet amount p) in
  let r := bet_double (Z2double amount) (doubles p) in
  (holdsInteger (Z2double amount) amount
   /\ holdsInteger (chipsD (doubles p)) (chips p)
   /\ holdsInteger (currentBetD (doubles p)) (currentBet p))
  /\ r = (Z2double wagered, doubles p')
  /\ (holdsInteger (fst r) wagered
      /\ holdsInteger (chipsD (snd r)) (chips p')
      /\ holdsInteger (currentBetD (snd r)) (currentBet p')
      /\ isAllInD (snd r) = isAllIn p')
  /\ fst (bet amount p) = wagered
  /\ chips p' = chips p - wagered
  /\ 0 <= chips p'
  /\ currentBet p' = currentBet p + wagered
  /\ (chips p' = 0 -> isAllIn p' = true)
  /\ (chips p' <> 0 -> isAllIn p' = isAllIn p)
  /\ (isAllIn p = false -> (isAllIn p' = true <-> chips p' = 0))
  /\ id p' = id p /\ hasFolded p' = hasFolded p /\ hasActed p' = hasActed p.
Proof.
  intros Hc Hsafe. pose proof Hsafe as (Ha & Hcs & Hbs & Hc1 & Hb1).
  pose proof (bet_ledger amount p Hc) as Hledger. cbv zeta in Hledger |- *.
  destruct Hledger as (Hfst & Hchips & Hnn & Hbet & Hrest).
  rewrite (bet_double_integers amount p Hsafe). cbn [fst snd].
  split.
  { split; [by apply Z2double_exact|]. by apply doubles_hold. }
  split; [by rewrite Hfst|].
  split.
  { split; [rewrite Hfst; apply Z2double_exact; by apply safe_min|].
    assert (Hc' : safeInteger (chips (snd (bet amount p)))) by (by rewrite Hchips).
    assert (Hb' : safeInteger (currentBet (snd (bet amount p)))) by (by rewrite Hbet).
    destruct (doubles_hold _ Hc' Hb') as [H1 H2]. done. }
  done.
Qed.

(** C9, on the integers that doubles hold exactly.  Let [amount], the
    player's chips and current bet, and the difference and the sum that
    [bet] forms be safe integers, and the chips non-negative.  Then
    [Player.bet], run in double arithmetic on the doubles that hold these
    integers, computes without rounding: what it returns and what it leaves
    in [chips] and [currentBet] are the doubles that hold the integer
    results.  These results are: the wager [min(amount, chips)], which is
    returned; the chips less the wager, which are not negative; the current
    bet plus the wager; and [isAllIn], set exactly when the chips are zero
    after the bet (left as it was otherwise).  No other field changes. *)
Theorem bet_never_overdraws (amount : Z) (p : Player) :
  0 <= chips p -> safeBet amount p ->
  let wagered := Z.min amount (chips p) in
  let p' := snd (bet amount p) in
  let r := bet_double (Z2double amount) (doubles p) in
  (holdsInteger (Z2double amount) amount
   /\ holdsInteger (chipsD (doubles p)) (chips p)
   /\ holdsInteger (currentBetD (doubles p)) (currentBet p))
  /\ r = (Z2double wagered, doubles p')
  /\ (holdsInteger (fst r) wagered
      /\ holdsInteger (chipsD (snd r)) (chips p')
      /\ holdsInteger (currentBetD (snd r)) (currentBet p')
      /\ isAllInD (snd r) = isAllIn p')
  /\ fst (bet amount p) = wagered
  /\ chips p' = chips p - wagered
  /\ 0 <= chips p'
  /\ currentBet p' = currentBet p + wagered
  /\ (chips p' = 0 -> isAllIn p' = true)
  /\ (chips p' <> 0 -> isAllIn p' = isAllIn p)
  /\ (isAllIn p = false -> (isAllIn p' = true <-> chips p' = 0))
  /\ id p' = id p /\ hasFolded p' = hasFolded p /\ hasActed p' = hasActed p.
Proof. exact (bet_in_doubles amount p). Qed.

Lemma bet_never_overdraws_witness :
  0 <= chips (newPlayer "A" "Alice" 100)
  /\ safeBet 250 (newPlayer "A" "Alice" 100)
  /\ bet_double (Z2double 250) (doubles (newPlayer "A" "Alice" 100))
     = (Z2double 100, doubles (snd (bet 250 (newPlayer "A" "Alice" 100))))
  /\ fst (bet 250 (newPlayer "A" "Alice" 100)) = 100
  /\ chips (snd (bet 250 (newPlayer "A" "Alice" 100))) = 0.
Proof.
  assert (H1 : 0 <= chips (newPlayer "A" "Alice" 100)) by (simpl; lia).
  assert (H2 : safeBet 250 (newPlayer "A" "Alice" 100)).
  { unfold safeBet, safeInteger. simpl. lia. }
  split; [exact H1|]. split; [exact H2|].
  destruct (bet_never_overdraws 250 (newPlayer "A" "Alice" 100) H1 H2)
    as (_ & Hd & _ & Hw & Hc & _).
  split; [exact Hd|]. split; [exact Hw|exact Hc].
Defined.

(** C9, as stated for every amount and every player with non-negative
    chips, fails in double arithmetic.  With chips and current bet both
    [2^53], [bet(1)] wagers 1, takes it from the chips and leaves the
    current bet at [2^53]: the bet has not increased by the wager.  With
    1000 chips, [bet(0.1)] wagers the double nearest to 0.1 and leaves chips
    that, with the wager added back, are not 1000: the chips have not
    decreased by exactly the wager. *)
Lemma bet_rounds_off :
  (let p := mkPlayerD (Z2double (2 ^ 53)) (Z2double (2 ^ 53)) false in
   let r := bet_double (Z2double 1) p in
   holdsInteger (chipsD p) (2 ^ 53)
   /\ holdsInteger (currentBetD p) (2 ^ 53)
   /\ holdsInteger (fst r) 1
   /\ holdsInteger (chipsD (snd r)) (2 ^ 53 - 1)
   /\ holdsInteger (currentBetD (snd r)) (2 ^ 53)
   /\ exactSum (currentBetD p) (fst r) (currentBetD (snd r)) = false)
  /\ (let p := mkPlayerD (Z2double 1000) (Z2double 0) false in
      let r := bet_double (PrimFloat.div (Z2double 1) (Z2double 10)) p in
      holdsInteger (chipsD p) 1000
      /\ fst r = PrimFloat.div (Z2double 1) (Z2double 10)
      /\ exactSum (chipsD (snd r)) (fst r) (chipsD p) = false).
Proof. vm_compute. repeat split. Qed.
